(** * VAST: hole merging ([hole_combine.py]) and void sorting ([zobov.py])

    A shallow embedding of [combine_holes] and of [Zobov.sortVoids] together
    with the properties their specification states about them.

    Numbers.  The Python code computes on IEEE doubles (numpy [float64]).
    Rounding and overflow are idealised away: a finite double is a real
    number, and an operation on finite numbers gives a finite number
    unless it divides by zero; nothing below is a statement about the
    magnitudes at which a double overflows.  What is kept of IEEE
    arithmetic is what decides control flow in the code: a division by
    zero gives an infinity or a NaN instead of raising, the exceptional
    values propagate through [+], [*] and [/], and every ordered
    comparison with a NaN is false. *)

From Stdlib Require Import String.
From Stdlib Require Import Reals Lra Lia Bool Arith ZArith List.
From Stdlib Require Import Sorting.Sorted Sorting.Permutation.
Import ListNotations.

Local Open Scope R_scope.

(** ** Doubles *)

Module Float.

Inductive fl : Type :=
| Fin (x : R)
| PInf
| NInf
| NaN.

Definition Rgtb (a b : R) : bool := if Rlt_dec b a then true else false.
Definition Rltb (a b : R) : bool := if Rlt_dec a b then true else false.
Definition Rleb (a b : R) : bool := if Rle_dec a b then true else false.
Definition Rgeb (a b : R) : bool := if Rle_dec b a then true else false.
Definition Reqb (a b : R) : bool := if Req_dec_T a b then true else false.

(** The infinity with the sign of [x]; NaN for [x = 0]. *)
Definition signed_inf (x : R) : fl :=
  if Reqb x 0 then NaN else if Rltb 0 x then PInf else NInf.

Definition neg (a : fl) : fl :=
  match a with
  | Fin x => Fin (- x)
  | PInf => NInf
  | NInf => PInf
  | NaN => NaN
  end.

Definition add (a b : fl) : fl :=
  match a, b with
  | Fin x, Fin y => Fin (x + y)
  | NaN, _ | _, NaN => NaN
  | PInf, NInf | NInf, PInf => NaN
  | PInf, _ | _, PInf => PInf
  | NInf, _ | _, NInf => NInf
  end.

Definition sub (a b : fl) : fl := add a (neg b).

Definition mul (a b : fl) : fl :=
  match a, b with
  | Fin x, Fin y => Fin (x * y)
  | NaN, _ | _, NaN => NaN
  | Fin x, PInf | PInf, Fin x => signed_inf x
  | Fin x, NInf | NInf, Fin x => signed_inf (- x)
  | PInf, PInf | NInf, NInf => PInf
  | PInf, NInf | NInf, PInf => NInf
  end.

(** numpy division: [x / 0] is an infinity of the sign of [x] (the zero
    divisors of this code are non-negative zeros), [0 / 0] is NaN. *)
Definition div (a b : fl) : fl :=
  match a, b with
  | Fin x, Fin y => if Reqb y 0 then signed_inf x else Fin (x / y)
  | NaN, _ | _, NaN => NaN
  | Fin _, PInf | Fin _, NInf => Fin 0
  | PInf, Fin y => if Rltb y 0 then NInf else PInf
  | NInf, Fin y => if Rltb y 0 then PInf else NInf
  | PInf, PInf | PInf, NInf | NInf, PInf | NInf, NInf => NaN
  end.

(** [a ** 2] *)
Definition sqr (a : fl) : fl := mul a a.

(** Ordered comparisons; false as soon as one side is NaN. *)
Definition ltb (a b : fl) : bool :=
  match a, b with
  | Fin x, Fin y => Rltb x y
  | NaN, _ | _, NaN => false
  | NInf, NInf | PInf, _ => false
  | NInf, _ => true
  | Fin _, PInf => true
  | Fin _, NInf => false
  end.

Definition leb (a b : fl) : bool :=
  match a, b with
  | Fin x, Fin y => Rleb x y
  | NaN, _ | _, NaN => false
  | NInf, _ => true
  | _, PInf => true
  | PInf, _ => false
  | Fin _, NInf => false
  end.

Definition gtb (a b : fl) : bool := ltb b a.
Definition geb (a b : fl) : bool := leb b a.

Definition is_nan (a : fl) : bool :=
  match a with NaN => true | _ => false end.

End Float.

Import Float.

(** ** numpy arrays as lists *)

Module Array.

(** Boolean-mask indexing [a[mask]]. *)
Fixpoint mask {A : Type} (bs : list bool) (l : list A) : list A :=
  match bs, l with
  | b :: bs', x :: l' => if b then x :: mask bs' l' else mask bs' l'
  | _, _ => []
  end.

(** [sum] of a boolean array. *)
Definition count_true (bs : list bool) : nat := length (filter (fun b : bool => b) bs).

(** [any] and [all] of a boolean array. *)
Definition any (bs : list bool) : bool := existsb (fun b : bool => b) bs.
Definition all (bs : list bool) : bool := forallb (fun b : bool => b) bs.

(** [l[i] = v] *)
Fixpoint set_at {A : Type} (i : nat) (v : A) (l : list A) : list A :=
  match l, i with
  | [], _ => []
  | _ :: l', O => v :: l'
  | x :: l', S i' => x :: set_at i' v l'
  end.

End Array.

Import Array.

(** ** [hole_combine.py] *)

Module HoleCombine.

(** A row of [spheres_table]: columns [x], [y], [z], [radius]. *)
Record sphere : Type := mkSphere { sx : R; sy : R; sz : R; radius : R }.

(** An output row: the input columns and the [flag] column. *)
Definition flagged : Type := (sphere * Z)%type.

(** [spherical_cap_volume(radius, height)]:
    [np.pi*(height**2)*(3*radius - height)/3.] *)
Definition spherical_cap_volume (r : R) (height : fl) : fl :=
  div (mul (mul (Fin PI) (sqr height)) (sub (Fin (3 * r)) height)) (Fin 3).

(** [cap_height(R, r, d)]: [(r - R + d)*(r + R - d)/(2*d)] *)
Definition cap_height (Rad r d : R) : fl :=
  div (Fin ((r - Rad + d) * (r + Rad - d))) (Fin (2 * d)).

(** Modelled from the spec: [to_vector] and [to_array] of the module
    [table_functions], which is not part of the sources.  They extract the
    centre columns, so that
    [np.linalg.norm(maximal_spheres_coordinates[0] - sphere_i_coordinates, axis=1)]
    is the distance [d = |centerA - centerB|] between sphere centres. *)
Definition separation (a b : sphere) : R :=
  sqrt ((sx a - sx b) ^ 2 + (sy a - sy b) ^ 2 + (sz a - sz b) ^ 2).

(** [(4./3.)*np.pi*sphere_i_radius**3] *)
Definition volume (r : R) : R := 4 / 3 * PI * r ^ 3.

(** One entry of the array [overlap_volume]:
    [spherical_cap_volume(r_i, height_i) + spherical_cap_volume(r_max, height_maximal)] *)
Definition overlap_volume (ri rm d : R) : fl :=
  add (spherical_cap_volume ri (cap_height ri rm d))
      (spherical_cap_volume rm (cap_height rm ri d)).

Definition origin : sphere := mkSphere 0 0 0 0.

(** [spheres_table[i]]; every index the code uses is in range as soon as
    the table is not empty. *)
Definition row (t : list sphere) (i : nat) : sphere := nth i t origin.

Section CombineHoles.

Variable spheres_table : list sphere.
Variable frac : R.

(** [spheres_table['radius'][i]] *)
Definition rad (i : nat) : R := radius (row spheres_table i).

Definition large_spheres_boolean : list bool :=
  map (fun s => Rgtb (radius s) 10) spheres_table.

Definition N_large_spheres : nat := count_true large_spheres_boolean.

(** The arrays computed for sphere [i] against the maximal spheres [mx]. *)
Definition maximal_radii (mx : list nat) : list R :=
  map (fun m => rad m) mx.

Definition separations (mx : list nat) (i : nat) : list R :=
  map (fun m => separation (row spheres_table m) (row spheres_table i)) mx.

(** [any((maximal_spheres_radii - sphere_i_radius) > separation)] *)
Definition inside_any (mx : list nat) (i : nat) : bool :=
  any (map (fun '(rm, d) => Rgtb (rm - rad i) d)
           (combine (maximal_radii mx) (separations mx i))).

(** [separation <= (sphere_i_radius + maximal_spheres_radii)] *)
Definition overlap_boolean (mx : list nat) (i : nat) : list bool :=
  map (fun '(rm, d) => Rleb d (rad i + rm))
      (combine (maximal_radii mx) (separations mx i)).

(** The arguments at which [cap_height] is evaluated for sphere [i]:
    [maximal_spheres_radii[overlap_boolean]] and [separation[overlap_boolean]]. *)
Definition cap_args (mx : list nat) (i : nat) : list (R * R) :=
  mask (overlap_boolean mx i) (combine (maximal_radii mx) (separations mx i)).

Definition overlap_volumes (mx : list nat) (i : nat) : list fl :=
  map (fun '(rm, d) => overlap_volume (rad i) rm d) (cap_args mx i).

(** *** Phase 1: the maximal spheres *)

Record selection : Type :=
  mkSelection { N_voids : nat; maximal_spheres_indices : list nat }.

Definition accept (st : selection) (i : nat) : selection :=
  mkSelection (N_voids st + 1) (maximal_spheres_indices st ++ [i]).

(** The body of [for i in range(1,N_large_spheres)]. *)
Definition select_step (st : selection) (i : nat) : selection :=
  let mx := maximal_spheres_indices st in
  if inside_any mx i then st
  else if any (overlap_boolean mx i) then
    if all (map (fun v => leb v (Fin (frac * volume (rad i))))
                (overlap_volumes mx i))
    then accept st i
    else st
  else accept st i.

Definition select_maximal : selection :=
  fold_left select_step (seq 1 (N_large_spheres - 1)) (mkSelection 1 [0%nat]).

(** [maximal_spheres_table['flag'] = np.arange(N_voids) + 1] *)
Definition maximal_flags (st : selection) : list Z :=
  map (fun k => (Z.of_nat k + 1)%Z) (seq 0 (N_voids st)).

(** *** Phase 2: the holes *)

Record assignment : Type :=
  mkAssignment { flag : list Z; N_holes : nat; holes_indices : list nat }.

(** Assignment of an array to one cell of a column: the array must hold
    exactly one value. *)
Definition set_flag (i : nat) (vs : list Z) (a : assignment)
  : option assignment :=
  match vs with
  | [v] => Some (mkAssignment (set_at i v (flag a)) (N_holes a) (holes_indices a))
  | _ => None
  end.

(** The body of [for i in range(N_spheres)]; [None] stands for the
    [ValueError] of an ill-shaped assignment. *)
Definition assign_step (st : selection) (a : assignment) (i : nat)
  : option assignment :=
  let mx := maximal_spheres_indices st in
  if existsb (Nat.eqb i) mx then
    set_flag i (mask (map (fun m => Nat.eqb m i) mx) (maximal_flags st)) a
  else if inside_any mx i then Some a
  else if any (overlap_boolean mx i) then
    let maximal_overlap_indices :=
      mask (overlap_boolean mx i) (seq 0 (N_voids st)) in
    let overlap2_boolean :=
      map (fun v => gtb v (Fin (0.5 * volume (rad i)))) (overlap_volumes mx i) in
    if Nat.eqb (count_true overlap2_boolean) 1 then
      set_flag i
        (map (fun k => nth k (maximal_flags st) 0%Z)
             (mask overlap2_boolean maximal_overlap_indices))
        (mkAssignment (flag a) (N_holes a + 1) (holes_indices a ++ [i]))
    else Some a
  else Some a.

Fixpoint assign_loop (st : selection) (idxs : list nat) (a : assignment)
  : option assignment :=
  match idxs with
  | [] => Some a
  | i :: idxs' =>
      match assign_step st a i with
      | Some a' => assign_loop st idxs' a'
      | None => None
      end
  end.

Definition assign_holes (st : selection) : option assignment :=
  assign_loop st (seq 0 (length spheres_table))
    (mkAssignment (map (fun _ => (-1)%Z) spheres_table) 0 []).

(** [combine_holes(spheres_table, frac)]; [None] when the call raises:
    [spheres_table[[0]]] on an empty table is an [IndexError]. *)
Definition combine_holes : option (list flagged * list flagged) :=
  match spheres_table with
  | [] => None
  | _ :: _ =>
      let st := select_maximal in
      let maximal_spheres_table :=
        combine (map (row spheres_table) (maximal_spheres_indices st))
                (maximal_flags st) in
      match assign_holes st with
      | Some a =>
          Some (maximal_spheres_table,
                map (fun i => (row spheres_table i, nth i (flag a) (-1)%Z))
                    (holes_indices a))
      | None => None
      end
  end.

End CombineHoles.

End HoleCombine.

(** ** [vast/vsquared/zobov.py]: [Zobov.sortVoids] *)

Module Zobov.

Local Open Scope string_scope.

Definition vec3 : Type := (R * R * R)%type.
Definition axes : Type := (vec3 * vec3 * vec3)%type.

(** The collaborators of [vast.vsquared.classes], as far as [sortVoids]
    reads them. *)
Record Catalog : Type := mkCatalog { coord : list vec3; nnls : list Z }.
Record Tesselation : Type := mkTesselation { volumes : list R }.
Record Zones : Type := mkZones { zcell : list (list nat); zvols : list R }.
Record Voids : Type :=
  mkVoids { voids : list (list (list nat)); mvols : list R; ovols : list (list R) }.

(** A [Zobov] object.  An attribute that has not been set is [None]:
    [hasattr(self, 'zones')] is [zones self <> None]. *)
Record Zobov : Type := mkZobov {
  catalog : option Catalog;
  tesselation : option Tesselation;
  zones : option Zones;
  prevoids : option Voids;
  minrad : option fl;
  vrads : option (list fl);
  vcens : option (list vec3);
  vaxes : option (list axes);
  zvoid : option (list (Z * Z))
}.

Definition hasattr {A : Type} (attribute : option A) : bool :=
  match attribute with Some _ => true | None => false end.

(** The functions of [vast.vsquared.util] and [scipy.stats] that
    [sortVoids] calls; their code is outside of this development. *)
Class Util : Type := {
  wCen : list R -> list vec3 -> vec3;
  getSMA : fl -> list vec3 -> axes;
  inSphere : vec3 -> fl -> list vec3 -> list bool;
  P : fl -> fl;
  norm_isf : fl -> fl
}.

Inductive error : Type := IndexError | AttributeError.

Inductive res (A : Type) : Type :=
| Ok (a : A)
| Err (e : error).
Arguments Ok {A} a.
Arguments Err {A} e.

Definition bind {A B : Type} (m : res A) (k : A -> res B) : res B :=
  match m with Ok a => k a | Err e => Err e end.

Notation "x <- m ;; k" := (bind m (fun x => k))
  (at level 61, m at next level, right associativity).

Fixpoint mapM {A B : Type} (f : A -> res B) (l : list A) : res (list B) :=
  match l with
  | [] => Ok []
  | x :: l' => y <- f x ;; ys <- mapM f l' ;; Ok (y :: ys)
  end.

Definition getattr {A : Type} (attribute : option A) : res A :=
  match attribute with Some a => Ok a | None => Err AttributeError end.

(** [l[i]] for a non-negative index. *)
Definition index {A : Type} (l : list A) (i : nat) : res A :=
  match nth_error l i with Some x => Ok x | None => Err IndexError end.

(** [l[z]] for a Python integer: a negative index counts from the end. *)
Definition indexZ {A : Type} (l : list A) (z : Z) : res A :=
  if (z <? 0)%Z then
    if (z <? - Z.of_nat (List.length l))%Z then Err IndexError
    else index l (Z.to_nat (Z.of_nat (List.length l) + z))
  else index l (Z.to_nat z).

(** Integer-array indexing [a[idxs]]. *)
Definition take {A : Type} (l : list A) (idxs : list nat) : res (list A) :=
  mapM (index l) idxs.

(** What a call prints. *)
Inductive message : Type :=
| Msg (s : string)
| Removed (minrad : fl).   (* 'Removed voids smaller than', minrad, 'Mpc/h' *)

Inductive outcome : Type :=
| Returned (self : Zobov) (out : list message)
| Raised (e : error).

(** *** Numeric helpers *)

Definition Rsum (l : list R) : R := fold_right Rplus 0 l.

(** [np.mean]; NaN on an empty array. *)
Definition mean (l : list R) : fl :=
  match l with
  | [] => NaN
  | _ :: _ => Fin (Rsum l / INR (List.length l))
  end.

(** The real cube root of a non-negative number. *)
Definition cbrt (x : R) : R := if Reqb x 0 then 0 else Rpower x (/ 3).

(** [a ** (1/3)] *)
Definition pow_third (a : fl) : fl :=
  match a with
  | Fin x => if Rltb x 0 then NaN else Fin (cbrt x)
  | PInf | NInf => PInf
  | NaN => NaN
  end.

Fixpoint insert_sorted (x : fl) (l : list fl) : list fl :=
  match l with
  | [] => [x]
  | y :: l' => if leb x y then x :: l else y :: insert_sorted x l'
  end.

Definition sort (l : list fl) : list fl := fold_right insert_sorted [] l.

(** [np.median]: NaN on an empty array and as soon as an entry is NaN;
    otherwise the middle of the sorted array, or the mean of its two middle
    entries. *)
Definition median (l : list fl) : fl :=
  let n := List.length l in
  if Nat.eqb n 0 || existsb is_nan l then NaN
  else
    let s := sort l in
    if Nat.even n
    then div (add (nth (n / 2 - 1) s NaN) (nth (n / 2) s NaN)) (Fin 2)
    else nth (n / 2) s NaN.

(** [(vvols*3/(4*np.pi))**(1/3)] for one volume. *)
Definition effective_radius (vvol : R) : fl :=
  pow_third (Fin (vvol * 3 / (4 * PI))).

(** *** Selection of the candidates *)

(** Method 0, the inner loop
    [for j in range(len(vl)-1): if j > 0 and vl[j] < minvol: break;
     vbuff.extend(self.prevoids.voids[i][j])],
    on the remaining values [js] of [j]. *)
Fixpoint vide_levels (minvol : fl) (vl : list R) (levels : res (list (list nat)))
    (js : list nat) (vbuff : list nat) : res (list nat) :=
  match js with
  | [] => Ok vbuff
  | j :: js' =>
      if Nat.ltb 0 j && ltb (Fin (nth j vl 0)) minvol then Ok vbuff
      else
        lv <- levels ;;
        q <- index lv j ;;
        vide_levels minvol vl levels js' (vbuff ++ q)
  end.

Definition vide_entry (minvol : fl) (pv : Voids) (i : nat) : res (list nat) :=
  vl <- index (ovols pv) i ;;
  vide_levels minvol vl (index (voids pv) i)
    (seq 0 (List.length vl - 1)) [].

(** [np.mean(volumes[volumes>0])/dc] *)
Definition vide_minvol (vols : list R) (dc : R) : fl :=
  div (mean (filter (fun v => Rgtb v 0) vols)) (Fin dc).

Definition select_vide (minvol : fl) (pv : Voids) : res (list (list nat)) :=
  mapM (vide_entry minvol pv) (seq 0 (List.length (ovols pv))).

(** Method 1: [[c for q in v for c in q] for v in self.prevoids.voids] *)
Definition select_all (pv : Voids) : list (list nat) :=
  map (@concat nat) (voids pv).

(** [vl[-1]] *)
Definition last_entry (vl : list R) : res R := indexZ vl (-1).

(** Method 2, one entry: [Some] cells when the entry is kept. *)
Definition significant_entry `{U : Util} (minsig : R) (pv : Voids) (i : nat)
  : res (option (list nat)) :=
  vh <- index (mvols pv) i ;;
  ov <- index (ovols pv) i ;;
  vl <- last_entry ov ;;
  let r := div (Fin vh) (Fin vl) in
  let p := P r in
  if geb (norm_isf (div p (Fin 2))) (Fin minsig) then
    v <- index (voids pv) i ;;
    Ok (Some (concat v))
  else Ok None.

Fixpoint keep_some {A : Type} (l : list (option A)) : list A :=
  match l with
  | [] => []
  | Some x :: l' => x :: keep_some l'
  | None :: l' => keep_some l'
  end.

Definition select_significant `{U : Util} (minsig : R) (pv : Voids)
  : res (list (list nat)) :=
  entries <- mapM (significant_entry minsig pv) (seq 0 (List.length (mvols pv))) ;;
  Ok (keep_some entries).

(** Method 4:
    [np.arange(len(zvols)).reshape(len(zvols),1).tolist()] *)
Definition select_zones (zn : Zones) : list (list nat) :=
  map (fun z => [z]) (seq 0 (List.length (zvols zn))).

(** *** After the selection *)

(** [list(flatten(self.zones.zcell[v]))] *)
Definition flatten_cells (zc : list (list nat)) (v : list nat) : res (list nat) :=
  cells <- take zc v ;; Ok (concat cells).

(** The galaxies that are their own representative:
    [np.arange(len(coord))[nnls==np.arange(len(nnls))]] *)
Definition canonical (c : Catalog) : list nat :=
  mask (map (fun '(g, k) => Z.eqb g (Z.of_nat k))
            (combine (nnls c) (seq 0 (List.length (nnls c)))))
       (seq 0 (List.length (coord c))).

(** [gcut]; a boolean mask of another length than the indexed array is an
    [IndexError]. *)
Definition gcut (c : Catalog) : res (list nat) :=
  if Nat.eqb (List.length (nnls c)) (List.length (coord c)) then Ok (canonical c)
  else Err IndexError.

(** [np.sum(self.tesselation.volumes[vcut])] *)
Definition void_volume (vols : list R) (vcut : list nat) : res R :=
  vs <- take vols vcut ;; Ok (Rsum vs).

(** [wCen(self.tesselation.volumes[vcut],cutco[vcut])] *)
Definition void_center `{U : Util} (vols : list R) (cutco : list vec3)
    (vcut : list nat) : res vec3 :=
  vs <- take vols vcut ;;
  cs <- take cutco vcut ;;
  Ok (wCen vs cs).

(** One entry of the array compared with [1./minvol] in method 0:
    [64.*len(cutco[inSphere(vcens[i],vrads[i]/4.,cutco)])/vvols[i]] *)
Definition local_density `{U : Util} (cutco : list vec3) (vcen : vec3)
    (vrad : fl) (vvol : R) : fl :=
  div (Fin (64 * INR (List.length (mask (inSphere vcen (div vrad (Fin 4)) cutco) cutco))))
      (Fin vvol).

(** [getSMA(vrads[i],cutco[vcuts[i]])] *)
Definition void_axes `{U : Util} (cutco : list vec3) (vcuts : list (list nat))
    (vrads : list fl) (i : nat) : res axes :=
  r <- index vrads i ;;
  vcut <- index vcuts i ;;
  cs <- take cutco vcut ;;
  Ok (getSMA r cs).

(** *** The zone-void map *)

Fixpoint foldM {A B : Type} (f : A -> B -> res A) (l : list B) (a : A) : res A :=
  match l with
  | [] => Ok a
  | x :: l' => a' <- f a x ;; foldM f l' a'
  end.

(** The body of [for j in voids[i]].  The test [zvoid[j][0] > -0.5] on an
    integer is [0 <= zvoid[j][0]]. *)
Definition zvoid_zone (vds : list (list nat)) (i : nat) (zv : list (Z * Z))
    (j : nat) : res (list (Z * Z)) :=
  pr <- index zv j ;;
  let '(p, s) := pr in
  if (0 <=? p)%Z then
    vi <- index vds i ;;
    vp <- indexZ vds p ;;
    if Nat.ltb (List.length vi) (List.length vp) then
      Ok (set_at j (Z.of_nat i, s) zv)
    else
      vs <- indexZ vds s ;;
      if Nat.ltb (List.length vs) (List.length vi) then
        Ok (set_at j (p, Z.of_nat i) zv)
      else Ok zv
  else Ok (set_at j (Z.of_nat i, Z.of_nat i) zv).

(** The body of [for i in range(len(voids))]. *)
Definition zvoid_void (vds : list (list nat)) (zv : list (Z * Z)) (i : nat)
  : res (list (Z * Z)) :=
  vi <- index vds i ;;
  foldM (zvoid_zone vds i) vi zv.

(** [zvoid = [[-1,-1] for _ in range(len(self.zones.zvols))]] and the loop
    over the candidates. *)
Definition build_zvoid (nzones : nat) (vds : list (list nat)) : res (list (Z * Z)) :=
  foldM (zvoid_void vds) (seq 0 (List.length vds))
        (repeat ((-1)%Z, (-1)%Z) nzones).

(** *** [sortVoids] *)

(** The block [if method==0:] after the centres are found: the arrays
    [vrads], [vcens] and [voids] after it ([vcuts] is left as it is). *)
Definition density_recheck `{U : Util} (method : Z) (dc : R) (minvol : fl)
    (cutco : list vec3) (vrads1 : list fl) (vcens1 : list vec3)
    (vvols1 : list R) (vds1 : list (list nat))
  : list fl * list vec3 * list (list nat) :=
  if (method =? 0)%Z then
    let dcut :=
      map (fun '(c, r, v) => ltb (local_density cutco c r v) (div (Fin 1) minvol))
          (combine (combine vcens1 vrads1) vvols1) in
    let vrads' := mask dcut vrads1 in
    let rcut' := map (fun r => gtb r (pow_third (mul minvol (Fin dc)))) vrads' in
    (mask rcut' vrads', mask rcut' (mask dcut vcens1), mask rcut' (mask dcut vds1))
  else (vrads1, vcens1, vds1).

(** The part of [sortVoids] after the selection of the candidates [vds].
    [minvol] is a variable of method 0 only; it is read only there. *)
Definition finish `{U : Util} (self : Zobov) (method : Z) (dc : R) (minvol : fl)
    (vds : list (list nat)) : res (Zobov * list message) :=
  zn <- getattr (zones self) ;;
  vcuts <- mapM (flatten_cells (zcell zn)) vds ;;
  ct <- getattr (catalog self) ;;
  g <- gcut ct ;;
  cutco <- take (coord ct) g ;;
  ts <- getattr (tesselation self) ;;
  vvols <- mapM (void_volume (volumes ts)) vcuts ;;
  let vrads0 := map effective_radius vvols in
  let self_minrad :=
    if (method =? 4)%Z then Some (median vrads0) else minrad self in
  mr <- getattr self_minrad ;;
  let rcut := map (fun r => gtb r mr) vrads0 in
  let vds1 := mask rcut vds in
  let vcuts1 := mask rcut vcuts in
  let vvols1 := mask rcut vvols in
  let vrads1 := mask rcut vrads0 in
  vcens1 <- mapM (void_center (volumes ts) cutco) vcuts1 ;;
  let kept := density_recheck method dc minvol cutco vrads1 vcens1 vvols1 vds1 in
  let vrads2 := fst (fst kept) in
  let vcens2 := snd (fst kept) in
  let vds2 := snd kept in
  vaxes2 <- mapM (void_axes cutco vcuts1 vrads2) (seq 0 (List.length vrads2)) ;;
  zv <- build_zvoid (List.length (zvols zn)) vds2 ;;
  Ok (mkZobov (catalog self) (tesselation self) (zones self) (prevoids self)
        self_minrad (Some vrads2) (Some vcens2) (Some vaxes2) (Some zv),
      [Msg "Selecting void candidates..."; Msg "Void candidates selected...";
       Msg "Effective void radius calculated"; Removed mr;
       Msg "Finding void centers..."; Msg "Calculating ellipsoid axes..."]).

(** The candidates of a method, with the [minvol] of method 0. *)
Definition candidates `{U : Util} (self : Zobov) (method : Z) (minsig dc : R)
  : res (fl * list (list nat)) :=
  if (method =? 0)%Z then
    ts <- getattr (tesselation self) ;;
    let minvol := vide_minvol (volumes ts) dc in
    pv <- getattr (prevoids self) ;;
    vds <- select_vide minvol pv ;;
    Ok (minvol, vds)
  else if (method =? 1)%Z then
    pv <- getattr (prevoids self) ;;
    Ok (NaN, select_all pv)
  else if (method =? 2)%Z then
    pv <- getattr (prevoids self) ;;
    vds <- select_significant minsig pv ;;
    Ok (NaN, vds)
  else
    zn <- getattr (zones self) ;;
    Ok (NaN, select_zones zn).

Definition run_all_stages : list message := [Msg "Run all stages of Zobov first"].

(** [Zobov.sortVoids(self, method, minsig, dc)] *)
Definition sortVoids `{U : Util} (self : Zobov) (method : Z) (minsig dc : R) : outcome :=
  if negb (hasattr (prevoids self)) && negb (method =? 4)%Z then
    Returned self run_all_stages
  else if negb (hasattr (prevoids self)) && negb (hasattr (zones self)) then
    Returned self run_all_stages
  else if (method =? 3)%Z then
    Returned self [Msg "Selecting void candidates..."; Msg "Method 3 coming soon"]
  else if negb ((method =? 0) || (method =? 1) || (method =? 2) || (method =? 4))%Z then
    Returned self [Msg "Selecting void candidates..."; Msg "Choose a valid method"]
  else
    match (c <- candidates self method minsig dc ;;
           finish self method dc (fst c) (snd c)) with
    | Ok (self', out) => Returned self' out
    | Err e => Raised e
    end.

End Zobov.

(** ** Objects and inputs the statements below speak about *)

Module Shapes.

Import Zobov.

(** The attributes [Zobov.__init__] leaves on the object when the stage
    range is valid and the run ends at stage [last] ([end] in the code):
    [self.catalog] always, [self.tesselation] if [end>0], [self.zones] if
    [end>1], [self.prevoids] if [end>2]; [self.minrad] is read from the
    configuration. *)
Definition initialised (last : Z) (radius_min : fl)
    (ct : Catalog) (ts : Tesselation) (zn : Zones) (pv : Voids) : Zobov :=
  mkZobov (Some ct)
    (if (0 <? last)%Z then Some ts else None)
    (if (1 <? last)%Z then Some zn else None)
    (if (2 <? last)%Z then Some pv else None)
    (Some radius_min) None None None None.

(** The indices of the collaborators are in range: [nnls] has an entry per
    galaxy, every zone has its cells, and a cell is a galaxy that has a
    volume and is its own representative. *)
Record stages_ok (ct : Catalog) (ts : Tesselation) (zn : Zones) : Prop := {
  nnls_coord : List.length (nnls ct) = List.length (coord ct);
  zvols_zcell : (List.length (zvols zn) <= List.length (zcell zn))%nat;
  cells_ok : forall z cells c,
    (z < List.length (zvols zn))%nat ->
    nth_error (zcell zn) z = Some cells -> In c cells ->
    (c < List.length (volumes ts))%nat /\ (c < List.length (canonical ct))%nat
}.

(** The effective radii of the candidates of method 4 (every zone), before
    any of them is removed. *)
Definition zone_radii (zn : Zones) (ts : Tesselation) : res (list fl) :=
  bind (mapM (flatten_cells (zcell zn)) (select_zones zn)) (fun vcuts =>
  bind (mapM (void_volume (volumes ts)) vcuts) (fun vvols =>
  Ok (map effective_radius vvols))).



(** The sizes of the candidates a zone-void entry points to. *)
Definition candidate_size (vds : list (list nat)) (k : Z) : option nat :=
  if (k <? 0)%Z then None
  else option_map (@List.length nat) (nth_error vds (Z.to_nat k)).

(** The order the zone-void map keeps: an entry is unassigned, or its
    primary candidate is not larger than its secondary one. *)
Definition zvoid_ordered (vds : list (list nat)) (pr : Z * Z) : Prop :=
  pr = ((-1)%Z, (-1)%Z) \/
  exists np ns,
    candidate_size vds (fst pr) = Some np /\
    candidate_size vds (snd pr) = Some ns /\ (np <= ns)%nat.

(** Invariant of the loop that builds the zone-void map of [nz] zones. *)
Definition zvoid_inv (vds : list (list nat)) (nz : nat) (zv : list (Z * Z)) : Prop :=
  List.length zv = nz /\
  forall k pr, nth_error zv k = Some pr -> zvoid_ordered vds pr.

(** A hierarchy of one entry with three levels, linked at volume 9. *)
Definition one_entry : Voids :=
  mkVoids [[[0%nat]; [1%nat]; [2%nat]]] [7] [[5; 3; 1; 9]].

(** Collaborators for the concrete runs below.  The candidates, their
    radii and the zone-void map of methods 1 and 4 do not depend on them. *)
Definition plain_util : Util := {|
  wCen := fun _ _ => (0, 0, 0);
  getSMA := fun _ _ => ((1, 0, 0), (0, 1, 0), (0, 0, 1));
  inSphere := fun _ _ cutco => map (fun _ => false) cutco;
  P := fun r => r;
  norm_isf := fun p => p
|}.

(** A survey of one galaxy, one cell of volume 1 and one zone. *)
Definition one_galaxy : Catalog := mkCatalog [(0, 0, 0)] [0%Z].
Definition one_cell : Tesselation := mkTesselation [1].
Definition one_zone : Zones := mkZones [[0%nat]] [1].

(** The object after [Zobov(configfile, start=0, end=2)] on that survey,
    with [radius_min = 0]: no [prevoids]. *)
Definition zones_only : Zobov :=
  initialised 2 (Fin 0) one_galaxy one_cell one_zone one_entry.

(** The object after [Zobov(configfile)] on that survey, with the default
    stages [start=0], [end=3] and [radius_min = 0]. *)
Definition all_stages : Zobov :=
  initialised 3 (Fin 0) one_galaxy one_cell one_zone one_entry.

(** The volume of a ball of radius [r]. *)
Definition ball (r : R) : R := 4 / 3 * PI * r ^ 3.

(** A survey of four galaxies, each a cell and a zone of its own; the
    cells have the volumes of the balls of radius 1, 2, 3 and 4, so that
    these are the effective radii of the zones. *)
Definition four_galaxies : Catalog :=
  mkCatalog [(0, 0, 0); (1, 0, 0); (2, 0, 0); (3, 0, 0)] [0%Z; 1%Z; 2%Z; 3%Z].
Definition four_cells : Tesselation :=
  mkTesselation [ball 1; ball 2; ball 3; ball 4].
Definition four_zones : Zones :=
  mkZones [[0%nat]; [1%nat]; [2%nat]; [3%nat]] [ball 1; ball 2; ball 3; ball 4].

(** The object after [Zobov(configfile, start=0, end=2)] on the survey of
    four galaxies. *)
Definition four_zones_only : Zobov :=
  initialised 2 (Fin 0) four_galaxies four_cells four_zones one_entry.

End Shapes.

Module HoleShapes.

Import HoleCombine.

(** The table is sorted by radius, largest first. *)
Definition descending (t : list sphere) : Prop :=
  forall i j, (i <= j < List.length t)%nat -> rad t j <= rad t i.

(** The value of the code's formula for the overlap of two spheres at a
    positive distance, as a real number: the sum of the two caps of
    [cap_height] and [spherical_cap_volume].  It is the volume the two
    spheres share when they intersect and neither lies strictly inside the
    other ([|ri - rm| <= d <= ri + rm]): the two caps then make up a lens.
    When one sphere lies strictly inside the other, one cap height is
    negative and the other above the diameter, and the value is not the
    volume the spheres share. *)
Definition cap_real (r h : R) : R := PI * (h * h) * (3 * r + - h) / 3.
Definition height_real (Rad r d : R) : R := (r - Rad + d) * (r + Rad - d) / (2 * d).
Definition overlap_real (ri rm d : R) : R :=
  cap_real ri (height_real ri rm d) + cap_real rm (height_real rm ri d).

(** The tests of sphere [i] against one maximal sphere [m]: [i] is
    strictly inside [m]; [i] and [m] intersect; the value of the code's
    formula for their overlap, the array entry [overlap_volume]. *)
Definition inside (t : list sphere) (m i : nat) : bool :=
  Rgtb (rad t m - rad t i) (separation (row t m) (row t i)).

Definition touches (t : list sphere) (m i : nat) : bool :=
  Rleb (separation (row t m) (row t i)) (rad t i + rad t m).

Definition overlap (t : list sphere) (m i : nat) : fl :=
  overlap_volume (rad t i) (rad t m) (separation (row t m) (row t i)).

(** The test of the code on sphere [i] and the maximal sphere [m]: they
    intersect and the value of the code's formula exceeds 50% of the
    volume of [i].  This is the test on the volume they share unless one
    of the two lies strictly inside the other; phase 2 leaves out the
    spheres strictly inside [m], not the spheres that [m] lies strictly
    inside. *)
Definition absorbs (t : list sphere) (m i : nat) : bool :=
  touches t m i && gtb (overlap t m i) (Fin (0.5 * volume (rad t i))).

(** Sphere [i] is neither maximal nor strictly inside a maximal sphere, and
    the maximal sphere at position [k] of the list [l], and no other,
    absorbs it. *)
Definition hole_of (t : list sphere) (l : list nat) (i k : nat) : Prop :=
  ~ In i l /\ inside_any t l i = false /\
  (exists m, nth_error l k = Some m /\ absorbs t m i = true) /\
  (forall k' m', nth_error l k' = Some m' -> absorbs t m' i = true -> k' = k).

(** The volume that two spheres of radii [ri] and [rm] share, their centres
    at distance [d]: nothing when they are apart or touch from outside, the
    smaller sphere when one lies inside the other, and the lens of the two
    caps otherwise. *)
Definition shared_volume (ri rm d : R) : R :=
  if Rleb (ri + rm) d then 0
  else if Rleb d (Rabs (ri - rm)) then volume (Rmin ri rm)
  else overlap_real ri rm d.

(** Invariant of the loop of phase 1: the counter is the length of the
    index list, whose entries are distinct and below the loop variable. *)
Definition selection_ok (bound : nat) (st : selection) : Prop :=
  N_voids st = List.length (maximal_spheres_indices st) /\
  NoDup (maximal_spheres_indices st) /\
  forall m, In m (maximal_spheres_indices st) -> (m < bound)%nat.

(** The indices of the maximal spheres of a table, in selection order: the
    rows of the first table [combine_holes] returns. *)
Definition maximal (t : list sphere) (frac : R) : list nat :=
  maximal_spheres_indices (select_maximal t frac).

(** One sphere, of radius 5: below the seed threshold. *)
Definition small_sphere : sphere := mkSphere 0 0 0 5.

(** Two copies of one sphere of radius 11. *)
Definition seed : sphere := mkSphere 0 0 0 11.
Definition twins : list sphere := [seed; seed].

(** Three spheres on a line: [outer] lies inside [middle], which overlaps
    [big] too much to be maximal. *)
Definition big : sphere := mkSphere 0 0 0 20.
Definition middle : sphere := mkSphere 25 0 0 15.
Definition outer : sphere := mkSphere 28 0 0 11.
Definition nested : list sphere := [big; middle; outer].

(** A sphere of radius 11 strictly inside [big]. *)
Definition inner : sphere := mkSphere 1 0 0 11.
Definition contained : list sphere := [big; inner].

(** A sphere that shares most of its volume with [big], without being
    inside it. *)
Definition near : sphere := mkSphere 10 0 0 15.
Definition absorbed : list sphere := [big; near].

(** Three spheres on a line, sorted by radius: the second overlaps the
    first too much to be maximal, and the third, which is maximal, lies
    strictly inside the second. *)
Definition engulfing : list sphere :=
  [mkSphere 0 0 0 30; mkSphere 42 0 0 30; mkSphere 43 0 0 26].

(** Three spheres of radius 11 that touch each other. *)
Definition touching : list sphere :=
  [mkSphere 0 0 0 11; mkSphere 22 0 0 11; mkSphere 11 (11 * sqrt 3) 0 11].

End HoleShapes.

(** ** The tests of phase 1 of [combine_holes], sphere by sphere *)

Module HoleTests.

Import HoleCombine HoleShapes.



End HoleTests.

(** ** The zone-void map of [sortVoids], zone by zone *)

Module VoidTests.

Import Zobov.

(** Candidate [i] of the list [vds] holds zone [j]. *)
Definition contains (vds : list (list nat)) (j i : nat) : Prop :=
  exists v, nth_error vds i = Some v /\ In j v.

(** [len(voids[i])] *)
Definition size (vds : list (list nat)) (i : nat) : nat :=
  List.length (nth i vds []).

(** [k] is the smallest of the candidates [among], the first one of those
    of its size. *)
Definition first_smallest (vds : list (list nat)) (among : nat -> Prop) (k : nat)
  : Prop :=
  among k /\
  forall i, among i ->
    (size vds k < size vds i)%nat \/ (size vds k = size vds i /\ (k <= i)%nat).

(** [k] is the largest of the candidates [among], the first one of those
    of its size. *)
Definition first_largest (vds : list (list nat)) (among : nat -> Prop) (k : nat)
  : Prop :=
  among k /\
  forall i, among i ->
    (size vds i < size vds k)%nat \/ (size vds i = size vds k /\ (k <= i)%nat).

(** An entry of the zone-void map for the candidates [among]: unassigned
    when there is none, the smallest and the largest of them otherwise. *)
Definition zvoid_extremes (vds : list (list nat)) (among : nat -> Prop)
    (pr : Z * Z) : Prop :=
  ((forall i, ~ among i) /\ pr = ((-1)%Z, (-1)%Z)) \/
  exists p s, pr = (Z.of_nat p, Z.of_nat s) /\
              first_smallest vds among p /\ first_largest vds among s.

(** The call went past the cut on the radius: it printed
    ['Removed voids smaller than', self.minrad, 'Mpc/h']. *)
Definition completed (out : list message) : Prop :=
  exists mr, In (Removed mr) out.

End VoidTests.

(** ** [vast/vsquared/zobov.py]: [Zobov.__init__] and [Zobov.saveVoids]

    The constructor runs the stages of the pipeline, or loads them from the
    checkpoints of an earlier run, and [saveVoids] writes the result of
    [sortVoids] to two tables.  What is outside of the process is kept in
    a [World]: the pickled checkpoints, the tables written, and what was
    printed.

    Outside of this model: the parsing of the configuration file (the
    model starts from the parsed values; a missing key or a malformed
    number raises in [__init__] before any stage runs), and errors of the
    operating system other than a missing checkpoint file and a missing
    directory for the checkpoints.  The output directory [outdir] of the
    configuration is taken to exist: writing a table does not fail. *)

Module ZobovIO.

Import Zobov.

Local Open Scope string_scope.
Local Open Scope list_scope.

(** The attributes [__init__] copies from the configuration file. *)
Record Settings : Type := mkSettings {
  infile : string;          (* config['Paths']['Input Catalog'] *)
  catname : string;         (* config['Paths']['Survey Name'] *)
  outdir : string;          (* config['Paths']['Output Directory'] *)
  H_0 : R;                  (* float(config['Cosmology']['H_0']) *)
  Om_m : R;
  zmin : R;
  zmax : R;
  radius_min : fl;          (* float(config['Settings']['radius_min']) *)
  zstep : R;
  nside : Z;
  maglim : option R;        (* None if 'None' else float(...) *)
  cmin : vec3;
  cmax : vec3;
  buff : R
}.

(** [self.intloc = "../intermediate/" + self.catname] *)
Definition intloc (cfg : Settings) : string := "../intermediate/" ++ catname cfg.

(** The constructors of [vast.vsquared.classes]; their code is outside of
    this development.  The arguments are those of the calls in
    [__init__], in their order. *)
Class Classes : Type := {
  Catalog_init :
    string -> Z -> R -> R -> option R -> R -> R -> bool -> vec3 -> vec3 -> Catalog;
  Tesselation_init : Catalog -> bool -> bool -> R -> Tesselation;
  Zones_init : Tesselation -> bool -> Zones;
  Voids_init : Zones -> Voids
}.

(** A [Zobov] object with the attributes that [sortVoids] does not read:
    an attribute that has not been set is [None]. *)
Record Session : Type := mkSession {
  core : Zobov;
  visualize : option bool;
  periodic : option bool;
  settings : option Settings
}.

(** The object on which [__init__] returned at once. *)
Definition bare : Session :=
  mkSession (mkZobov None None None None None None None None None) None None None.

(** A column of an [astropy] table, and a table. *)
Inductive column : Type :=
| RealCol (l : list R)
| FloatCol (l : list fl)
| IntCol (l : list Z).

Definition col_length (c : column) : nat :=
  match c with
  | RealCol l => List.length l
  | FloatCol l => List.length l
  | IntCol l => List.length l
  end.

Record Table : Type := mkTable { colnames : list string; columns : list column }.

(** What is outside of the process.  A checkpoint file, when it is there,
    holds an object of the class that [__init__] dumps to it; a table
    file holds the table that was written to it.  [dirs w prefix] says
    that the directory of the paths [prefix + suffix] is there, for a
    suffix without a separator: the checkpoints of a survey are
    ["../intermediate/" + catname + suffix], and nothing in the code makes
    the directory ["../intermediate/"]. *)
Record World : Type := mkWorld {
  dirs : string -> bool;
  ctlg_pkl : string -> option Catalog;
  tess_pkl : string -> option Tesselation;
  zones_pkl : string -> option Zones;
  voids_pkl : string -> option Voids;
  files : string -> option Table;
  stdout : list string
}.

Inductive exn : Type :=
| Core (e : error)          (* IndexError, AttributeError *)
| FileNotFoundError
| NameError
| ValueError
| ToSkyError                (* whatever [toSky] raises *)
| ShapeMismatch.            (* arrays of two lengths compared, see [saveZones] *)

(** A computation that reads and changes the world and returns or
    raises. *)
Definition io (A : Type) : Type := World -> (A + exn) * World.

Definition ret {A : Type} (a : A) : io A := fun w => (inl a, w).

Definition raise {A : Type} (e : exn) : io A := fun w => (inr e, w).

Definition bind_io {A B : Type} (m : io A) (k : A -> io B) : io B :=
  fun w =>
    match m w with
    | (inl a, w') => k a w'
    | (inr e, w') => (inr e, w')
    end.

Notation "x <-- m ;; k" := (bind_io m (fun x => k))
  (at level 61, m at next level, right associativity).

Definition print (s : string) : io unit :=
  fun w => (inl tt, mkWorld (dirs w) (ctlg_pkl w) (tess_pkl w) (zones_pkl w)
                      (voids_pkl w) (files w) (stdout w ++ [s])).

Definition update {A : Type} (m : string -> option A) (path : string) (a : A)
  : string -> option A :=
  fun p => if String.eqb p path then Some a else m p.

(** [pickle.load(open(path,'rb'))] *)
Definition load {A : Type} (pkl : World -> string -> option A) (path : string)
  : io A :=
  fun w =>
    match pkl w path with
    | Some a => (inl a, w)
    | None => (inr FileNotFoundError, w)
    end.

(** [pickle.dump(obj,open(prefix+suffix,'wb'))]: [open] raises a
    [FileNotFoundError] when the directory of the path is not there, and
    nothing is written. *)
Definition dump_ctlg (prefix suffix : string) (c : Catalog) : io unit :=
  fun w =>
    if dirs w prefix then
      (inl tt, mkWorld (dirs w) (update (ctlg_pkl w) (prefix ++ suffix) c)
                 (tess_pkl w) (zones_pkl w) (voids_pkl w) (files w) (stdout w))
    else (inr FileNotFoundError, w).

Definition dump_tess (prefix suffix : string) (t : Tesselation) : io unit :=
  fun w =>
    if dirs w prefix then
      (inl tt, mkWorld (dirs w) (ctlg_pkl w) (update (tess_pkl w) (prefix ++ suffix) t)
                 (zones_pkl w) (voids_pkl w) (files w) (stdout w))
    else (inr FileNotFoundError, w).

Definition dump_zones (prefix suffix : string) (z : Zones) : io unit :=
  fun w =>
    if dirs w prefix then
      (inl tt, mkWorld (dirs w) (ctlg_pkl w) (tess_pkl w)
                 (update (zones_pkl w) (prefix ++ suffix) z) (voids_pkl w)
                 (files w) (stdout w))
    else (inr FileNotFoundError, w).

Definition dump_voids (prefix suffix : string) (v : Voids) : io unit :=
  fun w =>
    if dirs w prefix then
      (inl tt, mkWorld (dirs w) (ctlg_pkl w) (tess_pkl w) (zones_pkl w)
                 (update (voids_pkl w) (prefix ++ suffix) v) (files w) (stdout w))
    else (inr FileNotFoundError, w).

(** [table.write(path, format='ascii.commented_header', overwrite=True)] *)
Definition write (path : string) (t : Table) : io unit :=
  fun w => (inl tt, mkWorld (dirs w) (ctlg_pkl w) (tess_pkl w) (zones_pkl w)
                      (voids_pkl w) (update (files w) path t) (stdout w)).

Definition when (b : bool) (m : io unit) : io unit := if b then m else ret tt.

(** *** [__init__] *)

(** The local variables [ctlg], [tess], [zones] and [voids]; reading one
    that has not been assigned is a [NameError]. *)
Record locals : Type := mkLocals {
  ctlg : option Catalog;
  tess : option Tesselation;
  zones_ : option Zones;
  voids_ : option Voids
}.

Definition var {A : Type} (x : option A) : io A :=
  match x with Some a => ret a | None => raise NameError end.

(** [start not in [0,1,2,3,4] or end not in [0,1,2,3,4] or end<start],
    negated. *)
Definition valid_stages (start end_ : Z) : bool :=
  (existsb (Z.eqb start) [0; 1; 2; 3; 4] && existsb (Z.eqb end_) [0; 1; 2; 3; 4]
   && negb (end_ <? start))%Z.

Section Init.

Context `{C : Classes}.

Variable cfg : Settings.
Variables start end_ : Z.
Variables save_intermediate visualize_ periodic_ : bool.

(** [self.visualize]: [False] if [visualize*periodic], else [visualize]. *)
Definition self_visualize : bool := if visualize_ && periodic_ then false else visualize_.

(** The block [if start<2: ... else: ...]. *)
Definition stage_tesselation : io locals :=
  if (start <? 2)%Z then
    l <-- (if (start <? 1)%Z then
             let c := Catalog_init (infile cfg) (nside cfg) (zmin cfg) (zmax cfg)
                        (maglim cfg) (H_0 cfg) (Om_m cfg) periodic_ (cmin cfg)
                        (cmax cfg) in
             _ <-- when save_intermediate (dump_ctlg (intloc cfg) "_ctlg.pkl" c) ;;
             ret (mkLocals (Some c) None None None)
           else
             c <-- load ctlg_pkl (intloc cfg ++ "_ctlg.pkl") ;;
             ret (mkLocals (Some c) None None None)) ;;
    if (0 <? end_)%Z then
      c <-- var (ctlg l) ;;
      let t := Tesselation_init c self_visualize periodic_ (buff cfg) in
      _ <-- when save_intermediate (dump_tess (intloc cfg) "_tess.pkl" t) ;;
      ret (mkLocals (ctlg l) (Some t) (zones_ l) (voids_ l))
    else ret l
  else
    c <-- load ctlg_pkl (intloc cfg ++ "_ctlg.pkl") ;;
    t <-- load tess_pkl (intloc cfg ++ "_tess.pkl") ;;
    ret (mkLocals (Some c) (Some t) None None).

(** The block [if start<3: ... else: ...]; [Zones] is given the argument
    [visualize], not [self.visualize]. *)
Definition stage_zones : io locals :=
  if (start <? 3)%Z then
    l <-- stage_tesselation ;;
    if (1 <? end_)%Z then
      t <-- var (tess l) ;;
      let z := Zones_init t visualize_ in
      _ <-- when save_intermediate (dump_zones (intloc cfg) "_zones.pkl" z) ;;
      ret (mkLocals (ctlg l) (tess l) (Some z) (voids_ l))
    else ret l
  else
    c <-- load ctlg_pkl (intloc cfg ++ "_ctlg.pkl") ;;
    t <-- load tess_pkl (intloc cfg ++ "_tess.pkl") ;;
    z <-- load zones_pkl (intloc cfg ++ "_zones.pkl") ;;
    ret (mkLocals (Some c) (Some t) (Some z) None).

(** The block [if start<4: ... else: ...]. *)
Definition stage_voids : io locals :=
  if (start <? 4)%Z then
    l <-- stage_zones ;;
    if (2 <? end_)%Z then
      z <-- var (zones_ l) ;;
      let v := Voids_init z in
      _ <-- when save_intermediate (dump_voids (intloc cfg) "_voids.pkl" v) ;;
      ret (mkLocals (ctlg l) (tess l) (zones_ l) (Some v))
    else ret l
  else
    c <-- load ctlg_pkl (intloc cfg ++ "_ctlg.pkl") ;;
    t <-- load tess_pkl (intloc cfg ++ "_tess.pkl") ;;
    z <-- load zones_pkl (intloc cfg ++ "_zones.pkl") ;;
    v <-- load voids_pkl (intloc cfg ++ "_voids.pkl") ;;
    ret (mkLocals (Some c) (Some t) (Some z) (Some v)).

(** [if end>k: self.attribute = variable] *)
Definition assign_if {A : Type} (b : bool) (x : option A) : io (option A) :=
  if b then (a <-- var x ;; ret (Some a)) else ret None.

(** [Zobov(configfile, start, end, save_intermediate, visualize, periodic)]:
    the object, unless the call raises. *)
Definition init : io Session :=
  if negb (valid_stages start end_) then
    _ <-- print "Choose valid stages" ;;
    ret bare
  else
    _ <-- when (visualize_ && periodic_)
            (print "Visualization not implemented for periodic boundary conditions: changing to false") ;;
    l <-- stage_voids ;;
    c <-- var (ctlg l) ;;
    t <-- assign_if (0 <? end_)%Z (tess l) ;;
    z <-- assign_if (1 <? end_)%Z (zones_ l) ;;
    v <-- assign_if (2 <? end_)%Z (voids_ l) ;;
    ret (mkSession
           (mkZobov (Some c) t z v (Some (radius_min cfg)) None None None None)
           (Some self_visualize) (Some periodic_) (Some cfg)).

End Init.

(** The objects of the four stages of a run from stage [start]: what the
    constructors make of the stage before, or the objects [c0], [t0], [z0]
    and [v0] of the checkpoints for the stages before [start]. *)
Section Stages.

Context `{C : Classes}.

Variable cfg : Settings.
Variable start : Z.
Variables visualize_ periodic_ : bool.
Variable c0 : Catalog.
Variable t0 : Tesselation.
Variable z0 : Zones.
Variable v0 : Voids.

Definition run_catalog : Catalog :=
  if (start <? 1)%Z then
    Catalog_init (infile cfg) (nside cfg) (zmin cfg) (zmax cfg) (maglim cfg)
      (H_0 cfg) (Om_m cfg) periodic_ (cmin cfg) (cmax cfg)
  else c0.

Definition run_tesselation : Tesselation :=
  if (start <? 2)%Z then
    Tesselation_init run_catalog (self_visualize visualize_ periodic_) periodic_
      (buff cfg)
  else t0.

Definition run_zones : Zones :=
  if (start <? 3)%Z then Zones_init run_tesselation visualize_ else z0.

Definition run_voids : Voids :=
  if (start <? 4)%Z then Voids_init run_zones else v0.

End Stages.

(** The checkpoints a run from stage [start] reads: one for each stage
    before [start]. *)
Definition checkpoints (cfg : Settings) (start : Z) (w : World)
    (c0 : Catalog) (t0 : Tesselation) (z0 : Zones) (v0 : Voids) : Prop :=
  ((1 <= start)%Z -> ctlg_pkl w (intloc cfg ++ "_ctlg.pkl") = Some c0) /\
  ((2 <= start)%Z -> tess_pkl w (intloc cfg ++ "_tess.pkl") = Some t0) /\
  ((3 <= start)%Z -> zones_pkl w (intloc cfg ++ "_zones.pkl") = Some z0) /\
  ((4 <= start)%Z -> voids_pkl w (intloc cfg ++ "_voids.pkl") = Some v0).

(** One of the checkpoints a run from stage [start] reads is not there. *)
Definition checkpoint_missing (cfg : Settings) (start : Z) (w : World) : Prop :=
  ((1 <= start)%Z /\ ctlg_pkl w (intloc cfg ++ "_ctlg.pkl") = None) \/
  ((2 <= start)%Z /\ tess_pkl w (intloc cfg ++ "_tess.pkl") = None) \/
  ((3 <= start)%Z /\ zones_pkl w (intloc cfg ++ "_zones.pkl") = None) \/
  ((4 <= start)%Z /\ voids_pkl w (intloc cfg ++ "_voids.pkl") = None).

(** The call is to write a checkpoint, and the directory of the
    checkpoints is not there.  With a valid range of stages a call makes,
    and with [save_intermediate] writes, the stage [start] at least,
    unless [start] is 4. *)
Definition directory_missing (cfg : Settings) (start : Z) (save : bool)
    (w : World) : Prop :=
  save = true /\ (start < 4)%Z /\ dirs w (intloc cfg) = false.

(** Two worlds with the same checkpoints and the same tables. *)
Definition same_files (w w' : World) : Prop :=
  ctlg_pkl w' = ctlg_pkl w /\ tess_pkl w' = tess_pkl w /\
  zones_pkl w' = zones_pkl w /\ voids_pkl w' = voids_pkl w /\
  files w' = files w.

(** *** [saveVoids] *)

(** [toSky] of [vast.vsquared.util]: redshift, right ascension and
    declination of the centres, unless it raises. *)
Class Sky : Type := {
  toSky : list vec3 -> R -> R -> R -> option (list R * list R * list R)
}.

Definition attr {A : Type} (x : option A) : io A :=
  match x with Some a => ret a | None => raise (Core AttributeError) end.

(** [Table(data, names=names)]: the columns must have one length. *)
Definition Table_init (data : list column) (names : list string) : io Table :=
  match data with
  | [] => ret (mkTable names data)
  | c :: _ =>
      if forallb (fun c' => Nat.eqb (col_length c') (col_length c)) data
         && Nat.eqb (List.length names) (List.length data)
      then ret (mkTable names data)
      else raise ValueError
  end.

(** [a.T[k]] for an array [a] of rows of three numbers.  The empty array
    made of an empty list has one axis, and so has its transpose: the
    index is out of range.  (An array that lost all of its rows to a mask
    keeps its two axes; [saveVoids] then raises the same [IndexError] a
    few columns later, at [vax1[0]], with nothing done in between.) *)
Definition column3 {A : Type} (proj : A -> R) (a : list A) : io column :=
  match a with
  | [] => raise (Core IndexError)
  | _ :: _ => ret (RealCol (map proj a))
  end.

Definition xyz (k : nat) (v : vec3) : R :=
  match k with
  | O => fst (fst v)
  | S O => snd (fst v)
  | _ => snd v
  end.

(** [vx[k]] for the axes of a void. *)
Definition axis (k : nat) (vx : axes) : vec3 :=
  match k with
  | O => fst (fst vx)
  | S O => snd (fst vx)
  | _ => snd vx
  end.

Definition void_names_periodic : list string :=
  ["x"; "y"; "z"; "radius"; "x1"; "y1"; "z1"; "x2"; "y2"; "z2"; "x3"; "y3"; "z3"].

Definition void_names_sky : list string :=
  ["x"; "y"; "z"; "redshift"; "ra"; "dec"; "radius";
   "x1"; "y1"; "z1"; "x2"; "y2"; "z2"; "x3"; "y3"; "z3"].

(** The nine columns [vax1[0]], ..., [vax3[2]]. *)
Definition axes_columns (vaxs : list axes) : io (list column) :=
  x1 <-- column3 (xyz 0) (map (axis 0) vaxs) ;;
  y1 <-- column3 (xyz 1) (map (axis 0) vaxs) ;;
  z1 <-- column3 (xyz 2) (map (axis 0) vaxs) ;;
  x2 <-- column3 (xyz 0) (map (axis 1) vaxs) ;;
  y2 <-- column3 (xyz 1) (map (axis 1) vaxs) ;;
  z2 <-- column3 (xyz 2) (map (axis 1) vaxs) ;;
  x3 <-- column3 (xyz 0) (map (axis 2) vaxs) ;;
  y3 <-- column3 (xyz 1) (map (axis 2) vaxs) ;;
  z3 <-- column3 (xyz 2) (map (axis 2) vaxs) ;;
  ret [x1; y1; z1; x2; y2; z2; x3; y3; z3].

(** The table [vT]. *)
Definition void_table `{S : Sky} (self : Session) (cens : list vec3) : io Table :=
  vaxs <-- attr (vaxes (core self)) ;;
  per <-- attr (periodic self) ;;
  if per then
    x <-- column3 (xyz 0) cens ;;
    y <-- column3 (xyz 1) cens ;;
    z <-- column3 (xyz 2) cens ;;
    rads <-- attr (vrads (core self)) ;;
    ax <-- axes_columns vaxs ;;
    Table_init ([x; y; z; FloatCol rads] ++ ax) void_names_periodic
  else
    cfg <-- attr (settings self) ;;
    sky <-- (match toSky cens (H_0 cfg) (Om_m cfg) (zstep cfg) with
             | Some s => ret s
             | None => raise ToSkyError
             end) ;;
    x <-- column3 (xyz 0) cens ;;
    y <-- column3 (xyz 1) cens ;;
    z <-- column3 (xyz 2) cens ;;
    rads <-- attr (vrads (core self)) ;;
    ax <-- axes_columns vaxs ;;
    Table_init ([x; y; z; RealCol (fst (fst sky)); RealCol (snd (fst sky));
                 RealCol (snd sky); FloatCol rads] ++ ax)
               void_names_sky.

(** [(self.zvoid).T[k]] *)
Definition zvoid_column (proj : Z * Z -> Z) (zv : list (Z * Z)) : io column :=
  match zv with
  | [] => raise (Core IndexError)
  | _ :: _ => ret (IntCol (map proj zv))
  end.

(** The table [vZ]. *)
Definition zone_table (self : Session) : io Table :=
  zv <-- attr (zvoid (core self)) ;;
  void0 <-- zvoid_column fst zv ;;
  void1 <-- zvoid_column snd zv ;;
  Table_init [IntCol (map Z.of_nat (seq 0 (List.length zv))); void0; void1]
             ["zone"; "void0"; "void1"].

(** [Zobov.saveVoids(self)] *)
Definition saveVoids `{S : Sky} (self : Session) : io unit :=
  match vcens (core self) with
  | None => print "Sort voids first"
  | Some cens =>
      vT <-- void_table self cens ;;
      cfg <-- attr (settings self) ;;
      _ <-- write (outdir cfg ++ catname cfg ++ "_zobovoids.dat") vT ;;
      vZ <-- zone_table self ;;
      write (outdir cfg ++ catname cfg ++ "_zonevoids.dat") vZ
  end.

(** The object after a call of [sortVoids] that returned and left the
    attributes [self'] of its part of the object. *)
Definition with_core (self : Session) (self' : Zobov) : Session :=
  mkSession self' (visualize self) (periodic self) (settings self).

(** A configuration and collaborators for concrete runs. *)
Definition demo_settings : Settings :=
  mkSettings "survey.fits" "demo" "out/" 100 (3 / 10) 0 1 (Fin 0) (1 / 100) 1 None
    (0, 0, 0) (1, 1, 1) 5.

Definition demo_classes : Classes := {|
  Catalog_init := fun _ _ _ _ _ _ _ _ _ _ => Shapes.one_galaxy;
  Tesselation_init := fun _ _ _ _ => Shapes.one_cell;
  Zones_init := fun _ _ => Shapes.one_zone;
  Voids_init := fun _ => Shapes.one_entry
|}.

Definition demo_sky : Sky := {|
  toSky := fun cens _ _ _ =>
    Some (map (fun _ => 0) cens, map (fun _ => 0) cens, map (fun _ => 0) cens)
|}.

(** A world without any file, the directories in place. *)
Definition empty_world : World :=
  mkWorld (fun _ => true) (fun _ => None) (fun _ => None) (fun _ => None)
    (fun _ => None) (fun _ => None) [].


(** A world with the checkpoints of the catalog and of the tesselation of
    the survey [demo]. *)
Definition checkpointed_world : World :=
  mkWorld (fun _ => true)
    (update (fun _ => None) "../intermediate/demo_ctlg.pkl" Shapes.one_galaxy)
    (update (fun _ => None) "../intermediate/demo_tess.pkl" Shapes.one_cell)
    (fun _ => None) (fun _ => None) (fun _ => None) [].

(** An object with one void in its one zone. *)
Definition sorted_session : Session :=
  mkSession
    (mkZobov (Some Shapes.one_galaxy) (Some Shapes.one_cell) (Some Shapes.one_zone)
       (Some Shapes.one_entry) (Some (Fin 0)) (Some [Fin 1]) (Some [(0, 0, 0)])
       (Some [((1, 0, 0), (0, 1, 0), (0, 0, 1))]) (Some [(0%Z, 0%Z)]))
    (Some false) (Some false) (Some demo_settings).

(** The object [__init__] leaves after the zones of the survey of one
    galaxy, with periodic boundaries. *)
Definition zones_session : Session :=
  mkSession Shapes.zones_only (Some false) (Some true) (Some demo_settings).

End ZobovIO.

(** ** [vast/vsquared/zobov.py]: [Zobov.saveZones]

    The table of the galaxies: for each galaxy its zone, the depth of its
    cell, whether it is at the edge of the survey and whether it is
    outside of the mask.  [saveZones] reads two attributes that
    [sortVoids] does not: [self.catalog.imsk], a boolean mask over the
    galaxies, and [self.zones.depth], an integer per cell; they are
    arguments here. *)

Module ZoneTable.

Import Array Zobov ZobovIO.

Local Open Scope string_scope.
Local Open Scope list_scope.

(** [glist[self.catalog.nnls==k]]: the galaxies whose cell is the cell of
    galaxy [k]. *)
Definition same_cell (ct : Catalog) (k : nat) : list nat :=
  mask (map (fun n => Z.eqb n (Z.of_nat k)) (nnls ct))
       (seq 0 (List.length (coord ct))).

(** [a[l] = v] for a list [l] of indices. *)
Definition assign {A : Type} (l : list nat) (v : A) (a : list A) : res (list A) :=
  if forallb (fun g => Nat.ltb g (List.length a)) l
  then Ok (fold_left (fun a' g => set_at g v a') l a)
  else Err IndexError.

(** The body of [for i,l in enumerate(glut2)]: [l] becomes the galaxies of
    the cell of [glut1[i]], and they get the depth of that cell. *)
Definition depth_step (ct : Catalog) (depth : list Z) (glut1 : list nat)
    (dlist : list Z) (i : nat) : res (list Z) :=
  k <- index glut1 i ;;
  d <- index depth i ;;
  assign (same_cell ct k) d dlist.

(** The body of [for c in cl], in zone [i]: the state is [zlist] and
    [elist]. *)
Definition zone_step (self : Zobov) (glut2 : list (list nat)) (olist : list Z)
    (i : nat) (st : list Z * list Z) (c : nat) : res (list Z * list Z) :=
  cell <- index glut2 c ;;
  zlist <- assign cell (Z.of_nat i) (fst st) ;;
  ts <- getattr (tesselation self) ;;
  v <- index (volumes ts) c ;;
  if Reqb v 0 then
    os <- take olist cell ;;
    if negb (forallb (fun o => negb (o =? 0)%Z) os) then
      elist <- assign cell 1%Z (snd st) ;;
      Ok (zlist, elist)
    else Ok (zlist, snd st)
  else Ok (zlist, snd st).

(** [elist[np.array(olist,dtype=bool)] = 0]; a boolean mask of another
    length than the array is an [IndexError]. *)
Definition clear_outside (olist elist : list Z) : res (list Z) :=
  if Nat.eqb (List.length olist) (List.length elist)
  then Ok (map (fun '(o, e) => if (o =? 0)%Z then e else 0%Z) (combine olist elist))
  else Err IndexError.

(** The columns [glist], [zlist], [dlist], [elist] and [olist] for a
    catalog with an entry of [nnls] per galaxy. *)
Definition zone_columns (self : Zobov) (ct : Catalog) (zn : Zones)
    (imsk : list bool) (depth : list Z) : res (list column) :=
  let ngal := List.length (coord ct) in
  let glist := seq 0 ngal in
  let glut1 := canonical ct in
  let glut2 := map (same_cell ct) glut1 in
  dlist <- foldM (depth_step ct depth glut1) (seq 0 (List.length glut1))
             (repeat (-1)%Z ngal) ;;
  let olist := map (fun b : bool => if b then 0%Z else 1%Z) imsk in
  st <- foldM (fun st '(i, cl) => foldM (zone_step self glut2 olist i) cl st)
          (combine (seq 0 (List.length (zcell zn))) (zcell zn))
          (repeat (-1)%Z ngal, repeat 0%Z ngal) ;;
  elist <- clear_outside olist (snd st) ;;
  Ok [IntCol (map Z.of_nat glist); IntCol (fst st); IntCol dlist; IntCol elist;
      IntCol olist].

Definition lift {A : Type} (m : res A) : io A :=
  match m with Ok a => ret a | Err e => raise (Core e) end.

(** [Zobov.saveZones(self)].  With [nnls] and [coord] of two lengths the
    comparison [self.catalog.nnls==glist] is outside of this model: by
    the lengths and the version of numpy it broadcasts, answers [False]
    with a warning, or raises; [Catalog] makes an entry of [nnls] per
    galaxy. *)
Definition saveZones (self : Session) (imsk : list bool) (depth : list Z)
  : io unit :=
  match zones (core self) with
  | None => print "Build zones first"
  | Some zn =>
      ct <-- attr (catalog (core self)) ;;
      if negb (Nat.eqb (List.length (nnls ct)) (List.length (coord ct)))
      then raise ShapeMismatch
      else
        cols <-- lift (zone_columns (core self) ct zn imsk depth) ;;
        zT <-- Table_init cols ["gal"; "zone"; "depth"; "edge"; "out"] ;;
        cfg <-- attr (settings self) ;;
        write (outdir cfg ++ catname cfg ++ "_galzones.dat") zT
  end.

(** Galaxy [g] is in cell [c]: its entry of [nnls] is the [c]-th of the
    galaxies that are their own representative. *)
Definition in_cell (ct : Catalog) (g c : nat) : Prop :=
  exists k, nth_error (canonical ct) c = Some k /\
            nth_error (nnls ct) g = Some (Z.of_nat k).

(** Galaxy [g] is in a cell of zone [i]. *)
Definition in_zone (ct : Catalog) (zn : Zones) (g i : nat) : Prop :=
  exists cl c, nth_error (zcell zn) i = Some cl /\ In c cl /\ in_cell ct g c.

(** Galaxy [g] is in a cell of a zone whose volume is 0. *)
Definition in_flat_cell (ct : Catalog) (ts : Tesselation) (zn : Zones) (g : nat)
  : Prop :=
  exists i cl c, nth_error (zcell zn) i = Some cl /\ In c cl /\ in_cell ct g c /\
                 nth_error (volumes ts) c = Some 0.

(** The stages as [saveZones] needs them: an entry of [nnls] and of
    [imsk] per galaxy, a depth per cell, and the cells of the zones among
    the cells of the catalog and of the tesselation. *)
Record zones_ok (ct : Catalog) (ts : Tesselation) (zn : Zones)
    (imsk : list bool) (depth : list Z) : Prop := {
  nnls_per_galaxy : List.length (nnls ct) = List.length (coord ct);
  imsk_per_galaxy : List.length imsk = List.length (coord ct);
  depth_per_cell : (List.length (canonical ct) <= List.length depth)%nat;
  cells_in_range : forall cl c,
    In cl (zcell zn) -> In c cl ->
    (c < List.length (canonical ct))%nat /\ (c < List.length (volumes ts))%nat
}.

End ZoneTable.

(** * Properties *)

(** ** Doubles *)

Module FloatFacts.

Lemma Rgtb_true (a b : R) : Rgtb a b = true <-> b < a.
Proof. unfold Rgtb; destruct (Rlt_dec b a); split; intros; try easy; lra. Qed.

Lemma Rgtb_false (a b : R) : Rgtb a b = false <-> a <= b.
Proof. unfold Rgtb; destruct (Rlt_dec b a); split; intros; try easy; lra. Qed.

Lemma Rltb_true (a b : R) : Rltb a b = true <-> a < b.
Proof. unfold Rltb; destruct (Rlt_dec a b); split; intros; try easy; lra. Qed.

Lemma Rltb_false (a b : R) : Rltb a b = false <-> b <= a.
Proof. unfold Rltb; destruct (Rlt_dec a b); split; intros; try easy; lra. Qed.

Lemma Rleb_true (a b : R) : Rleb a b = true <-> a <= b.
Proof. unfold Rleb; destruct (Rle_dec a b); split; intros; try easy; lra. Qed.

Lemma Rleb_false (a b : R) : Rleb a b = false <-> b < a.
Proof. unfold Rleb; destruct (Rle_dec a b); split; intros; try easy; lra. Qed.

Lemma Reqb_true (a b : R) : Reqb a b = true <-> a = b.
Proof. unfold Reqb; destruct (Req_dec_T a b); split; intros; try easy. Qed.

Lemma Reqb_false (a b : R) : Reqb a b = false <-> a <> b.
Proof. unfold Reqb; destruct (Req_dec_T a b); split; intros; try easy. Qed.

Lemma gtb_irrefl (a : fl) : gtb a a = false.
Proof.
  destruct a; unfold gtb; simpl; trivial.
  apply Rltb_false; lra.
Qed.

Lemma gtb_Fin (x y : R) : gtb (Fin x) (Fin y) = true <-> y < x.
Proof. unfold gtb; simpl; apply Rltb_true. Qed.

Lemma leb_Fin (x y : R) : leb (Fin x) (Fin y) = true <-> x <= y.
Proof. simpl; apply Rleb_true. Qed.

Lemma gtb_NaN_l (b : fl) : gtb NaN b = false.
Proof. destruct b; reflexivity. Qed.

Lemma leb_NaN_l (b : fl) : leb NaN b = false.
Proof. destruct b; reflexivity. Qed.

(** A strict comparison that holds gives the large one. *)
Lemma gtb_geb (a b : fl) : gtb a b = true -> geb a b = true.
Proof.
  unfold gtb, geb; destruct a, b; simpl; trivial; try discriminate.
  rewrite Rltb_true, Rleb_true; lra.
Qed.

End FloatFacts.

(** ** Arrays *)

Module ArrayFacts.

Local Open Scope nat_scope.

Lemma mask_In {A : Type} (bs : list bool) (l : list A) (x : A) :
  In x (mask bs l) -> In x l.
Proof.
  revert l; induction bs as [|b bs IH]; intros [|y l]; simpl; try tauto.
  destruct b; simpl; intros H; [destruct H as [H|H]|]; auto.
Qed.

Lemma mask_map_filter {A : Type} (f : A -> bool) (l : list A) :
  mask (map f l) l = filter f l.
Proof.
  induction l as [|x l IH]; simpl; trivial.
  destruct (f x); rewrite IH; trivial.
Qed.

Lemma mask_length_eq {A B : Type} (bs : list bool) (l : list A) (l' : list B) :
  List.length l = List.length l' ->
  List.length (mask bs l) = List.length (mask bs l').
Proof.
  revert l l'; induction bs as [|b bs IH]; intros [|x l] [|y l'];
    simpl; try discriminate; trivial.
  intros H; injection H as H; destruct b; simpl; auto.
Qed.

Lemma mask_length_le {A : Type} (bs : list bool) (l : list A) :
  List.length (mask bs l) <= List.length l.
Proof.
  revert l; induction bs as [|b bs IH]; intros [|x l]; simpl; try lia.
  specialize (IH l); destruct b; simpl; lia.
Qed.

Lemma set_at_length {A : Type} (i : nat) (v : A) (l : list A) :
  List.length (set_at i v l) = List.length l.
Proof.
  revert i; induction l as [|x l IH]; intros [|i]; simpl; auto.
Qed.

Lemma set_at_same {A : Type} (i : nat) (v : A) (l : list A) :
  i < List.length l -> nth_error (set_at i v l) i = Some v.
Proof.
  revert i; induction l as [|x l IH]; intros [|i]; simpl; try lia; trivial.
  intros H; apply IH; lia.
Qed.

Lemma set_at_other {A : Type} (i j : nat) (v : A) (l : list A) :
  i <> j -> nth_error (set_at i v l) j = nth_error l j.
Proof.
  revert i j; induction l as [|x l IH]; intros [|i] [|j]; simpl;
    try congruence; trivial.
  intros H; apply IH; congruence.
Qed.

Lemma nth_error_lt {A : Type} (l : list A) (i : nat) (x : A) :
  nth_error l i = Some x -> i < List.length l.
Proof. intros H; apply nth_error_Some; congruence. Qed.

End ArrayFacts.

(** ** [Zobov.sortVoids] *)

Module ZobovSpec.

Import Zobov FloatFacts ArrayFacts.

Import Shapes.

Local Open Scope string_scope.
Local Open Scope nat_scope.
Local Open Scope list_scope.

#[local] Arguments ltb : simpl never.
#[local] Arguments gtb : simpl never.
#[local] Arguments leb : simpl never.
#[local] Arguments geb : simpl never.

(** *** The error monad *)

Lemma index_Ok {A : Type} (l : list A) (i : nat) (x : A) :
  index l i = Ok x <-> nth_error l i = Some x.
Proof.
  unfold index; destruct (nth_error l i); split; congruence.
Qed.

Lemma index_total {A : Type} (l : list A) (i : nat) :
  i < List.length l -> exists x, index l i = Ok x.
Proof.
  intros H; unfold index.
  destruct (nth_error l i) eqn:E; eauto.
  apply nth_error_None in E; lia.
Qed.

Lemma mapM_total {A B : Type} (f : A -> res B) (l : list A) :
  (forall x, In x l -> exists y, f x = Ok y) ->
  exists ys, mapM f l = Ok ys.
Proof.
  induction l as [|x l IH]; simpl; intros H; eauto.
  destruct (H x) as [y Hy]; auto.
  destruct IH as [ys Hys]; auto.
  rewrite Hy, Hys; simpl; eauto.
Qed.

Lemma mapM_Forall2 {A B : Type} (f : A -> res B) (l : list A) (ys : list B) :
  mapM f l = Ok ys -> Forall2 (fun x y => f x = Ok y) l ys.
Proof.
  revert ys; induction l as [|x l IH]; simpl; intros ys H.
  - injection H as <-; constructor.
  - destruct (f x) as [y|] eqn:E; simpl in H; try discriminate.
    destruct (mapM f l) as [ys'|]; simpl in H; try discriminate.
    injection H as <-; constructor; auto.
Qed.

Lemma mapM_length {A B : Type} (f : A -> res B) (l : list A) (ys : list B) :
  mapM f l = Ok ys -> List.length ys = List.length l.
Proof.
  intros H; apply mapM_Forall2 in H.
  induction H; simpl; auto.
Qed.

Lemma mapM_In {A B : Type} (f : A -> res B) (l : list A) (ys : list B) (y : B) :
  mapM f l = Ok ys -> In y ys -> exists x, In x l /\ f x = Ok y.
Proof.
  intros H; apply mapM_Forall2 in H.
  induction H as [|x y' l ys Hxy _ IH]; simpl; [tauto|].
  intros [<-|Hin]; eauto.
  destruct (IH Hin) as [x' [? ?]]; eauto.
Qed.

Lemma take_total {A : Type} (l : list A) (idxs : list nat) :
  (forall i, In i idxs -> i < List.length l) ->
  exists xs, take l idxs = Ok xs.
Proof.
  intros H; apply mapM_total; intros i Hi; apply index_total; auto.
Qed.

Lemma foldM_invariant {A B : Type} (f : A -> B -> res A) (I : A -> Prop)
    (l : list B) :
  (forall a x a', In x l -> I a -> f a x = Ok a' -> I a') ->
  forall a a', I a -> foldM f l a = Ok a' -> I a'.
Proof.
  induction l as [|x l IH]; simpl; intros Hf a a' Ha H.
  - injection H as <-; trivial.
  - destruct (f a x) as [a1|] eqn:E; simpl in H; try discriminate.
    apply (IH (fun a0 x0 a0' Hin => Hf a0 x0 a0' (or_intror Hin)) a1 a'); trivial.
    apply (Hf a x a1); auto.
Qed.

Lemma foldM_total {A B : Type} (f : A -> B -> res A) (I : A -> Prop)
    (l : list B) :
  (forall a x, In x l -> I a -> exists a', f a x = Ok a' /\ I a') ->
  forall a, I a -> exists a', foldM f l a = Ok a' /\ I a'.
Proof.
  induction l as [|x l IH]; simpl; intros Hf a Ha; eauto.
  destruct (Hf a x) as [a1 [E Ha1]]; auto.
  rewrite E; simpl; apply IH; auto.
Qed.

(** *** The zone-void map *)

Lemma candidate_size_nat (vds : list (list nat)) (i : nat) (v : list nat) :
  nth_error vds i = Some v ->
  candidate_size vds (Z.of_nat i) = Some (List.length v).
Proof.
  intros H; unfold candidate_size.
  destruct (Z.ltb_spec (Z.of_nat i) 0); [lia|].
  rewrite Nat2Z.id, H; reflexivity.
Qed.

Lemma candidate_size_nonneg (vds : list (list nat)) (k : Z) (n : nat) :
  candidate_size vds k = Some n -> (0 <= k)%Z.
Proof.
  unfold candidate_size; destruct (Z.ltb_spec k 0); [discriminate|lia].
Qed.

Lemma indexZ_size (vds : list (list nat)) (k : Z) (v : list nat) :
  (0 <= k)%Z -> indexZ vds k = Ok v ->
  candidate_size vds k = Some (List.length v).
Proof.
  intros Hk; unfold indexZ, candidate_size.
  destruct (Z.ltb_spec k 0); [lia|].
  rewrite index_Ok; intros ->; reflexivity.
Qed.

Lemma size_indexZ (vds : list (list nat)) (k : Z) (n : nat) :
  candidate_size vds k = Some n ->
  exists v, indexZ vds k = Ok v /\ List.length v = n.
Proof.
  unfold indexZ, candidate_size.
  destruct (Z.ltb_spec k 0); [discriminate|].
  destruct (nth_error vds (Z.to_nat k)) as [v|] eqn:E; simpl; try discriminate.
  intros [= <-]; exists v; split; trivial.
  apply index_Ok; trivial.
Qed.

Lemma zvoid_inv_set (vds : list (list nat)) (nz : nat) (zv : list (Z * Z))
    (j : nat) (pr : Z * Z) :
  zvoid_inv vds nz zv -> zvoid_ordered vds pr ->
  zvoid_inv vds nz (set_at j pr zv).
Proof.
  intros [Hlen Hord] Hpr; split.
  - rewrite set_at_length; trivial.
  - intros k pr' Hk.
    destruct (Nat.eq_dec j k) as [->|Hjk].
    + destruct (Nat.lt_ge_cases k (List.length zv)) as [Hlt|Hge].
      * rewrite set_at_same in Hk by trivial; congruence.
      * apply nth_error_lt in Hk; rewrite set_at_length in Hk; lia.
    + rewrite set_at_other in Hk by trivial; eauto.
Qed.

Lemma zvoid_zone_inv (vds : list (list nat)) (nz i j : nat) (zv zv' : list (Z * Z)) :
  i < List.length vds ->
  zvoid_inv vds nz zv -> zvoid_zone vds i zv j = Ok zv' ->
  zvoid_inv vds nz zv' /\
  forall k, k <> j -> nth_error zv' k = nth_error zv k.
Proof.
  intros Hi Hinv; unfold zvoid_zone.
  destruct (index zv j) as [[p s]|] eqn:Ej; simpl; try discriminate.
  apply index_Ok in Ej.
  destruct (index_total vds i Hi) as [vi Ei]; pose proof Ei as Ei'.
  apply index_Ok in Ei'; apply candidate_size_nat in Ei'.
  destruct (Z.leb_spec 0 p) as [Hp|Hp].
  - rewrite Ei; simpl.
    destruct Hinv as [Hlen Hord]; pose proof (Hord _ _ Ej) as [E|[np [ns [Ep [Es Hle]]]]];
      [injection E as -> ->; lia|]; simpl in Ep, Es.
    destruct (size_indexZ _ _ _ Ep) as [vp [Hvp Lp]]; rewrite Hvp; simpl.
    destruct (Nat.ltb_spec (List.length vi) (List.length vp)) as [Hlt|Hge].
    + intros [= <-]; split.
      * apply zvoid_inv_set; [split; trivial|].
        right; exists (List.length vi), ns; simpl; repeat split; trivial; lia.
      * intros k Hk; apply set_at_other; congruence.
    + destruct (size_indexZ _ _ _ Es) as [vs [Hvs Ls]]; rewrite Hvs; simpl.
      destruct (Nat.ltb_spec (List.length vs) (List.length vi)) as [Hgt|Hngt];
        intros [= <-].
      * split.
        -- apply zvoid_inv_set; [split; trivial|].
           right; exists np, (List.length vi); simpl; repeat split; trivial; lia.
        -- intros k Hk; apply set_at_other; congruence.
      * split; [split; trivial|trivial].
  - intros [= <-]; split.
    + apply zvoid_inv_set; trivial.
      right; exists (List.length vi), (List.length vi); simpl; repeat split; trivial.
    + intros k Hk; apply set_at_other; congruence.
Qed.

Lemma zvoid_zone_total (vds : list (list nat)) (nz i j : nat) (zv : list (Z * Z)) :
  i < List.length vds -> j < nz ->
  zvoid_inv vds nz zv -> exists zv', zvoid_zone vds i zv j = Ok zv'.
Proof.
  intros Hi Hj [Hlen Hord]; unfold zvoid_zone.
  destruct (index_total zv j) as [[p s] Ej]; [lia|]; rewrite Ej; simpl.
  apply index_Ok in Ej.
  destruct (index_total vds i Hi) as [vi Ei].
  destruct (Z.leb_spec 0 p) as [Hp|Hp]; [|eauto].
  rewrite Ei; simpl.
  destruct (Hord _ _ Ej) as [E|[np [ns [Ep [Es Hle]]]]];
    [injection E as -> ->; lia|]; simpl in Ep, Es.
  destruct (size_indexZ _ _ _ Ep) as [vp [Hvp Lp]]; rewrite Hvp; simpl.
  destruct (size_indexZ _ _ _ Es) as [vs [Hvs Ls]]; rewrite Hvs; simpl.
  destruct (List.length vi <? List.length vp); eauto.
  destruct (List.length vs <? List.length vi); eauto.
Qed.

Lemma zvoid_inv_init (vds : list (list nat)) (nz : nat) :
  zvoid_inv vds nz (repeat ((-1)%Z, (-1)%Z) nz).
Proof.
  split; [apply repeat_length|].
  intros k pr Hk; left.
  apply nth_error_In in Hk; apply repeat_spec in Hk; trivial.
Qed.

(** The first assignment of a zone sets both indices to the candidate. *)
Lemma zvoid_zone_first (vds : list (list nat)) (i j : nat) (zv : list (Z * Z)) :
  nth_error zv j = Some ((-1)%Z, (-1)%Z) ->
  zvoid_zone vds i zv j = Ok (set_at j (Z.of_nat i, Z.of_nat i) zv).
Proof.
  intros H; apply index_Ok in H; unfold zvoid_zone; rewrite H; reflexivity.
Qed.

Lemma zvoid_void_inv (vds : list (list nat)) (nz i : nat) (zv zv' : list (Z * Z)) :
  zvoid_inv vds nz zv -> zvoid_void vds zv i = Ok zv' ->
  zvoid_inv vds nz zv' /\
  forall k, (forall v, nth_error vds i = Some v -> ~ In k v) ->
       nth_error zv' k = nth_error zv k.
Proof.
  intros Hinv; unfold zvoid_void.
  destruct (index vds i) as [vi|] eqn:Ei; simpl; try discriminate.
  apply index_Ok in Ei.
  assert (Hi : i < List.length vds) by (eapply nth_error_lt; eauto).
  intros H; split.
  - revert H; apply foldM_invariant; trivial.
    intros a x a' _ Ha E; eapply zvoid_zone_inv; eauto.
  - intros k Hk; specialize (Hk vi Ei).
    revert H.
    apply (foldM_invariant (zvoid_zone vds i)
             (fun a => zvoid_inv vds nz a /\ nth_error a k = nth_error zv k) vi);
      [|split; trivial].
    intros a x a' Hx [Ha Hak] E.
    destruct (zvoid_zone_inv _ _ _ _ _ _ Hi Ha E) as [Ha' Hother].
    split; trivial.
    rewrite Hother; trivial.
    intros ->; auto.
Qed.

Lemma zvoid_void_total (vds : list (list nat)) (nz i : nat) (zv : list (Z * Z)) :
  (forall v, In v vds -> forall j, In j v -> j < nz) ->
  i < List.length vds -> zvoid_inv vds nz zv ->
  exists zv', zvoid_void vds zv i = Ok zv' /\ zvoid_inv vds nz zv'.
Proof.
  intros Hz Hi Hinv; unfold zvoid_void.
  destruct (index_total vds i Hi) as [vi Ei]; rewrite Ei; simpl.
  apply index_Ok in Ei; pose proof (nth_error_In _ _ Ei) as Hin.
  apply foldM_total; trivial.
  intros a j Hj Ha.
  destruct (zvoid_zone_total vds nz i j a) as [a' E]; eauto.
  exists a'; split; trivial.
  eapply zvoid_zone_inv; eauto.
Qed.

(** [build_zvoid] raises nothing when every zone of every candidate is a
    zone of the survey. *)
Lemma build_zvoid_total (nz : nat) (vds : list (list nat)) :
  (forall v, In v vds -> forall j, In j v -> j < nz) ->
  exists zv, build_zvoid nz vds = Ok zv.
Proof.
  intros Hz; unfold build_zvoid.
  destruct (foldM_total (zvoid_void vds) (zvoid_inv vds nz)
              (seq 0 (List.length vds))) with (a := repeat ((-1)%Z, (-1)%Z) nz)
    as [zv [E _]]; eauto using zvoid_inv_init.
  intros a i Hi Ha; apply in_seq in Hi.
  apply zvoid_void_total; trivial; lia.
Qed.

(** C6.  When the loop over the candidates [vds] completes with the map
    [zv]: the map has an entry per zone; in an assigned entry (primary not
    the sentinel -1) both indices name candidates and the primary one has at
    most as many zones as the secondary one; a zone that is in no candidate
    keeps (-1,-1); and the first assignment of a zone, on an entry that is
    still (-1,-1), writes the same candidate to both indices. *)
Theorem zvoid_primary_le_secondary (nz : nat) (vds : list (list nat))
    (zv : list (Z * Z)) :
  build_zvoid nz vds = Ok zv ->
  List.length zv = nz /\
  (forall j p s, nth_error zv j = Some (p, s) -> p <> (-1)%Z ->
     exists np ns, candidate_size vds p = Some np /\
                   candidate_size vds s = Some ns /\ np <= ns) /\
  (forall j, j < nz -> (forall v, In v vds -> ~ In j v) ->
     nth_error zv j = Some ((-1)%Z, (-1)%Z)) /\
  (forall i j zv0, nth_error zv0 j = Some ((-1)%Z, (-1)%Z) ->
     zvoid_zone vds i zv0 j = Ok (set_at j (Z.of_nat i, Z.of_nat i) zv0)).
Proof.
  unfold build_zvoid; intros H.
  assert (Hinv : zvoid_inv vds nz zv).
  { revert H; apply foldM_invariant; [|apply zvoid_inv_init].
    intros a i a' _ Ha E; eapply zvoid_void_inv; eauto. }
  destruct Hinv as [Hlen Hord].
  split; [trivial|split; [|split]].
  - intros j p s Hj Hp.
    destruct (Hord _ _ Hj) as [E|Hsz]; [congruence|exact Hsz].
  - intros j Hj Hno.
    revert H.
    apply (foldM_invariant (zvoid_void vds)
             (fun a => zvoid_inv vds nz a /\
                       nth_error a j = Some ((-1)%Z, (-1)%Z))
             (seq 0 (List.length vds))).
    + intros a i a' _ [Ha Haj] E.
      destruct (zvoid_void_inv _ _ _ _ _ Ha E) as [Ha' Hkeep].
      split; trivial.
      rewrite Hkeep; trivial.
      intros v Hv; apply Hno; eapply nth_error_In; eauto.
    + split; [apply zvoid_inv_init|].
      apply nth_error_repeat; trivial.
  - intros i j zv0; apply zvoid_zone_first.
Qed.

Lemma zvoid_primary_le_secondary_witness :
  build_zvoid 3 [[0; 1]; [1]] = Ok [(0, 0); (1, 0); (-1, -1)]%Z /\
  (List.length [(0, 0); (1, 0); (-1, -1)]%Z = 3 /\
   (forall j p s, nth_error [(0, 0); (1, 0); (-1, -1)]%Z j = Some (p, s) ->
      p <> (-1)%Z ->
      exists np ns, candidate_size [[0; 1]; [1]] p = Some np /\
                    candidate_size [[0; 1]; [1]] s = Some ns /\ np <= ns) /\
   (forall j, j < 3 -> (forall v, In v [[0; 1]; [1]] -> ~ In j v) ->
      nth_error [(0, 0); (1, 0); (-1, -1)]%Z j = Some ((-1)%Z, (-1)%Z)) /\
   (forall i j zv0, nth_error zv0 j = Some ((-1)%Z, (-1)%Z) ->
      zvoid_zone [[0; 1]; [1]] i zv0 j
      = Ok (set_at j (Z.of_nat i, Z.of_nat i) zv0))).
Proof.
  split; [reflexivity|].
  apply (zvoid_primary_le_secondary 3 [[0; 1]; [1]]); reflexivity.
Defined.

(** *** Method 0: the levels of an entry *)







(** *** After the selection *)

Lemma take_In {A : Type} (l : list A) (idxs : list nat) (xs : list A) (x : A) :
  take l idxs = Ok xs -> In x xs ->
  exists i, In i idxs /\ nth_error l i = Some x.
Proof.
  intros H Hx; destruct (mapM_In _ _ _ _ H Hx) as [i [Hi E]].
  exists i; split; trivial; apply index_Ok; trivial.
Qed.

Lemma flatten_cells_In (zc : list (list nat)) (v vcut : list nat) (c : nat) :
  flatten_cells zc v = Ok vcut -> In c vcut ->
  exists z cells, In z v /\ nth_error zc z = Some cells /\ In c cells.
Proof.
  unfold flatten_cells.
  destruct (take zc v) as [cs|] eqn:E; simpl; try discriminate.
  intros [= <-] Hc; apply in_concat in Hc; destruct Hc as [cells [Hcells Hc]].
  destruct (take_In _ _ _ _ E Hcells) as [z [Hz Hnth]]; eauto.
Qed.

Lemma canonical_bound (ct : Catalog) (g : nat) :
  In g (canonical ct) -> g < List.length (coord ct).
Proof.
  unfold canonical; intros H; apply mask_In in H; apply in_seq in H; lia.
Qed.

Section WithUtil.

Context `{U : Util}.

(** *** The guards: stages and methods *)

(** C5 (as amended).  [sortVoids] with [method=3] raises no error: it
    returns at once, the object as it was (no [vrads], [vcens], [vaxes] or
    [zvoid] is written), and it is not silent, it prints a line.  The line
    is "Method 3 coming soon" when the stage guard passes (the [prevoids]
    are there); without [prevoids] the stage guard answers first, with
    "Run all stages of Zobov first". *)
Theorem sortVoids_method3_unsupported (self : Zobov) (minsig dc : R) :
  exists out,
    sortVoids self 3 minsig dc = Returned self out /\
    out <> [] /\
    (hasattr (prevoids self) = true ->
     out = [Msg "Selecting void candidates..."; Msg "Method 3 coming soon"]) /\
    (hasattr (prevoids self) = false -> out = run_all_stages).
Proof.
  unfold sortVoids.
  destruct (prevoids self) as [pv|]; simpl.
  - eexists; split; [reflexivity|].
    repeat split; try discriminate; trivial.
  - exists run_all_stages; repeat split; try discriminate; trivial.
Qed.

(** The zone-void map [sortVoids] stores is the one [build_zvoid] makes
    of the candidates that are left after the cuts. *)
Lemma finish_zvoid (self self' : Zobov) (zn : Zones) (method : Z) (dc : R)
    (minvol : fl) (vds : list (list nat)) (out : list message) :
  zones self = Some zn ->
  finish self method dc minvol vds = Ok (self', out) ->
  exists vds' zv,
    (forall v, In v vds' -> In v vds) /\
    build_zvoid (List.length (zvols zn)) vds' = Ok zv /\
    zvoid self' = Some zv.
Proof.
  intros Hzn; unfold finish; rewrite Hzn; simpl.
  destruct (mapM _ vds) as [vcuts|]; simpl; try discriminate.
  destruct (getattr (catalog self)) as [ct|]; simpl; try discriminate.
  destruct (gcut ct) as [g|]; simpl; try discriminate.
  destruct (take (coord ct) g) as [cutco|]; simpl; try discriminate.
  destruct (getattr (tesselation self)) as [ts|]; simpl; try discriminate.
  destruct (mapM _ vcuts) as [vvols|]; simpl; try discriminate.
  destruct (getattr _) as [mr|]; simpl; try discriminate.
  destruct (mapM _ (mask _ vcuts)) as [vcens1|]; simpl; try discriminate.
  destruct (mapM _ (seq 0 _)) as [vaxes2|]; simpl; try discriminate.
  destruct (build_zvoid _ _) as [zv|] eqn:Ezv; simpl; try discriminate.
  intros [= <- <-]; simpl.
  eexists; exists zv; split; [|split; [exact Ezv|reflexivity]].
  intros v; unfold density_recheck; destruct (method =? 0)%Z; simpl; intros Hv.
  - do 3 apply mask_In in Hv; trivial.
  - apply mask_In in Hv; trivial.
Qed.

(** *** The run after the selection raises nothing on well-formed stages *)

Section Finish.

Variables (self : Zobov) (ct : Catalog) (ts : Tesselation) (zn : Zones).
Hypothesis Hct : catalog self = Some ct.
Hypothesis Hts : tesselation self = Some ts.
Hypothesis Hzn : zones self = Some zn.
Hypothesis Hok : stages_ok ct ts zn.

Variable vds : list (list nat).
Hypothesis Hvds :
  forall v, In v vds -> forall z, In z v -> z < List.length (zvols zn).

Lemma vcuts_total :
  exists vcuts, mapM (flatten_cells (zcell zn)) vds = Ok vcuts.
Proof.
  apply mapM_total; intros v Hv; unfold flatten_cells.
  destruct (take_total (zcell zn) v) as [cs E].
  - intros z Hz; pose proof (Hvds v Hv z Hz); pose proof (zvols_zcell _ _ _ Hok); lia.
  - rewrite E; simpl; eauto.
Qed.

Lemma vcuts_cells (vcuts : list (list nat)) (vcut : list nat) (c : nat) :
  mapM (flatten_cells (zcell zn)) vds = Ok vcuts ->
  In vcut vcuts -> In c vcut ->
  c < List.length (volumes ts) /\ c < List.length (canonical ct).
Proof.
  intros E Hvcut Hc.
  destruct (mapM_In _ _ _ _ E Hvcut) as [v [Hv Ev]].
  destruct (flatten_cells_In _ _ _ _ Ev Hc) as [z [cells [Hz [Hnth Hcells]]]].
  eapply (cells_ok _ _ _ Hok); eauto.
Qed.

Lemma finish_total (method : Z) (dc : R) (minvol : fl) :
  method = 4%Z \/ minrad self <> None ->
  exists self' out, finish self method dc minvol vds = Ok (self', out).
Proof.
  intros Hmr; unfold finish; rewrite Hzn; simpl.
  destruct vcuts_total as [vcuts Evc]; rewrite Evc; simpl.
  rewrite Hct; simpl.
  unfold gcut; rewrite (nnls_coord _ _ _ Hok), Nat.eqb_refl; simpl.
  destruct (take_total (coord ct) (canonical ct)) as [cutco Eco];
    [apply canonical_bound|]; rewrite Eco; simpl.
  pose proof (mapM_length _ _ _ Eco) as Lco.
  rewrite Hts; simpl.
  destruct (mapM_total (void_volume (volumes ts)) vcuts) as [vvols Evv].
  { intros vcut Hvcut; unfold void_volume.
    destruct (take_total (volumes ts) vcut) as [vs E].
    - intros c Hc; eapply vcuts_cells; eauto.
    - rewrite E; simpl; eauto. }
  rewrite Evv; simpl.
  pose proof (mapM_length _ _ _ Evv) as Lvv.
  set (vrads0 := map effective_radius vvols).
  assert (Emr : exists mr,
    getattr (if (method =? 4)%Z then Some (median vrads0) else minrad self) = Ok mr).
  { destruct Hmr as [->|Hmr]; simpl; eauto.
    destruct (method =? 4)%Z; simpl; eauto.
    destruct (minrad self); simpl; eauto; congruence. }
  destruct Emr as [mr Emr]; rewrite Emr; simpl.
  set (rcut := map (fun r => gtb r mr) vrads0).
  destruct (mapM_total (void_center (volumes ts) cutco) (mask rcut vcuts))
    as [vcens1 Evce].
  { intros vcut Hvcut; apply mask_In in Hvcut; unfold void_center.
    destruct (take_total (volumes ts) vcut) as [vs E1];
      [intros c Hc; eapply vcuts_cells; eauto|].
    destruct (take_total cutco vcut) as [cs E2];
      [intros c Hc; rewrite Lco; eapply vcuts_cells; eauto|].
    rewrite E1; simpl; rewrite E2; simpl; eauto. }
  rewrite Evce; simpl.
  assert (Lcut : List.length (mask rcut vrads0) = List.length (mask rcut vcuts)).
  { apply mask_length_eq; unfold vrads0; rewrite length_map; trivial. }
  set (kept := density_recheck method dc minvol cutco _ vcens1 _ _).
  assert (Hsel : List.length (fst (fst kept)) <= List.length (mask rcut vcuts) /\
                 (forall v, In v (snd kept) -> In v vds)).
  { unfold kept, density_recheck; destruct (method =? 0)%Z; simpl; split.
    - etransitivity; [apply mask_length_le|].
      etransitivity; [apply mask_length_le|]; rewrite Lcut; trivial.
    - intros v Hv; do 3 apply mask_In in Hv; trivial.
    - rewrite Lcut; trivial.
    - intros v Hv; apply mask_In in Hv; trivial. }
  destruct Hsel as [Lr2 Hsub].
  set (vrads2 := fst (fst kept)) in *.
  set (vds2 := snd kept) in *.
  destruct (mapM_total (void_axes cutco (mask rcut vcuts) vrads2)
              (seq 0 (List.length vrads2))) as [vaxes2 Eax].
  { intros i Hi; apply in_seq in Hi; unfold void_axes.
    destruct (index_total vrads2 i) as [r Er]; [lia|]; rewrite Er; simpl.
    destruct (index_total (mask rcut vcuts) i) as [vcut Ec]; [lia|];
      rewrite Ec; simpl.
    apply index_Ok in Ec; apply nth_error_In in Ec; apply mask_In in Ec.
    destruct (take_total cutco vcut) as [cs E2];
      [intros c Hc; rewrite Lco; eapply vcuts_cells; eauto|].
    rewrite E2; simpl; eauto. }
  rewrite Eax; simpl.
  destruct (build_zvoid_total (List.length (zvols zn)) vds2) as [zv Ezv];
    [intros v Hv; apply Hvds; auto|].
  rewrite Ezv; simpl; eauto.
Qed.

(** What method 4 writes. *)
Lemma finish_method4 (dc : R) (minvol : fl) (self' : Zobov) (out : list message) :
  finish self 4 dc minvol vds = Ok (self', out) ->
  exists vcuts vvols,
    mapM (flatten_cells (zcell zn)) vds = Ok vcuts /\
    mapM (void_volume (volumes ts)) vcuts = Ok vvols /\
    minrad self' = Some (median (map effective_radius vvols)) /\
    vrads self' =
      Some (filter (fun r => gtb r (median (map effective_radius vvols)))
                   (map effective_radius vvols)) /\
    prevoids self' = prevoids self /\
    hasattr (vcens self') = true /\ hasattr (vaxes self') = true /\
    hasattr (zvoid self') = true.
Proof.
  unfold finish; rewrite Hzn; simpl.
  destruct (mapM (flatten_cells (zcell zn)) vds) as [vcuts|] eqn:E1; simpl;
    try discriminate.
  rewrite Hct; simpl.
  destruct (gcut ct) as [g|]; simpl; try discriminate.
  destruct (take (coord ct) g) as [cutco|]; simpl; try discriminate.
  rewrite Hts; simpl.
  destruct (mapM (void_volume (volumes ts)) vcuts) as [vvols|] eqn:E2; simpl;
    try discriminate.
  destruct (mapM _ (mask _ vcuts)) as [vcens1|]; simpl; try discriminate.
  destruct (mapM _ (seq 0 _)) as [vaxes2|]; simpl; try discriminate.
  destruct (build_zvoid _ _) as [zv|]; simpl; try discriminate.
  intros [= <- <-]; simpl.
  exists vcuts, vvols; rewrite mask_map_filter; repeat split; trivial.
Qed.

End Finish.

Lemma sortVoids_method4 (self : Zobov) (zn : Zones) (minsig dc : R) :
  zones self = Some zn ->
  sortVoids self 4 minsig dc =
  match finish self 4 dc NaN (select_zones zn) with
  | Ok (self', out) => Returned self' out
  | Err e => Raised e
  end.
Proof.
  intros Hzn; unfold sortVoids, candidates; rewrite Hzn.
  destruct (prevoids self); simpl; trivial.
Qed.

Lemma select_zones_bound (zn : Zones) (v : list nat) :
  In v (select_zones zn) -> forall z, In z v -> z < List.length (zvols zn).
Proof.
  unfold select_zones; intros Hv z Hz.
  apply in_map_iff in Hv; destruct Hv as [z' [<- Hz']].
  destruct Hz as [<-|[]]; apply in_seq in Hz'; lia.
Qed.

(** Method 4 on the stages up to the zones: the run returns, [minrad] is
    the median of the radii of all zones, and the radii kept are those
    strictly above it. *)
Lemma method4_run (self : Zobov) (ct : Catalog) (ts : Tesselation) (zn : Zones)
    (minsig dc : R) :
  catalog self = Some ct -> tesselation self = Some ts -> zones self = Some zn ->
  stages_ok ct ts zn ->
  exists self' out radii,
    sortVoids self 4 minsig dc = Returned self' out /\
    zone_radii zn ts = Ok radii /\
    minrad self' = Some (median radii) /\
    vrads self' = Some (filter (fun r => gtb r (median radii)) radii) /\
    prevoids self' = prevoids self /\
    hasattr (vcens self') = true /\ hasattr (vaxes self') = true /\
    hasattr (zvoid self') = true.
Proof.
  intros Hct Hts Hzn Hok.
  destruct (finish_total self ct ts zn Hct Hts Hzn Hok (select_zones zn)
              (select_zones_bound zn) 4%Z dc NaN) as [self' [out E]]; auto.
  rewrite (sortVoids_method4 self zn) by trivial; rewrite E.
  destruct (finish_method4 self ct ts zn Hct Hts Hzn _ _ _ _ _ E)
    as [vcuts [vvols [E1 [E2 H]]]].
  exists self', out, (map effective_radius vvols); split; trivial.
  split; [|exact H].
  unfold zone_radii; rewrite E1; simpl; rewrite E2; reflexivity.
Qed.

(** C3 (as amended).  Method 4 on well-formed stages: the run returns;
    [minrad] is set to the median of the effective radii of all candidates
    before any is removed; the radii that are kept are exactly those
    strictly greater than that median, so every emitted void has a radius
    greater than or equal to the median, and a candidate whose radius equals
    the median is removed. *)
Theorem method4_median_strict (self : Zobov) (ct : Catalog) (ts : Tesselation)
    (zn : Zones) (minsig dc : R) :
  catalog self = Some ct -> tesselation self = Some ts -> zones self = Some zn ->
  stages_ok ct ts zn ->
  exists self' out radii kept,
    sortVoids self 4 minsig dc = Returned self' out /\
    zone_radii zn ts = Ok radii /\
    minrad self' = Some (median radii) /\
    vrads self' = Some kept /\
    (forall r, In r kept <-> In r radii /\ gtb r (median radii) = true) /\
    (forall r, In r kept -> geb r (median radii) = true) /\
    (forall r, In r radii -> r = median radii -> ~ In r kept).
Proof.
  intros Hct Hts Hzn Hok.
  destruct (method4_run self ct ts zn minsig dc Hct Hts Hzn Hok)
    as [self' [out [radii [E [Er [Em [Ev _]]]]]]].
  exists self', out, radii, (filter (fun r => gtb r (median radii)) radii).
  repeat split; trivial.
  - apply filter_In in H; tauto.
  - apply filter_In in H; tauto.
  - intros [? ?]; apply filter_In; tauto.
  - intros r Hr; apply filter_In in Hr; apply gtb_geb; tauto.
  - intros r _ -> Hr; apply filter_In in Hr.
    rewrite gtb_irrefl in Hr; destruct Hr; discriminate.
Qed.

(** C10.  Without [prevoids]: every method other than 4 returns early and
    leaves the object as it is; method 4 returns early as well when the
    zones are missing, and otherwise, on the well-formed stages of a run
    that stopped after the zones, it sorts the voids: [vrads], [vcens],
    [vaxes] and [zvoid] are set, and there still are no [prevoids]. *)
Theorem sortVoids_stage_guard (self : Zobov) (method : Z) (minsig dc : R) :
  prevoids self = None ->
  (method <> 4%Z -> sortVoids self method minsig dc = Returned self run_all_stages) /\
  (method = 4%Z -> zones self = None ->
   sortVoids self method minsig dc = Returned self run_all_stages) /\
  (forall ct ts zn,
     method = 4%Z ->
     catalog self = Some ct -> tesselation self = Some ts ->
     zones self = Some zn -> stages_ok ct ts zn ->
     exists self' out,
       sortVoids self method minsig dc = Returned self' out /\
       hasattr (vrads self') = true /\ hasattr (vcens self') = true /\
       hasattr (vaxes self') = true /\ hasattr (zvoid self') = true /\
       prevoids self' = None).
Proof.
  intros Hpv; repeat split.
  - intros Hm; unfold sortVoids; rewrite Hpv; simpl.
    destruct (Z.eqb_spec method 4); [contradiction|reflexivity].
  - intros -> Hzn; unfold sortVoids; rewrite Hpv, Hzn; reflexivity.
  - intros ct ts zn -> Hct Hts Hzn Hok.
    destruct (method4_run self ct ts zn minsig dc Hct Hts Hzn Hok)
      as [self' [out [radii [E [_ [_ [Ev [Ep [? [? ?]]]]]]]]]].
    exists self', out; rewrite Ev, Ep; repeat split; trivial.
Qed.

End WithUtil.

(** *** Concrete runs *)

Lemma one_zone_ok : stages_ok one_galaxy one_cell one_zone.
Proof.
  split; simpl; trivial.
  intros [|z] cells c Hz; [|lia]; simpl.
  intros [= <-] [<-|[]]; split; constructor.
Qed.

Lemma effective_radius_nonneg (v : R) :
  (0 <= v)%R -> effective_radius v = Fin (cbrt (v * 3 / (4 * PI))).
Proof.
  intros Hv; unfold effective_radius, pow_third.
  assert (E : Rltb (v * 3 / (4 * PI)) 0 = false); [|rewrite E; trivial].
  apply Rltb_false; pose proof PI_RGT_0.
  apply Rmult_le_pos; [lra|].
  apply Rlt_le, Rinv_0_lt_compat; lra.
Qed.

Lemma method4_median_strict_witness :
  (catalog zones_only = Some one_galaxy /\
   tesselation zones_only = Some one_cell /\
   zones zones_only = Some one_zone /\ stages_ok one_galaxy one_cell one_zone) /\
  exists self' out radii kept,
    sortVoids (U := plain_util) zones_only 4 2 (/ 5) = Returned self' out /\
    zone_radii one_zone one_cell = Ok radii /\
    minrad self' = Some (median radii) /\
    vrads self' = Some kept /\
    (forall r, In r kept <-> In r radii /\ gtb r (median radii) = true) /\
    (forall r, In r kept -> geb r (median radii) = true) /\
    (forall r, In r radii -> r = median radii -> ~ In r kept).
Proof.
  split;
    [split; [reflexivity|split; [reflexivity|split; [reflexivity|apply one_zone_ok]]]|].
  apply (method4_median_strict (U := plain_util) zones_only one_galaxy one_cell
           one_zone 2 (/ 5)); try reflexivity; apply one_zone_ok.
Defined.

(** C3, as stated, fails on the survey of one zone: the radius of the only
    candidate is the median, [minrad] is set to it, and the candidate is
    not emitted. *)
Lemma median_tie_excluded :
  exists self' out,
    sortVoids (U := plain_util) zones_only 4 2 (/ 5) = Returned self' out /\
    zone_radii one_zone one_cell = Ok [effective_radius (1 + 0)] /\
    median [effective_radius (1 + 0)] = effective_radius (1 + 0) /\
    minrad self' = Some (effective_radius (1 + 0)) /\
    vrads self' = Some [].
Proof.
  destruct (method4_run (U := plain_util) zones_only one_galaxy one_cell one_zone
              2 (/ 5) eq_refl eq_refl eq_refl one_zone_ok)
    as [self' [out [radii [E [Er [Em [Ev _]]]]]]].
  assert (Ez : zone_radii one_zone one_cell = Ok [effective_radius (1 + 0)])
    by reflexivity.
  rewrite Ez in Er; injection Er as <-.
  assert (Emed : median [effective_radius (1 + 0)] = effective_radius (1 + 0)).
  { rewrite effective_radius_nonneg by lra; reflexivity. }
  rewrite Emed in Em, Ev.
  exists self', out; repeat split; trivial.
  rewrite Ev; simpl; rewrite gtb_irrefl; trivial.
Qed.

(** C5, as stated, fails on the object with all stages: the call with
    [method=3] raises nothing, it prints and returns like any other call;
    and on the object without [prevoids] the answer to method 3 is the
    answer to method 0, which names no method. *)
Lemma method3_is_no_error :
  sortVoids (U := plain_util) all_stages 3 2 (/ 5) =
    Returned all_stages
      [Msg "Selecting void candidates..."; Msg "Method 3 coming soon"] /\
  ~ (exists e, sortVoids (U := plain_util) all_stages 3 2 (/ 5) = Raised e) /\
  sortVoids (U := plain_util) zones_only 3 2 (/ 5) =
    Returned zones_only run_all_stages /\
  sortVoids (U := plain_util) zones_only 3 2 (/ 5) =
    sortVoids (U := plain_util) zones_only 0 2 (/ 5).
Proof.
  split; [reflexivity|split; [|split; reflexivity]].
  intros [e H]; discriminate.
Qed.

Lemma sortVoids_stage_guard_witness :
  prevoids zones_only = None /\
  (((4 <> 4)%Z ->
    sortVoids (U := plain_util) zones_only 4 2 (/ 5)
    = Returned zones_only run_all_stages) /\
   (4%Z = 4%Z -> zones zones_only = None ->
    sortVoids (U := plain_util) zones_only 4 2 (/ 5)
    = Returned zones_only run_all_stages) /\
   (forall ct ts zn,
      4%Z = 4%Z ->
      catalog zones_only = Some ct -> tesselation zones_only = Some ts ->
      zones zones_only = Some zn -> stages_ok ct ts zn ->
      exists self' out,
        sortVoids (U := plain_util) zones_only 4 2 (/ 5) = Returned self' out /\
        hasattr (vrads self') = true /\ hasattr (vcens self') = true /\
        hasattr (vaxes self') = true /\ hasattr (zvoid self') = true /\
        prevoids self' = None)).
Proof.
  split; [reflexivity|].
  apply (sortVoids_stage_guard (U := plain_util) zones_only 4 2 (/ 5)).
  reflexivity.
Defined.

End ZobovSpec.

(** ** [combine_holes] *)

Module HoleCombineSpec.

Import HoleCombine FloatFacts ArrayFacts HoleShapes.

Local Open Scope R_scope.

#[local] Arguments ltb : simpl never.
#[local] Arguments gtb : simpl never.
#[local] Arguments leb : simpl never.
#[local] Arguments geb : simpl never.
#[local] Arguments inside : simpl never.
#[local] Arguments touches : simpl never.
#[local] Arguments overlap : simpl never.
#[local] Arguments absorbs : simpl never.

(** *** Geometry *)

Lemma separation_nonneg (a b : sphere) : 0 <= separation a b.
Proof. apply sqrt_pos. Qed.

Lemma separation_line (x1 x2 r1 r2 : R) :
  separation (mkSphere x1 0 0 r1) (mkSphere x2 0 0 r2) = Rabs (x1 - x2).
Proof.
  unfold separation; cbn [sx sy sz].
  replace ((x1 - x2) ^ 2 + (0 - 0) ^ 2 + (0 - 0) ^ 2) with (Rsqr (x1 - x2))
    by (unfold Rsqr; ring).
  apply sqrt_Rsqr_abs.
Qed.

Lemma separation_self (a : sphere) : separation a a = 0.
Proof.
  unfold separation.
  replace ((sx a - sx a) ^ 2 + (sy a - sy a) ^ 2 + (sz a - sz a) ^ 2) with 0 by ring.
  apply sqrt_0.
Qed.

Lemma cap_height_Fin (Rad r d : R) :
  d <> 0 -> cap_height Rad r d = Fin (height_real Rad r d).
Proof.
  intros Hd; unfold cap_height, height_real, div.
  assert (E : Reqb (2 * d) 0 = false) by (apply Reqb_false; lra).
  rewrite E; trivial.
Qed.

Lemma cap_volume_Fin (r h : R) :
  spherical_cap_volume r (Fin h) = Fin (cap_real r h).
Proof.
  unfold spherical_cap_volume, cap_real, sqr, sub; simpl.
  assert (E : Reqb 3 0 = false) by (apply Reqb_false; lra).
  rewrite E; trivial.
Qed.

Lemma overlap_volume_Fin (ri rm d : R) :
  d <> 0 -> overlap_volume ri rm d = Fin (overlap_real ri rm d).
Proof.
  intros Hd; unfold overlap_volume, overlap_real.
  rewrite !cap_height_Fin, !cap_volume_Fin by trivial; reflexivity.
Qed.

(** The formulas agree with the lens of two equal spheres whose centres
    are one radius apart. *)
Lemma equal_spheres_overlap (r : R) :
  r <> 0 -> overlap_real r r r = 5 * PI * r ^ 3 / 12.
Proof.
  intros Hr; unfold overlap_real, cap_real, height_real; field; trivial.
Qed.

Lemma signed_inf_cases (x : R) :
  (x = 0 /\ signed_inf x = NaN) \/ (0 < x /\ signed_inf x = PInf) \/
  (x < 0 /\ signed_inf x = NInf).
Proof.
  unfold signed_inf, Reqb, Rltb.
  destruct (Req_dec_T x 0); [tauto|].
  destruct (Rlt_dec 0 x); [tauto|].
  right; right; split; trivial; lra.
Qed.

Lemma cap_volume_PInf (r : R) : spherical_cap_volume r PInf = NInf.
Proof.
  unfold spherical_cap_volume, sqr, sub; simpl.
  destruct (signed_inf_cases PI) as [[H _]|[[_ ->]|[H _]]];
    pose proof PI_RGT_0; try lra; simpl.
  assert (E : Rltb 3 0 = false) by (apply Rltb_false; lra).
  rewrite E; trivial.
Qed.

Lemma cap_volume_NInf (r : R) : spherical_cap_volume r NInf = PInf.
Proof.
  unfold spherical_cap_volume, sqr, sub; simpl.
  destruct (signed_inf_cases PI) as [[H _]|[[_ ->]|[H _]]];
    pose proof PI_RGT_0; try lra; simpl.
  assert (E : Rltb 3 0 = false) by (apply Rltb_false; lra).
  rewrite E; trivial.
Qed.

Lemma cap_volume_NaN (r : R) : spherical_cap_volume r NaN = NaN.
Proof. reflexivity. Qed.

(** With coincident centres the division by [2*d] is a division by zero:
    the two heights are NaN, or infinities of opposite signs, and the
    overlap volume is NaN. *)
Lemma overlap_volume_coincident (ri rm : R) : overlap_volume ri rm 0 = NaN.
Proof.
  unfold overlap_volume, cap_height, div.
  assert (E : Reqb (2 * 0) 0 = true) by (apply Reqb_true; lra).
  rewrite E.
  replace ((ri - rm + 0) * (ri + rm - 0)) with (- ((rm - ri + 0) * (rm + ri - 0)))
    by ring.
  set (x := (rm - ri + 0) * (rm + ri - 0)).
  destruct (signed_inf_cases x) as [[H ->]|[[H ->]|[H ->]]];
    destruct (signed_inf_cases (- x)) as [[H' ->]|[[H' ->]|[H' ->]]];
    try lra;
    rewrite ?cap_volume_PInf, ?cap_volume_NInf, ?cap_volume_NaN; reflexivity.
Qed.

(** *** Arrays *)

Lemma combine_map {A B C : Type} (f : A -> B) (g : A -> C) (l : list A) :
  combine (map f l) (map g l) = map (fun x => (f x, g x)) l.
Proof. induction l; simpl; congruence. Qed.

Lemma any_true (bs : list bool) : any bs = true <-> In true bs.
Proof.
  unfold any; rewrite existsb_exists; split.
  - intros [b [Hb ->]]; trivial.
  - intros H; exists true; auto.
Qed.

Lemma all_true (bs : list bool) : all bs = true <-> forall b, In b bs -> b = true.
Proof. unfold all; rewrite forallb_forall; tauto. Qed.

Lemma mask_map_map {A B : Type} (f : A -> bool) (g : A -> B) (l : list A) :
  mask (map f l) (map g l) = map g (filter f l).
Proof.
  induction l as [|x l IH]; simpl; trivial.
  destruct (f x); simpl; congruence.
Qed.

Lemma mask_nil {A : Type} (bs : list bool) : mask bs (@nil A) = [].
Proof. destruct bs; trivial. Qed.

(** Two masks, one after the other, are one mask. *)
Lemma mask_mask {A B : Type} (f g : A -> bool) (l : list A) (ys : list B) :
  mask (map g (filter f l)) (mask (map f l) ys)
  = mask (map (fun x => f x && g x) l) ys.
Proof.
  revert ys; induction l as [|x l IH]; intros ys; simpl; trivial.
  destruct ys as [|y ys]; [destruct (f x); simpl; rewrite ?mask_nil; trivial|].
  destruct (f x); simpl; [destruct (g x)|]; rewrite IH; trivial.
Qed.

Lemma count_true_filter {A : Type} (f g : A -> bool) (l : list A) :
  count_true (map g (filter f l))
  = List.length (filter (fun x => f x && g x) l).
Proof.
  unfold count_true; induction l as [|x l IH]; simpl; trivial.
  destruct (f x); simpl; [destruct (g x); simpl|]; rewrite IH; trivial.
Qed.

Lemma mask_map_length {A B : Type} (h : A -> bool) (l : list A) (ys : list B) :
  List.length ys = List.length l ->
  List.length (mask (map h l) ys) = List.length (filter h l).
Proof.
  revert ys; induction l as [|x l IH]; intros [|y ys]; simpl;
    try discriminate; trivial.
  intros [= H]; destruct (h x); simpl; rewrite IH; trivial.
Qed.

(** The positions kept by a mask. *)
Lemma mask_seq_In {A : Type} (h : A -> bool) (l : list A) (s k : nat) :
  In k (mask (map h l) (seq s (List.length l))) <->
  (s <= k)%nat /\ exists x, nth_error l (k - s) = Some x /\ h x = true.
Proof.
  revert s; induction l as [|x l IH]; intros s; simpl.
  - split; [tauto|]; intros [_ [x [H _]]]; destruct (k - s)%nat; discriminate.
  - assert (Hrec : In k (mask (map h l) (seq (S s) (List.length l))) <->
                   (s < k)%nat /\ exists x0, nth_error (x :: l) (k - s) = Some x0 /\ h x0 = true).
    { rewrite IH; split; intros [Hk [x0 [Hx Hh]]]; split; try lia; exists x0;
        split; trivial.
      - replace (k - s)%nat with (S (k - S s)) by lia; trivial.
      - replace (k - s)%nat with (S (k - S s)) in Hx by lia; trivial. }
    destruct (h x) eqn:Hx; simpl; rewrite Hrec.
    + split.
      * intros [<-|[Hk H]]; [|split; [lia|trivial]].
        split; [lia|]; exists x; rewrite Nat.sub_diag; auto.
      * intros [Hk [x0 [Hn Hh]]].
        destruct (Nat.eq_dec s k) as [->|Hne]; auto.
        right; split; [lia|eauto].
    + split; [intros [Hk H]; split; [lia|trivial]|].
      intros [Hk [x0 [Hn Hh]]]; split; [|eauto].
      destruct (Nat.eq_dec s k) as [->|Hne]; [|lia].
      rewrite Nat.sub_diag in Hn; simpl in Hn; congruence.
Qed.

Lemma mask_NoDup {A : Type} (bs : list bool) (l : list A) :
  NoDup l -> NoDup (mask bs l).
Proof.
  revert l; induction bs as [|b bs IH]; intros [|x l] H; simpl;
    try constructor.
  inversion H as [|? ? Hx Hl]; subst.
  destruct b; [constructor|]; auto.
  intros Hin; apply Hx; eapply mask_In; eauto.
Qed.

Lemma NoDup_all_equal {A : Type} (l : list A) (k : A) :
  NoDup l -> (forall x, In x l -> x = k) -> (List.length l <= 1)%nat.
Proof.
  intros Hd Hk; destruct l as [|x [|y l]]; simpl; try lia.
  inversion Hd as [|? ? Hx _]; subst.
  exfalso; apply Hx; rewrite (Hk x), (Hk y); simpl; auto.
Qed.

Lemma nth_set_at_same {A : Type} (i : nat) (v d : A) (l : list A) :
  (i < List.length l)%nat -> nth i (set_at i v l) d = v.
Proof.
  revert i; induction l as [|x l IH]; intros [|i]; simpl; try lia; trivial.
  intros H; apply IH; lia.
Qed.

Lemma nth_set_at_other {A : Type} (i j : nat) (v d : A) (l : list A) :
  i <> j -> nth j (set_at i v l) d = nth j l d.
Proof.
  revert i j; induction l as [|x l IH]; intros [|i] [|j]; simpl;
    try congruence; trivial.
  intros H; apply IH; congruence.
Qed.

Section Tables.

Variable t : list sphere.
Variable frac : R.

Local Abbreviation mx := maximal_spheres_indices.

Lemma inside_any_map (l : list nat) (i : nat) :
  inside_any t l i = any (map (fun m => inside t m i) l).
Proof.
  unfold inside_any, maximal_radii, separations.
  rewrite combine_map, map_map; reflexivity.
Qed.

Lemma overlap_boolean_map (l : list nat) (i : nat) :
  overlap_boolean t l i = map (fun m => touches t m i) l.
Proof.
  unfold overlap_boolean, maximal_radii, separations.
  rewrite combine_map, map_map; reflexivity.
Qed.

Lemma inside_any_true (l : list nat) (i : nat) :
  inside_any t l i = true <-> exists m, In m l /\ inside t m i = true.
Proof.
  rewrite inside_any_map, any_true, in_map_iff.
  split; intros [m [H1 H2]]; exists m; auto.
Qed.

Lemma inside_any_false (l : list nat) (i : nat) :
  inside_any t l i = false <-> forall m, In m l -> inside t m i = false.
Proof.
  destruct (inside_any t l i) eqn:E.
  - apply inside_any_true in E; destruct E as [m [Hm Hi]].
    split; [discriminate|]; intros H; rewrite (H m Hm) in Hi; discriminate.
  - split; trivial; intros _ m Hm.
    destruct (inside t m i) eqn:Ei; trivial.
    assert (inside_any t l i = true) by (apply inside_any_true; eauto).
    congruence.
Qed.

Lemma overlap_volumes_map (l : list nat) (i : nat) :
  overlap_volumes t l i
  = map (fun m => overlap t m i) (filter (fun m => touches t m i) l).
Proof.
  unfold overlap_volumes, cap_args; rewrite overlap_boolean_map.
  unfold maximal_radii, separations.
  rewrite combine_map, mask_map_map, map_map; reflexivity.
Qed.

(** The two loop bodies, test by test. *)
Lemma select_step_eval (st : selection) (i : nat) :
  select_step t frac st i =
  if any (map (fun m => inside t m i) (mx st)) then st
  else if any (map (fun m => touches t m i) (mx st)) then
    if all (map (fun m => leb (overlap t m i) (Fin (frac * volume (rad t i))))
                (filter (fun m => touches t m i) (mx st)))
    then accept st i else st
  else accept st i.
Proof.
  unfold select_step.
  rewrite inside_any_map, overlap_boolean_map, overlap_volumes_map, map_map.
  reflexivity.
Qed.

Lemma assign_step_eval (st : selection) (a : assignment) (i : nat) :
  assign_step t st a i =
  if existsb (Nat.eqb i) (mx st) then
    set_flag i (mask (map (fun m => Nat.eqb m i) (mx st)) (maximal_flags st)) a
  else if any (map (fun m => inside t m i) (mx st)) then Some a
  else if any (map (fun m => touches t m i) (mx st)) then
    if Nat.eqb (List.length (filter (fun m => absorbs t m i) (mx st))) 1 then
      set_flag i
        (map (fun k => nth k (maximal_flags st) 0%Z)
             (mask (map (fun m => absorbs t m i) (mx st)) (seq 0 (N_voids st))))
        (mkAssignment (flag a) (N_holes a + 1) (holes_indices a ++ [i]))
    else Some a
  else Some a.
Proof.
  unfold assign_step.
  rewrite inside_any_map, overlap_boolean_map, overlap_volumes_map, map_map.
  rewrite (count_true_filter (fun m => touches t m i)
             (fun m => gtb (overlap t m i) (Fin (0.5 * volume (rad t i))))).
  rewrite (mask_mask (fun m => touches t m i)
             (fun m => gtb (overlap t m i) (Fin (0.5 * volume (rad t i))))).
  reflexivity.
Qed.

(** *** Phase 1 *)

Lemma select_step_cases (st : selection) (i : nat) :
  select_step t frac st i = st \/
  (select_step t frac st i = accept st i /\
   inside_any t (mx st) i = false).
Proof.
  unfold select_step.
  destruct (inside_any t (mx st) i); auto.
  destruct (any _); auto.
  destruct (all _); auto.
Qed.

(** The indices selected are those of the start and steps of the loop. *)
Lemma select_loop_subset (l : list nat) (st : selection) (x : nat) :
  In x (mx (fold_left (select_step t frac) l st)) -> In x (mx st) \/ In x l.
Proof.
  revert st; induction l as [|i l IH]; simpl; intros st H; auto.
  destruct (IH _ H) as [H1|H1]; auto.
  destruct (select_step_cases st i) as [E|[E _]]; rewrite E in H1; auto.
  simpl in H1; apply in_app_or in H1; destruct H1 as [H1|[<-|[]]]; auto.
Qed.

Lemma select_loop_keeps (l : list nat) (st : selection) (x : nat) :
  In x (mx st) -> In x (mx (fold_left (select_step t frac) l st)).
Proof.
  revert st; induction l as [|i l IH]; simpl; intros st H; auto.
  apply IH.
  destruct (select_step_cases st i) as [E|[E _]]; rewrite E; auto.
  simpl; apply in_or_app; auto.
Qed.

Lemma select_step_ok (s : nat) (st : selection) :
  selection_ok s st -> selection_ok (S s) (select_step t frac st s).
Proof.
  intros [Hn [Hd Hb]].
  destruct (select_step_cases st s) as [E|[E _]]; rewrite E.
  - split; [trivial|split; [trivial|]].
    intros m Hm; specialize (Hb m Hm); lia.
  - unfold accept; split; [|split]; simpl.
    + rewrite length_app; simpl; lia.
    + apply NoDup_app; trivial; [repeat constructor; simpl; tauto|].
      intros m Hm [Hs|[]]; specialize (Hb m Hm); lia.
    + intros m Hm; apply in_app_or in Hm; destruct Hm as [Hm|[Hs|[]]];
        [specialize (Hb m Hm)|]; lia.
Qed.

Lemma select_loop_ok (n s : nat) (st : selection) :
  selection_ok s st ->
  selection_ok (s + n) (fold_left (select_step t frac) (seq s n) st).
Proof.
  revert s st; induction n as [|n IH]; simpl; intros s st H.
  - rewrite Nat.add_0_r; trivial.
  - replace (s + S n)%nat with (S s + n)%nat by lia.
    apply IH, select_step_ok; trivial.
Qed.

Lemma select_maximal_ok :
  exists bound, selection_ok bound (select_maximal t frac).
Proof.
  eexists; unfold select_maximal; apply select_loop_ok.
  split; [reflexivity|split]; simpl; [repeat constructor; simpl; tauto|].
  intros m [<-|[]]; lia.
Qed.

(** The largest sphere is a maximal sphere, whatever its radius. *)
Lemma first_is_maximal : In 0%nat (mx (select_maximal t frac)).
Proof. apply select_loop_keeps; simpl; auto. Qed.

(** In a table sorted by descending radius the spheres above the
    threshold come first. *)
Lemma filter_prefix {A : Type} (p : A -> bool) (d : A) (l : list A) :
  forall m, (forall j, (m <= j < List.length l)%nat -> p (nth j l d) = false) ->
  (List.length (filter p l) <= m)%nat.
Proof.
  induction l as [|x l IH]; intros m H; simpl; [lia|].
  destruct m as [|m].
  - assert (H0 : p x = false) by (apply (H 0%nat); simpl; lia).
    rewrite H0.
    apply IH; intros j Hj; apply (H (S j)); simpl; lia.
  - assert (List.length (filter p l) <= m)%nat.
    { apply IH; intros j Hj; apply (H (S j)); simpl; lia. }
    destruct (p x); simpl; lia.
Qed.

Lemma count_true_map {A : Type} (p : A -> bool) (l : list A) :
  count_true (map p l) = List.length (filter p l).
Proof.
  unfold count_true; induction l as [|x l IH]; simpl; trivial.
  destruct (p x); simpl; rewrite IH; trivial.
Qed.

Lemma large_spheres_first (m : nat) :
  descending t -> (m < N_large_spheres t)%nat -> 10 < rad t m.
Proof.
  intros Hsorted Hm.
  destruct (Rlt_le_dec 10 (rad t m)) as [H|H]; trivial.
  exfalso; unfold N_large_spheres, large_spheres_boolean in Hm.
  rewrite count_true_map in Hm.
  assert (List.length (filter (fun s => Rgtb (radius s) 10) t) <= m)%nat; [|lia].
  apply (filter_prefix _ origin); intros j Hj.
  apply Rgtb_false; specialize (Hsorted m j Hj); unfold rad, row in *; lra.
Qed.

(** X9.  What holds of the threshold: on a table sorted by descending
    radius, every maximal sphere but the first has a radius above 10. *)
Lemma seeds_above_threshold (m : nat) :
  descending t -> In m (maximal t frac) -> m = 0%nat \/ 10 < rad t m.
Proof.
  intros Hsorted Hm; unfold maximal, select_maximal in Hm.
  apply select_loop_subset in Hm; simpl in Hm.
  destruct Hm as [[Hm|[]]|Hm]; auto.
  right; apply large_spheres_first; trivial.
  apply in_seq in Hm; lia.
Qed.

(** A maximal sphere was not strictly inside any maximal sphere selected
    before it. *)
Lemma selected_not_inside (n s : nat) (st : selection) (a b : nat) :
  (forall m, In m (mx st) -> (m < s)%nat) ->
  In a (mx (fold_left (select_step t frac) (seq s n) st)) ->
  In b (mx (fold_left (select_step t frac) (seq s n) st)) ->
  (a < b)%nat -> (s <= b)%nat -> inside t a b = false.
Proof.
  revert s st; induction n as [|n IH]; simpl; intros s st Hb Ha Hbb Hab Hsb.
  - specialize (Hb b Hbb); lia.
  - assert (Hb1 : forall m, In m (mx (select_step t frac st s)) -> (m < S s)%nat).
    { intros m Hm.
      destruct (select_step_cases st s) as [E|[E _]]; rewrite E in Hm;
        [specialize (Hb m Hm); lia|].
      simpl in Hm; apply in_app_or in Hm; destruct Hm as [Hm|[Hs|[]]];
        [specialize (Hb m Hm)|]; lia. }
    destruct (Nat.eq_dec b s) as [->|Hne]; [|eapply IH; eauto; lia].
    apply select_loop_subset in Ha, Hbb.
    destruct Ha as [Ha|Ha]; [|apply in_seq in Ha; lia].
    destruct Hbb as [Hbb|Hbb]; [|apply in_seq in Hbb; lia].
    destruct (select_step_cases st s) as [E|[E Hin]]; rewrite E in Ha, Hbb.
    + specialize (Hb s Hbb); lia.
    + simpl in Ha; apply in_app_or in Ha; destruct Ha as [Ha|[<-|[]]]; [|lia].
      apply (proj1 (inside_any_false _ _) Hin); trivial.
Qed.

(** *** Phase 2 *)

Lemma maximal_flags_length (st : selection) :
  List.length (maximal_flags st) = N_voids st.
Proof. unfold maximal_flags; rewrite length_map, length_seq; trivial. Qed.

Lemma maximal_flags_nth (st : selection) (k : nat) :
  (k < N_voids st)%nat -> nth k (maximal_flags st) 0%Z = (Z.of_nat k + 1)%Z.
Proof.
  intros Hk; unfold maximal_flags.
  rewrite (nth_indep _ 0%Z (Z.of_nat 0 + 1)%Z)
    by (rewrite length_map, length_seq; trivial).
  exact (eq_trans (map_nth (fun k => (Z.of_nat k + 1)%Z) _ 0%nat k)
           (f_equal (fun k => (Z.of_nat k + 1)%Z) (@seq_nth (N_voids st) 0 k 0%nat Hk))).
Qed.

Lemma filter_eqb_absent (l : list nat) (i : nat) :
  ~ In i l -> filter (fun m => Nat.eqb m i) l = [].
Proof.
  induction l as [|x l IH]; simpl; trivial; intros H.
  destruct (Nat.eqb_spec x i) as [->|_]; [tauto|apply IH; tauto].
Qed.

Lemma filter_eqb_once (l : list nat) (i : nat) :
  NoDup l -> In i l -> List.length (filter (fun m => Nat.eqb m i) l) = 1%nat.
Proof.
  induction l as [|x l IH]; simpl; [tauto|]; intros Hd Hin.
  inversion Hd as [|? ? Hx Hl]; subst.
  destruct (Nat.eqb_spec x i) as [->|Hne]; simpl.
  - rewrite filter_eqb_absent; trivial.
  - apply IH; trivial; destruct Hin; [contradiction|trivial].
Qed.

Lemma length_one {A : Type} (l : list A) :
  List.length l = 1%nat -> exists x, l = [x].
Proof. destruct l as [|x [|y l]]; try discriminate; eauto. Qed.

Lemma own_flag (bound : nat) (st : selection) (i : nat) :
  selection_ok bound st -> In i (mx st) ->
  exists v, mask (map (fun m => Nat.eqb m i) (mx st)) (maximal_flags st) = [v].
Proof.
  intros [Hn [Hd _]] Hi; apply length_one.
  rewrite mask_map_length by (rewrite maximal_flags_length; trivial).
  apply filter_eqb_once; trivial.
Qed.

(** The positions of the maximal spheres that absorb [i]. *)
Lemma absorbers_In (st : selection) (i k : nat) :
  N_voids st = List.length (mx st) ->
  In k (mask (map (fun m => absorbs t m i) (mx st)) (seq 0 (N_voids st))) <->
  exists m, nth_error (mx st) k = Some m /\ absorbs t m i = true.
Proof.
  intros ->; rewrite mask_seq_In, Nat.sub_0_r; split.
  - intros [_ H]; exact H.
  - intros H; split; [lia|exact H].
Qed.

Lemma assign_step_spec (bound : nat) (st : selection) (a : assignment) (i : nat) :
  selection_ok bound st -> (i < List.length (flag a))%nat ->
  exists a',
    assign_step t st a i = Some a' /\
    List.length (flag a') = List.length (flag a) /\
    (forall j, j <> i -> nth j (flag a') (-1)%Z = nth j (flag a) (-1)%Z) /\
    ((exists k, hole_of t (mx st) i k /\
                holes_indices a' = holes_indices a ++ [i] /\
                nth i (flag a') (-1)%Z = (Z.of_nat k + 1)%Z) \/
     ((forall k, ~ hole_of t (mx st) i k) /\
      holes_indices a' = holes_indices a)).
Proof.
  intros Hok Hi; pose proof Hok as [Hn [Hd _]].
  rewrite assign_step_eval.
  destruct (existsb (Nat.eqb i) (mx st)) eqn:Emax.
  { apply existsb_exists in Emax; destruct Emax as [m [Hm Em]].
    apply Nat.eqb_eq in Em; subst m.
    destruct (own_flag bound st i Hok Hm) as [v ->]; simpl.
    eexists; split; [reflexivity|]; simpl.
    split; [apply set_at_length|].
    split; [intros j Hj; apply nth_set_at_other; congruence|].
    right; split; trivial.
    intros k [Hnot _]; contradiction. }
  assert (Hnot : ~ In i (mx st)).
  { intros Hin; assert (existsb (Nat.eqb i) (mx st) = true); [|congruence].
    apply existsb_exists; exists i; split; trivial; apply Nat.eqb_refl. }
  rewrite <- inside_any_map.
  destruct (inside_any t (mx st) i) eqn:Ein.
  { exists a; repeat split; trivial.
    right; split; trivial.
    intros k [_ [H _]]; congruence. }
  destruct (any (map (fun m => touches t m i) (mx st))) eqn:Et.
  2:{ exists a; repeat split; trivial.
      right; split; trivial.
      intros k [_ [_ [[m [Hk Ha]] _]]].
      assert (any (map (fun m => touches t m i) (mx st)) = true); [|congruence].
      apply any_true, in_map_iff; exists m; split; [|eapply nth_error_In; eauto].
      unfold absorbs in Ha; apply andb_prop in Ha; tauto. }
  set (L := mask (map (fun m => absorbs t m i) (mx st)) (seq 0 (N_voids st))).
  assert (HL : List.length L = List.length (filter (fun m => absorbs t m i) (mx st))).
  { apply mask_map_length; rewrite length_seq; trivial. }
  destruct (Nat.eqb_spec (List.length (filter (fun m => absorbs t m i) (mx st))) 1)
    as [E1|E1].
  - rewrite <- HL in E1; destruct (length_one _ E1) as [k Ek].
    rewrite Ek; simpl.
    assert (Hk : exists m, nth_error (mx st) k = Some m /\ absorbs t m i = true).
    { apply absorbers_In; trivial; fold L; rewrite Ek; simpl; auto. }
    eexists; split; [reflexivity|]; simpl.
    split; [apply set_at_length|].
    split; [intros j Hj; apply nth_set_at_other; congruence|].
    left; exists k; split; [|split; trivial].
    + split; [trivial|split; [trivial|split; [trivial|]]].
      intros k' m' Hk' Ha'.
      assert (Hin : In k' L) by (apply absorbers_In; eauto).
      rewrite Ek in Hin; destruct Hin as [<-|[]]; trivial.
    + rewrite nth_set_at_same by trivial.
      apply maximal_flags_nth.
      destruct Hk as [m [Hk _]]; apply nth_error_lt in Hk; lia.
  - exists a; repeat split; trivial.
    right; split; trivial.
    intros k [_ [_ [Hex Huniq]]]; apply E1; rewrite <- HL.
    assert (Hin : In k L) by (apply absorbers_In; trivial).
    assert (Hle : (List.length L <= 1)%nat).
    { apply (NoDup_all_equal L k); [apply mask_NoDup, seq_NoDup|].
      intros k' Hk'; apply absorbers_In in Hk'; trivial.
      destruct Hk' as [m' [Hk' Ha']]; eauto. }
    destruct L; simpl in *; [tauto|lia].
Qed.

Lemma assign_loop_spec (bound : nat) (st : selection) (idxs : list nat) :
  selection_ok bound st -> NoDup idxs ->
  forall a, (forall i, In i idxs -> (i < List.length (flag a))%nat) ->
  exists a',
    assign_loop t st idxs a = Some a' /\
    List.length (flag a') = List.length (flag a) /\
    (forall j, ~ In j idxs -> nth j (flag a') (-1)%Z = nth j (flag a) (-1)%Z) /\
    (forall i, In i (holes_indices a') <->
       In i (holes_indices a) \/ (In i idxs /\ exists k, hole_of t (mx st) i k)) /\
    (forall i k, In i idxs -> hole_of t (mx st) i k ->
       nth i (flag a') (-1)%Z = (Z.of_nat k + 1)%Z).
Proof.
  intros Hok; induction idxs as [|i idxs IH]; intros Hd a Hlen; simpl.
  - exists a; repeat split; trivial; tauto.
  - inversion Hd as [|? ? Hi Hd']; subst.
    destruct (assign_step_spec bound st a i Hok (Hlen i (or_introl eq_refl)))
      as [a1 [E1 [L1 [F1 H1]]]].
    rewrite E1.
    destruct (IH Hd' a1) as [a' [E' [L' [F' [Hh' Hf']]]]].
    { intros j Hj; rewrite L1; apply Hlen; simpl; auto. }
    exists a'; split; [trivial|]; split; [congruence|].
    assert (Hflag_i : nth i (flag a') (-1)%Z = nth i (flag a1) (-1)%Z)
      by (apply F'; trivial).
    split; [|split].
    + intros j Hj; rewrite F' by tauto; apply F1; intros ->; apply Hj; auto.
    + intros x; rewrite Hh'.
      destruct H1 as [[k [Hk [Hx _]]]|[Hno Hx]]; rewrite Hx.
      * rewrite in_app_iff; simpl; split.
        -- intros [[H|[<-|[]]]|[H1 H2]]; eauto.
        -- intros [H|[[<-|H1] H2]]; eauto.
      * split.
        -- intros [H|[H1 H2]]; auto.
        -- intros [H|[[Heq|H1] [k Hk]]];
             [auto|subst; exfalso; eapply Hno; eauto|right; eauto].
    + intros x k [<-|Hx] Hk; [|eauto].
      rewrite Hflag_i.
      destruct H1 as [[k' [Hk' [_ Hfl]]]|[Hno _]]; [|exfalso; eapply Hno; eauto].
      rewrite Hfl; f_equal; f_equal.
      destruct Hk as [_ [_ [[m [Hm Ha]] _]]], Hk' as [_ [_ [_ Hu]]].
      symmetry; eauto.
Qed.

Lemma holes_assigned :
  exists a,
    assign_holes t (select_maximal t frac) = Some a /\
    (forall i, In i (holes_indices a) <->
       (i < List.length t)%nat /\ exists k, hole_of t (maximal t frac) i k) /\
    (forall i k, (i < List.length t)%nat -> hole_of t (maximal t frac) i k ->
       nth i (flag a) (-1)%Z = (Z.of_nat k + 1)%Z).
Proof.
  destruct select_maximal_ok as [bound Hok].
  unfold assign_holes.
  destruct (assign_loop_spec bound _ (seq 0 (List.length t)) Hok (seq_NoDup _ _)
              (mkAssignment (map (fun _ => (-1)%Z) t) 0 []))
    as [a [E [_ [_ [Hh Hf]]]]].
  { intros i Hi; apply in_seq in Hi; simpl; rewrite length_map; lia. }
  exists a; split; [trivial|split].
  - intros i; rewrite Hh; simpl; rewrite in_seq; unfold maximal.
    split; [intros [[]|[H1 H2]]|intros [H1 H2]; right]; split; trivial; lia.
  - intros i k Hi; apply Hf; apply in_seq; lia.
Qed.

(** A table that is not empty is never rejected. *)
Lemma combine_holes_total :
  t <> [] ->
  exists a,
    assign_holes t (select_maximal t frac) = Some a /\
    combine_holes t frac =
    Some (combine (map (row t) (maximal t frac))
                  (maximal_flags (select_maximal t frac)),
          map (fun i => (row t i, nth i (flag a) (-1)%Z)) (holes_indices a)).
Proof.
  intros Ht; destruct holes_assigned as [a [E _]].
  exists a; split; trivial.
  unfold combine_holes; destruct t; [contradiction|].
  rewrite E; reflexivity.
Qed.

(** Phase 2 in terms of the test of the code.  On a table that is not
    empty, phase 2 returns; a sphere [i] that is not a maximal sphere and
    is not strictly inside one is in the hole table if and only if the
    test [absorbs] (the spheres intersect, and the code's two caps exceed
    50% of the volume of [i]) holds of exactly one maximal sphere; its
    flag is then the void id of that maximal sphere, its position in the
    selection order plus one.  With no such maximal sphere, or with more
    than one, it is not in the hole table. *)
Theorem hole_iff_one_absorber :
  t <> [] ->
  exists a,
    combine_holes t frac =
    Some (combine (map (row t) (maximal t frac))
                  (maximal_flags (select_maximal t frac)),
          map (fun i => (row t i, nth i (flag a) (-1)%Z)) (holes_indices a)) /\
    forall i,
      (i < List.length t)%nat -> ~ In i (maximal t frac) ->
      inside_any t (maximal t frac) i = false ->
      (In i (holes_indices a) <->
       exists k m,
         nth_error (maximal t frac) k = Some m /\ absorbs t m i = true /\
         forall k' m', nth_error (maximal t frac) k' = Some m' ->
                       absorbs t m' i = true -> k' = k) /\
      (forall k m,
         nth_error (maximal t frac) k = Some m -> absorbs t m i = true ->
         (forall k' m', nth_error (maximal t frac) k' = Some m' ->
                        absorbs t m' i = true -> k' = k) ->
         nth i (flag a) (-1)%Z = (Z.of_nat k + 1)%Z /\
         nth_error (maximal_flags (select_maximal t frac)) k
         = Some (Z.of_nat k + 1)%Z).
Proof.
  intros Ht.
  destruct holes_assigned as [a [E [Hh Hf]]].
  destruct (combine_holes_total Ht) as [a' [E' Hc]].
  rewrite E in E'; injection E' as <-.
  exists a; split; trivial.
  intros i Hi Hnot Hin; split.
  - rewrite Hh; split.
    + intros [_ [k [_ [_ [[m [Hm Ha]] Hu]]]]]; exists k, m; auto.
    + intros [k [m [Hm [Ha Hu]]]]; split; trivial.
      exists k; repeat split; eauto.
  - intros k m Hm Ha Hu; split.
    + apply Hf; trivial; repeat split; eauto.
    + destruct select_maximal_ok as [bound [Hn _]].
      assert (Hk : (k < N_voids (select_maximal t frac))%nat).
      { rewrite Hn; eapply nth_error_lt; eauto. }
      rewrite <- (maximal_flags_nth _ k Hk).
      apply nth_error_nth'; rewrite maximal_flags_length; trivial.
Qed.

Lemma cap_args_map (l : list nat) (i : nat) :
  cap_args t l i
  = map (fun m => (rad t m, separation (row t m) (row t i)))
        (filter (fun m => touches t m i) l).
Proof.
  unfold cap_args; rewrite overlap_boolean_map.
  unfold maximal_radii, separations.
  rewrite combine_map, mask_map_map; reflexivity.
Qed.

(** C9 (as amended).  [combine_holes] has no check for coincident centres:
    a table that is not empty is never rejected.  When the centre of sphere
    [i] is the centre of an accepted maximal sphere [m] ([d = 0]), [i] is
    not accepted as a maximal sphere, silently: if [i] is strictly smaller
    the containment test discards it; otherwise [cap_height] is evaluated
    with [d = 0], the overlap volume is NaN and the threshold test
    fails. *)
Theorem coincident_centres_silent (st : selection) (i m : nat) :
  t <> [] -> In m (mx st) ->
  separation (row t m) (row t i) = 0 -> 0 <= rad t i + rad t m ->
  (exists result, combine_holes t frac = Some result) /\
  overlap t m i = NaN /\
  select_step t frac st i = st /\
  (rad t i < rad t m -> inside_any t (mx st) i = true) /\
  (rad t m <= rad t i ->
   inside t m i = false /\ In (rad t m, 0) (cap_args t (mx st) i)).
Proof.
  intros Ht Hm Hd Hr.
  assert (Ho : overlap t m i = NaN).
  { unfold overlap; rewrite Hd; apply overlap_volume_coincident. }
  assert (Htouch : touches t m i = true).
  { apply Rleb_true; rewrite Hd; trivial. }
  split; [|split; [trivial|split; [|split]]].
  - destruct (combine_holes_total Ht) as [a [_ E]]; eauto.
  - rewrite select_step_eval.
    destruct (any (map (fun m0 => inside t m0 i) (mx st))); trivial.
    assert (Ea : any (map (fun m0 => touches t m0 i) (mx st)) = true).
    { apply any_true, in_map_iff; eauto. }
    rewrite Ea.
    destruct (all _) eqn:Eall; trivial.
    rewrite all_true in Eall.
    assert (leb (overlap t m i) (Fin (frac * volume (rad t i))) = true).
    { apply Eall, in_map_iff; exists m; split; trivial.
      apply filter_In; auto. }
    rewrite Ho, leb_NaN_l in H; discriminate.
  - intros Hlt; apply inside_any_true; exists m; split; trivial.
    apply Rgtb_true; rewrite Hd; lra.
  - intros Hle; split; [apply Rgtb_false; rewrite Hd; lra|].
    rewrite cap_args_map, in_map_iff; exists m; rewrite Hd; split; trivial.
    apply filter_In; auto.
Qed.

(** C7 (as amended).  In a table sorted by descending radius, a sphere B
    that lies strictly inside a sphere A ([d + rB < rA]) is not a maximal
    sphere whenever A itself is one. *)
Theorem inside_maximal_not_maximal (a b : nat) :
  descending t -> (a < List.length t)%nat ->
  In a (maximal t frac) ->
  separation (row t a) (row t b) + rad t b < rad t a ->
  ~ In b (maximal t frac).
Proof.
  unfold maximal; intros Hsorted Ha Hmax Hin Hb.
  pose proof (separation_nonneg (row t a) (row t b)) as Hd.
  assert (Hab : (a < b)%nat).
  { destruct (Nat.lt_ge_cases a b) as [H|H]; trivial.
    specialize (Hsorted b a (conj H Ha)); lra. }
  assert (E : inside t a b = false).
  { unfold select_maximal in Hmax, Hb.
    eapply selected_not_inside; eauto; [|lia].
    simpl; intros m [<-|[]]; lia. }
  apply Rgtb_false in E; lra.
Qed.

End Tables.

(** *** Tangent spheres *)

Lemma volume_pos (r : R) : 0 < r -> 0 < volume r.
Proof.
  intros Hr; unfold volume; pose proof PI_RGT_0.
  assert (0 < r ^ 3) by (apply pow_lt; trivial).
  apply Rmult_lt_0_compat; trivial; lra.
Qed.

(** Externally tangent spheres of equal radius have no overlap volume. *)
Lemma tangent_overlap (r : R) : 0 < r -> overlap_real r r (r + r) = 0.
Proof.
  intros Hr; unfold overlap_real.
  assert (E : height_real r r (r + r) = 0) by (unfold height_real; field; lra).
  rewrite E; unfold cap_real; field.
Qed.

Lemma tangent_pair (t : list sphere) (m i : nat) (r : R) :
  rad t m = r -> rad t i = r ->
  separation (row t m) (row t i) = r + r -> 10 < r ->
  inside t m i = false /\ touches t m i = true /\
  leb (overlap t m i) (Fin (0.1 * volume (rad t i))) = true.
Proof.
  intros Hm Hi Hd Hr; unfold inside, touches, overlap; rewrite Hm, Hi, Hd.
  split; [apply Rgtb_false; lra|split; [apply Rleb_true; lra|]].
  rewrite overlap_volume_Fin by lra.
  apply Rleb_true; rewrite tangent_overlap by lra.
  pose proof (volume_pos r); lra.
Qed.

(** C8.  Three spheres of one radius above 10, each at distance [r + r]
    from the two others, with [frac = 0.1]: all three are maximal spheres,
    with flags 1, 2 and 3, and the hole table is empty. *)
Theorem tangent_triple (s0 s1 s2 : sphere) (r : R) :
  radius s0 = r -> radius s1 = r -> radius s2 = r -> 10 < r ->
  separation s0 s1 = r + r -> separation s0 s2 = r + r ->
  separation s1 s2 = r + r ->
  combine_holes [s0; s1; s2] 0.1
  = Some ([(s0, 1%Z); (s1, 2%Z); (s2, 3%Z)], []).
Proof.
  intros H0 H1 H2 Hr D01 D02 D12.
  set (t := [s0; s1; s2]).
  assert (EN : N_large_spheres t = 3%nat).
  { unfold N_large_spheres, large_spheres_boolean; simpl.
    rewrite H0, H1, H2, (proj2 (Rgtb_true r 10)) by lra; reflexivity. }
  destruct (tangent_pair t 0 1 r H0 H1 D01 Hr) as [I01 [T01 O01]].
  destruct (tangent_pair t 0 2 r H0 H2 D02 Hr) as [I02 [T02 O02]].
  destruct (tangent_pair t 1 2 r H1 H2 D12 Hr) as [I12 [T12 O12]].
  unfold combine_holes, assign_holes, select_maximal; fold t; rewrite EN.
  change (seq 1 (3 - 1)) with [1%nat; 2%nat]; cbn [fold_left].
  rewrite (select_step_eval t 0.1 _ 1); cbn -[t select_step].
  rewrite I01, T01; cbn -[t select_step].
  rewrite O01; cbn -[t select_step].
  rewrite (select_step_eval t 0.1 _ 2); cbn -[t select_step].
  rewrite I02, I12, T02, T12; cbn -[t select_step].
  rewrite O02, O12; cbn -[t select_step].
  reflexivity.
Qed.

(** *** Concrete tables *)

(** C1, at a table whose largest sphere has radius 5: no sphere is above
    the seed threshold of 10, and the sphere is returned as the maximal
    sphere of void 1. *)
Theorem small_sphere_is_maximal (frac : R) :
  N_large_spheres [small_sphere] = 0%nat /\
  radius small_sphere <= 10 /\
  combine_holes [small_sphere] frac = Some ([(small_sphere, 1%Z)], []).
Proof.
  assert (EN : N_large_spheres [small_sphere] = 0%nat).
  { unfold N_large_spheres, large_spheres_boolean; simpl.
    rewrite (proj2 (Rgtb_false 5 10)) by lra; reflexivity. }
  split; [trivial|split; [simpl; lra|]].
  unfold combine_holes, assign_holes, select_maximal; rewrite EN; simpl.
  reflexivity.
Qed.

Lemma twins_inside : inside twins 0 1 = false.
Proof.
  apply Rgtb_false; unfold rad, row; simpl.
  rewrite separation_self; lra.
Qed.

Lemma twins_touches : touches twins 0 1 = true.
Proof.
  apply Rleb_true; unfold rad, row; simpl.
  rewrite separation_self; lra.
Qed.

Lemma twins_overlap : overlap twins 0 1 = NaN.
Proof.
  unfold overlap, row; simpl; rewrite separation_self.
  apply overlap_volume_coincident.
Qed.

(** C9, as stated, fails on two copies of one sphere of radius 11: the
    second copy is not strictly inside the first, [cap_height] is evaluated
    for it with [d = 0], and the call returns a result. *)
Lemma coincident_centres_accepted :
  inside_any twins [0%nat] 1 = false /\
  cap_args twins [0%nat] 1 = [(11, 0)] /\
  combine_holes twins (/ 10) = Some ([(seed, 1%Z)], []).
Proof.
  assert (EN : N_large_spheres twins = 2%nat).
  { unfold N_large_spheres, large_spheres_boolean; simpl.
    rewrite (proj2 (Rgtb_true 11 10)) by lra; reflexivity. }
  assert (Ea : absorbs twins 0 1 = false).
  { unfold absorbs; rewrite twins_overlap, gtb_NaN_l, andb_false_r; trivial. }
  split; [|split].
  - rewrite inside_any_map; simpl; rewrite twins_inside; reflexivity.
  - unfold cap_args; rewrite overlap_boolean_map; simpl.
    rewrite twins_touches; unfold rad, row; simpl.
    rewrite separation_self; reflexivity.
  - unfold combine_holes, assign_holes, select_maximal; rewrite EN.
    cbn [twins seq Nat.sub fold_left].
    rewrite select_step_eval; cbn [maximal_spheres_indices map filter].
    rewrite twins_inside, twins_touches; cbn [any existsb orb map filter].
    rewrite twins_overlap, leb_NaN_l; cbn [all forallb andb].
    change (seq 0 (List.length twins)) with [0%nat; 1%nat].
    cbn [assign_loop].
    rewrite assign_step_eval; cbn -[twins assign_step].
    rewrite assign_step_eval; cbn -[twins assign_step].
    rewrite twins_inside, twins_touches, Ea; reflexivity.
Qed.

Lemma separation_big_middle : separation big middle = 25.
Proof.
  unfold big, middle; rewrite separation_line.
  unfold Rabs; destruct (Rcase_abs _); lra.
Qed.

Lemma separation_big_outer : separation big outer = 28.
Proof.
  unfold big, outer; rewrite separation_line.
  unfold Rabs; destruct (Rcase_abs _); lra.
Qed.

Lemma separation_middle_outer : separation middle outer = 3.
Proof.
  unfold middle, outer; rewrite separation_line.
  unfold Rabs; destruct (Rcase_abs _); lra.
Qed.

Lemma nested_descending : descending nested.
Proof.
  intros i j [Hij Hj]; unfold rad, row, nested in *; simpl in Hj.
  destruct i as [|[|[|i]]], j as [|[|[|j]]]; simpl; try lia; lra.
Qed.

(** [middle] overlaps [big] by more than a tenth of its volume. *)
Lemma middle_overlap :
  leb (overlap nested 0 1) (Fin (/ 10 * volume (rad nested 1))) = false.
Proof.
  unfold overlap, rad, row; simpl.
  rewrite separation_big_middle, overlap_volume_Fin by lra.
  apply Rleb_false.
  unfold overlap_real, volume.
  replace (height_real 15 20 25) with 6 by (unfold height_real; lra).
  replace (height_real 20 15 25) with 4 by (unfold height_real; lra).
  unfold cap_real; pose proof PI_RGT_0; lra.
Qed.

(** [outer] overlaps [big] by less than a tenth of its volume. *)
Lemma outer_overlap :
  leb (overlap nested 0 2) (Fin (/ 10 * volume (rad nested 2))) = true.
Proof.
  unfold overlap, rad, row; simpl.
  rewrite separation_big_outer, overlap_volume_Fin by lra.
  apply Rleb_true.
  unfold overlap_real, volume.
  replace (height_real 11 20 28) with (111 / 56) by (unfold height_real; lra).
  replace (height_real 20 11 28) with (57 / 56) by (unfold height_real; lra).
  unfold cap_real; pose proof PI_RGT_0; nra.
Qed.

Lemma nested_maximal : maximal nested (/ 10) = [0%nat; 2%nat].
Proof.
  unfold maximal.
  assert (EN : N_large_spheres nested = 3%nat).
  { unfold N_large_spheres, large_spheres_boolean; simpl.
    rewrite (proj2 (Rgtb_true 20 10)), (proj2 (Rgtb_true 15 10)),
      (proj2 (Rgtb_true 11 10)) by lra; reflexivity. }
  assert (I1 : inside nested 0 1 = false).
  { apply Rgtb_false; unfold rad, row; simpl; rewrite separation_big_middle; lra. }
  assert (T1 : touches nested 0 1 = true).
  { apply Rleb_true; unfold rad, row; simpl; rewrite separation_big_middle; lra. }
  assert (I2 : inside nested 0 2 = false).
  { apply Rgtb_false; unfold rad, row; simpl; rewrite separation_big_outer; lra. }
  assert (T2 : touches nested 0 2 = true).
  { apply Rleb_true; unfold rad, row; simpl; rewrite separation_big_outer; lra. }
  unfold select_maximal; rewrite EN.
  change (seq 1 (3 - 1)) with [1%nat; 2%nat]; cbn [fold_left].
  rewrite (select_step_eval nested (/ 10) _ 1); cbn -[nested select_step].
  rewrite I1, T1; cbn -[nested select_step].
  rewrite middle_overlap; cbn -[nested select_step].
  rewrite (select_step_eval nested (/ 10) _ 2); cbn -[nested select_step].
  rewrite I2, T2; cbn -[nested select_step].
  rewrite outer_overlap; reflexivity.
Qed.

(** C7, as stated, fails on [nested]: [outer] lies inside [middle]
    ([3 + 11 <= 15]), and it is the second maximal sphere, because [middle]
    is not one. *)
Lemma contained_sphere_is_maximal :
  descending nested /\
  separation middle outer + radius outer <= radius middle /\
  maximal nested (/ 10) = [0%nat; 2%nat] /\
  exists holes,
    combine_holes nested (/ 10) = Some ([(big, 1%Z); (outer, 2%Z)], holes).
Proof.
  split; [apply nested_descending|].
  split; [rewrite separation_middle_outer; simpl; lra|].
  split; [apply nested_maximal|].
  destruct (combine_holes_total nested (/ 10)) as [a [_ E]]; [discriminate|].
  assert (EN : N_voids (select_maximal nested (/ 10)) = 2%nat).
  { destruct (select_maximal_ok nested (/ 10)) as [bound [Hn _]].
    rewrite Hn; fold (maximal nested (/ 10)); rewrite nested_maximal; trivial. }
  unfold maximal_flags in E; rewrite EN, nested_maximal in E.
  exists (map (fun i => (row nested i, nth i (flag a) (-1)%Z)) (holes_indices a)).
  exact E.
Qed.

(** [near] is a hole of [big]. *)
Lemma separation_big_near : separation big near = 10.
Proof.
  unfold big, near; rewrite separation_line.
  unfold Rabs; destruct (Rcase_abs _); lra.
Qed.

Lemma near_overlap :
  overlap absorbed 0 1 = Fin (overlap_real 15 20 10) /\
  2250 * PI < overlap_real 15 20 10.
Proof.
  split.
  - unfold overlap, rad, row; simpl.
    rewrite separation_big_near, overlap_volume_Fin by lra; reflexivity.
  - unfold overlap_real.
    replace (height_real 15 20 10) with (75 / 4) by (unfold height_real; lra).
    replace (height_real 20 15 10) with (25 / 4) by (unfold height_real; lra).
    unfold cap_real; pose proof PI_RGT_0; nra.
Qed.

Lemma absorbed_tests :
  inside absorbed 0 1 = false /\ touches absorbed 0 1 = true /\
  leb (overlap absorbed 0 1) (Fin (/ 10 * volume (rad absorbed 1))) = false /\
  absorbs absorbed 0 1 = true.
Proof.
  destruct near_overlap as [E H].
  assert (T : touches absorbed 0 1 = true).
  { apply Rleb_true; unfold rad, row; simpl; rewrite separation_big_near; lra. }
  split; [|split; [exact T|split]].
  - apply Rgtb_false; unfold rad, row; simpl; rewrite separation_big_near; lra.
  - rewrite E; apply Rleb_false; unfold rad, row, volume; simpl.
    pose proof PI_RGT_0; nra.
  - unfold absorbs; rewrite T, E; simpl.
    apply gtb_Fin; unfold rad, row, volume; simpl.
    pose proof PI_RGT_0; nra.
Qed.

Lemma absorbed_maximal : maximal absorbed (/ 10) = [0%nat].
Proof.
  destruct absorbed_tests as (I & T & L & _).
  unfold maximal.
  assert (EN : N_large_spheres absorbed = 2%nat).
  { unfold N_large_spheres, large_spheres_boolean; simpl.
    rewrite (proj2 (Rgtb_true 20 10)), (proj2 (Rgtb_true 15 10)) by lra;
      reflexivity. }
  unfold select_maximal; rewrite EN.
  change (seq 1 (2 - 1)) with [1%nat]; cbn [fold_left].
  rewrite (select_step_eval absorbed (/ 10) _ 1); cbn -[absorbed select_step].
  rewrite I, T; cbn -[absorbed select_step].
  rewrite L; reflexivity.
Qed.

Lemma absorbed_holes :
  combine_holes absorbed (/ 10) = Some ([(big, 1%Z)], [(near, 1%Z)]).
Proof.
  destruct absorbed_tests as (I & T & L & A).
  assert (EN : N_large_spheres absorbed = 2%nat).
  { unfold N_large_spheres, large_spheres_boolean; simpl.
    rewrite (proj2 (Rgtb_true 20 10)), (proj2 (Rgtb_true 15 10)) by lra;
      reflexivity. }
  unfold combine_holes, assign_holes, select_maximal; rewrite EN.
  cbn [absorbed seq Nat.sub fold_left].
  rewrite select_step_eval; cbn [maximal_spheres_indices map filter].
  fold absorbed.
  rewrite I, T; cbn [any existsb orb map filter].
  rewrite L; cbn [all forallb andb].
  change (seq 0 (List.length absorbed)) with [0%nat; 1%nat].
  cbn [assign_loop].
  rewrite assign_step_eval; cbn -[absorbed assign_step].
  rewrite assign_step_eval; cbn -[absorbed assign_step].
  rewrite I, T, A; reflexivity.
Qed.
Lemma engulfing_separations :
  separation (row engulfing 0) (row engulfing 1) = 42 /\
  separation (row engulfing 0) (row engulfing 2) = 43 /\
  separation (row engulfing 2) (row engulfing 1) = 1.
Proof.
  unfold row, engulfing; simpl; rewrite !separation_line.
  repeat split; unfold Rabs; destruct (Rcase_abs _); lra.
Qed.

Lemma engulfing_descending : descending engulfing.
Proof.
  intros i j [Hij Hj]; unfold rad, row, engulfing in *; simpl in Hj.
  destruct i as [|[|[|i]]], j as [|[|[|j]]]; simpl; try lia; lra.
Qed.

(** The values of the code's formula on the three pairs. *)
Lemma engulfing_overlaps :
  overlap engulfing 0 1 = Fin (4374 * PI) /\
  (exists v, overlap engulfing 0 2 = Fin v /\ v <= / 10 * volume 26) /\
  (exists v, overlap engulfing 2 1 = Fin v /\ v <= 0.5 * volume 30).
Proof.
  destruct engulfing_separations as (S01 & S02 & S21).
  pose proof PI_RGT_0 as Hpi.
  split; [|split].
  - unfold overlap; rewrite S01; unfold rad, row; simpl.
    rewrite overlap_volume_Fin by lra; f_equal.
    unfold overlap_real.
    replace (height_real 30 30 42) with 9 by (unfold height_real; lra).
    unfold cap_real; lra.
  - unfold overlap; rewrite S02; unfold rad, row; simpl.
    rewrite overlap_volume_Fin by lra; eexists; split; [reflexivity|].
    unfold overlap_real, volume.
    replace (height_real 26 30 43) with (611 / 86) by (unfold height_real; lra).
    replace (height_real 30 26 43) with (507 / 86) by (unfold height_real; lra).
    unfold cap_real; nra.
  - unfold overlap; rewrite S21; unfold rad, row; simpl.
    rewrite overlap_volume_Fin by lra; eexists; split; [reflexivity|].
    unfold overlap_real, volume.
    replace (height_real 30 26 1) with (- (165 / 2)) by (unfold height_real; lra).
    replace (height_real 26 30 1) with (275 / 2) by (unfold height_real; lra).
    unfold cap_real; nra.
Qed.

Lemma engulfing_tests :
  (inside engulfing 0 1 = false /\ touches engulfing 0 1 = true /\
   leb (overlap engulfing 0 1) (Fin (/ 10 * volume (rad engulfing 1))) = false) /\
  (inside engulfing 0 2 = false /\ touches engulfing 0 2 = true /\
   leb (overlap engulfing 0 2) (Fin (/ 10 * volume (rad engulfing 2))) = true) /\
  (inside engulfing 2 1 = false /\ touches engulfing 2 1 = true) /\
  absorbs engulfing 0 1 = false /\ absorbs engulfing 2 1 = false.
Proof.
  destruct engulfing_separations as (S01 & S02 & S21).
  destruct engulfing_overlaps as (O01 & (v2 & O02 & H02) & (v1 & O21 & H21)).
  pose proof PI_RGT_0 as Hpi.
  assert (T01 : touches engulfing 0 1 = true)
    by (apply Rleb_true; rewrite S01; unfold rad, row; simpl; lra).
  assert (T21 : touches engulfing 2 1 = true)
    by (apply Rleb_true; rewrite S21; unfold rad, row; simpl; lra).
  repeat split; trivial.
  - apply Rgtb_false; rewrite S01; unfold rad, row; simpl; lra.
  - rewrite O01; apply Rleb_false; unfold rad, row, volume; simpl; nra.
  - apply Rgtb_false; rewrite S02; unfold rad, row; simpl; lra.
  - apply Rleb_true; rewrite S02; unfold rad, row; simpl; lra.
  - rewrite O02; apply Rleb_true; unfold rad, row; simpl; trivial.
  - apply Rgtb_false; rewrite S21; unfold rad, row; simpl; lra.
  - unfold absorbs; rewrite T01, O01; simpl.
    destruct (gtb _ _) eqn:E; trivial.
    apply gtb_Fin in E; unfold rad, row, volume in E; simpl in E; nra.
  - unfold absorbs; rewrite T21, O21; simpl.
    destruct (gtb _ _) eqn:E; trivial.
    apply gtb_Fin in E; unfold rad, row in E; simpl in E; lra.
Qed.

Lemma engulfing_maximal : maximal engulfing (/ 10) = [0%nat; 2%nat].
Proof.
  destruct engulfing_tests as ((I1 & T1 & L1) & (I2 & T2 & L2) & _).
  unfold maximal.
  assert (EN : N_large_spheres engulfing = 3%nat).
  { unfold N_large_spheres, large_spheres_boolean; simpl.
    rewrite (proj2 (Rgtb_true 30 10)), (proj2 (Rgtb_true 26 10)) by lra;
      reflexivity. }
  unfold select_maximal; rewrite EN.
  change (seq 1 (3 - 1)) with [1%nat; 2%nat]; cbn [fold_left].
  rewrite (select_step_eval engulfing (/ 10) _ 1); cbn -[engulfing select_step].
  rewrite I1, T1; cbn -[engulfing select_step].
  rewrite L1; cbn -[engulfing select_step].
  rewrite (select_step_eval engulfing (/ 10) _ 2); cbn -[engulfing select_step].
  rewrite I2, T2; cbn -[engulfing select_step].
  rewrite L2; reflexivity.
Qed.

Lemma engulfing_shared :
  0.5 * volume (rad engulfing 1) <
    shared_volume (rad engulfing 1) (rad engulfing 2)
      (separation (row engulfing 2) (row engulfing 1)) /\
  shared_volume (rad engulfing 1) (rad engulfing 0)
    (separation (row engulfing 0) (row engulfing 1)) <=
    0.5 * volume (rad engulfing 1).
Proof.
  destruct engulfing_separations as (S01 & S02 & S21).
  pose proof PI_RGT_0 as Hpi.
  rewrite S01, S21; unfold rad, row; simpl; unfold shared_volume.
  split.
  - rewrite (proj2 (Rleb_false (30 + 26) 1)) by lra.
    rewrite (proj2 (Rleb_true 1 (Rabs (30 - 26))))
      by (unfold Rabs; destruct (Rcase_abs _); lra).
    replace (Rmin 30 26) with 26 by (unfold Rmin; destruct (Rle_dec _ _); lra).
    unfold volume; nra.
  - rewrite (proj2 (Rleb_false (30 + 30) 42)) by lra.
    rewrite (proj2 (Rleb_false 42 (Rabs (30 - 30))))
      by (unfold Rabs; destruct (Rcase_abs _); lra).
    unfold overlap_real.
    replace (height_real 30 30 42) with 9 by (unfold height_real; lra).
    unfold cap_real, volume; nra.
Qed.

(** C2, at the table [engulfing]: sphere 1 is no maximal sphere and is
    strictly inside none, and it shares more than 50% of its volume with
    exactly one maximal sphere, sphere 2, which lies inside it; the table
    of holes is empty all the same, because the two caps of the code are
    not the shared volume there. *)
Theorem engulfed_sphere_discarded :
  descending engulfing /\
  maximal engulfing (/ 10) = [0%nat; 2%nat] /\
  inside_any engulfing [0%nat; 2%nat] 1 = false /\
  0.5 * volume (rad engulfing 1) <
    shared_volume (rad engulfing 1) (rad engulfing 2)
      (separation (row engulfing 2) (row engulfing 1)) /\
  shared_volume (rad engulfing 1) (rad engulfing 0)
    (separation (row engulfing 0) (row engulfing 1)) <=
    0.5 * volume (rad engulfing 1) /\
  combine_holes engulfing (/ 10) =
    Some ([(row engulfing 0, 1%Z); (row engulfing 2, 2%Z)], []).
Proof.
  destruct engulfing_tests as ((I1 & T1 & L1) & (I2 & T2 & L2) & (I21 & T21) & A01 & A21).
  destruct engulfing_shared as [Hs2 Hs0].
  split; [apply engulfing_descending|].
  split; [apply engulfing_maximal|].
  split; [rewrite inside_any_map; simpl; rewrite I1, I21; reflexivity|].
  split; [trivial|split; [trivial|]].
  destruct (combine_holes_total engulfing (/ 10)) as [a [Ea E]]; [discriminate|].
  assert (EN : N_voids (select_maximal engulfing (/ 10)) = 2%nat).
  { destruct (select_maximal_ok engulfing (/ 10)) as [bound [Hn _]].
    rewrite Hn; fold (maximal engulfing (/ 10)); rewrite engulfing_maximal; trivial. }
  rewrite E; unfold maximal_flags; rewrite EN, engulfing_maximal.
  f_equal; f_equal.
  destruct (holes_assigned engulfing (/ 10)) as [a' [Ea' [Hh _]]].
  rewrite Ea in Ea'; injection Ea' as <-.
  destruct (holes_indices a) as [|i l] eqn:El; trivial; exfalso.
  assert (Hi : In i (i :: l)) by (simpl; auto).
  apply Hh in Hi; destruct Hi as [Hi [k (Hnot & _ & (m & Hm & Ha) & _)]].
  rewrite engulfing_maximal in Hnot, Hm.
  simpl in Hi.
  destruct i as [|[|[|i]]]; try lia; try (apply Hnot; simpl; auto; fail).
  destruct k as [|[|k]]; simpl in Hm;
    [injection Hm as <-; congruence | injection Hm as <-; congruence
    | destruct k; discriminate].
Qed.
Lemma contained_descending : descending contained.
Proof.
  intros i j [Hij Hj]; unfold rad, row, contained in *; simpl in Hj.
  destruct i as [|[|i]], j as [|[|j]]; simpl; try lia; lra.
Qed.

Lemma inside_maximal_not_maximal_witness :
  (descending contained /\ (0 < List.length contained)%nat /\
   In 0%nat (maximal contained (/ 10)) /\
   separation (row contained 0) (row contained 1) + rad contained 1
   < rad contained 0) /\
  ~ In 1%nat (maximal contained (/ 10)).
Proof.
  assert (Hin : separation (row contained 0) (row contained 1) + rad contained 1
                < rad contained 0).
  { unfold rad, row; simpl; unfold big, inner; rewrite separation_line.
    unfold Rabs; destruct (Rcase_abs _); simpl; lra. }
  split.
  - split; [apply contained_descending|].
    split; [simpl; lia|].
    split; [apply first_is_maximal|exact Hin].
  - apply (inside_maximal_not_maximal contained (/ 10) 0 1).
    + apply contained_descending.
    + simpl; lia.
    + apply first_is_maximal.
    + exact Hin.
Defined.

Lemma coincident_centres_silent_witness :
  (twins <> [] /\ In 0%nat [0%nat] /\
   separation (row twins 0) (row twins 1) = 0 /\
   0 <= rad twins 1 + rad twins 0) /\
  ((exists result, combine_holes twins (/ 10) = Some result) /\
   overlap twins 0 1 = NaN /\
   select_step twins (/ 10) (mkSelection 1 [0%nat]) 1 = mkSelection 1 [0%nat] /\
   (rad twins 1 < rad twins 0 -> inside_any twins [0%nat] 1 = true) /\
   (rad twins 0 <= rad twins 1 ->
    inside twins 0 1 = false /\ In (rad twins 0, 0) (cap_args twins [0%nat] 1))).
Proof.
  assert (Hd : separation (row twins 0) (row twins 1) = 0)
    by (unfold row; simpl; apply separation_self).
  assert (Hr : 0 <= rad twins 1 + rad twins 0)
    by (unfold rad, row; simpl; lra).
  split.
  - split; [discriminate|split; [simpl; auto|split; [exact Hd|exact Hr]]].
  - apply (coincident_centres_silent twins (/ 10) (mkSelection 1 [0%nat]) 1 0);
      [discriminate|simpl; auto|exact Hd|exact Hr].
Defined.

Lemma sqrt3_sqr : (11 * sqrt 3) ^ 2 = 363.
Proof.
  replace ((11 * sqrt 3) ^ 2) with (121 * (sqrt 3 * sqrt 3)) by ring.
  rewrite sqrt_sqrt by lra; lra.
Qed.

Lemma sqrt_484 : sqrt 484 = 22.
Proof.
  replace 484 with (22 * 22) by lra.
  apply sqrt_square; lra.
Qed.

Lemma touching_01 :
  separation (mkSphere 0 0 0 11) (mkSphere 22 0 0 11) = 11 + 11.
Proof.
  rewrite separation_line; unfold Rabs; destruct (Rcase_abs _); lra.
Qed.

Lemma touching_02 :
  separation (mkSphere 0 0 0 11) (mkSphere 11 (11 * sqrt 3) 0 11) = 11 + 11.
Proof.
  unfold separation; cbn [sx sy sz].
  replace ((0 - 11) ^ 2 + (0 - 11 * sqrt 3) ^ 2 + (0 - 0) ^ 2) with 484.
  - rewrite sqrt_484; lra.
  - replace ((0 - 11 * sqrt 3) ^ 2) with ((11 * sqrt 3) ^ 2) by ring.
    rewrite sqrt3_sqr; lra.
Qed.

Lemma touching_12 :
  separation (mkSphere 22 0 0 11) (mkSphere 11 (11 * sqrt 3) 0 11) = 11 + 11.
Proof.
  unfold separation; cbn [sx sy sz].
  replace ((22 - 11) ^ 2 + (0 - 11 * sqrt 3) ^ 2 + (0 - 0) ^ 2) with 484.
  - rewrite sqrt_484; lra.
  - replace ((0 - 11 * sqrt 3) ^ 2) with ((11 * sqrt 3) ^ 2) by ring.
    rewrite sqrt3_sqr; lra.
Qed.

Lemma tangent_triple_witness :
  (10 < 11 /\
   separation (mkSphere 0 0 0 11) (mkSphere 22 0 0 11) = 11 + 11 /\
   separation (mkSphere 0 0 0 11) (mkSphere 11 (11 * sqrt 3) 0 11) = 11 + 11 /\
   separation (mkSphere 22 0 0 11) (mkSphere 11 (11 * sqrt 3) 0 11) = 11 + 11) /\
  combine_holes touching 0.1
  = Some ([(mkSphere 0 0 0 11, 1%Z); (mkSphere 22 0 0 11, 2%Z);
           (mkSphere 11 (11 * sqrt 3) 0 11, 3%Z)], []).
Proof.
  split.
  - split; [lra|split; [apply touching_01|split; [apply touching_02|apply touching_12]]].
  - apply (tangent_triple (mkSphere 0 0 0 11) (mkSphere 22 0 0 11)
             (mkSphere 11 (11 * sqrt 3) 0 11) 11);
      [reflexivity|reflexivity|reflexivity|lra
      |apply touching_01|apply touching_02|apply touching_12].
Defined.

End HoleCombineSpec.

(** * [combine_holes]: the two tables and the flag column *)

Module HoleCombineTables.

Import HoleCombine FloatFacts ArrayFacts HoleShapes HoleTests HoleCombineSpec.

Local Open Scope R_scope.

#[local] Arguments ltb : simpl never.
#[local] Arguments gtb : simpl never.
#[local] Arguments leb : simpl never.
#[local] Arguments geb : simpl never.
#[local] Arguments inside : simpl never.
#[local] Arguments touches : simpl never.
#[local] Arguments overlap : simpl never.
#[local] Arguments absorbs : simpl never.

(** ** The overlap volume where the formulas can be checked by hand *)

(** X1.  The overlap volume of [cap_height] and [spherical_cap_volume] at
    the two tangencies: two spheres that touch from outside share no
    volume, and a sphere that touches a larger one from inside shares its
    whole volume with it. *)
Theorem tangent_spheres_overlap (ri rm : R) :
  0 < ri -> 0 < rm ->
  overlap_volume ri rm (ri + rm) = Fin 0 /\
  (ri < rm -> overlap_volume ri rm (rm - ri) = Fin (volume ri)).
Proof.
  intros Hi Hm; split; [|intros Hlt];
    rewrite overlap_volume_Fin by lra; f_equal;
    unfold overlap_real, cap_real, height_real, volume; field; lra.
Qed.

Lemma tangent_spheres_overlap_witness :
  (0 < 1 /\ 0 < 2) /\
  overlap_volume 1 2 (1 + 2) = Fin 0 /\
  (1 < 2 -> overlap_volume 1 2 (2 - 1) = Fin (volume 1)).
Proof.
  split; [split; lra|].
  apply (tangent_spheres_overlap 1 2); lra.
Defined.

Section Tables.

Variable t : list sphere.
Variable frac : R.

Local Abbreviation mx := maximal_spheres_indices.

(** *** Phase 1: the order of the maximal spheres *)

Lemma sorted_snoc (l : list nat) (i : nat) :
  StronglySorted lt l -> (forall m, In m l -> (m < i)%nat) ->
  StronglySorted lt (l ++ [i]).
Proof.
  induction 1 as [|x l Hs IH Hx]; intros Hlt; simpl.
  - constructor; constructor.
  - constructor.
    + apply IH; intros m Hm; apply Hlt; simpl; auto.
    + apply Forall_app; split.
      * exact Hx.
      * constructor; [apply Hlt; simpl; auto|constructor].
Qed.

Lemma select_loop_sorted (n s : nat) (st : selection) :
  StronglySorted lt (mx st) -> (forall m, In m (mx st) -> (m < s)%nat) ->
  StronglySorted lt (mx (fold_left (select_step t frac) (seq s n) st)) /\
  forall m, In m (mx (fold_left (select_step t frac) (seq s n) st)) ->
            (m < s + n)%nat.
Proof.
  revert s st; induction n as [|n IH]; simpl; intros s st Hs Hlt.
  - split; trivial; intros m Hm; specialize (Hlt m Hm); lia.
  - destruct (IH (S s) (select_step t frac st s)) as [H1 H2].
    + destruct (select_step_cases t frac st s) as [E|[E _]]; rewrite E; trivial.
      simpl; apply sorted_snoc; trivial.
    + intros m Hm.
      destruct (select_step_cases t frac st s) as [E|[E _]]; rewrite E in Hm.
      * specialize (Hlt m Hm); lia.
      * simpl in Hm; apply in_app_or in Hm.
        destruct Hm as [Hm|[<-|[]]]; [specialize (Hlt m Hm)|]; lia.
    + split; trivial; intros m Hm; specialize (H2 m Hm); lia.
Qed.

Lemma maximal_sorted :
  StronglySorted lt (maximal t frac) /\
  forall m, In m (maximal t frac) -> (m < Nat.max 1 (N_large_spheres t))%nat.
Proof.
  unfold maximal, select_maximal.
  destruct (select_loop_sorted (N_large_spheres t - 1) 1 (mkSelection 1 [0%nat]))
    as [H1 H2].
  - simpl; repeat constructor.
  - simpl; intros m [<-|[]]; lia.
  - split; trivial; intros m Hm; specialize (H2 m Hm); lia.
Qed.

Lemma N_large_spheres_le : (N_large_spheres t <= List.length t)%nat.
Proof.
  unfold N_large_spheres, large_spheres_boolean.
  rewrite count_true_map; apply filter_length_le.
Qed.

Lemma maximal_in_range (m : nat) :
  t <> [] -> In m (maximal t frac) -> (m < List.length t)%nat.
Proof.
  intros Ht Hm; apply maximal_sorted in Hm.
  pose proof N_large_spheres_le.
  assert (0 < List.length t)%nat by (destruct t; [contradiction|simpl; lia]).
  lia.
Qed.

Lemma sorted_nth (l : list nat) :
  StronglySorted lt l ->
  forall k k' m m', (k < k')%nat ->
    nth_error l k = Some m -> nth_error l k' = Some m' -> (m < m')%nat.
Proof.
  induction 1 as [|x l Hs IH Hx]; intros k k' m m' Hk E E'.
  - destruct k; discriminate.
  - destruct k' as [|k']; [lia|]; simpl in E'.
    destruct k as [|k]; simpl in E.
    + injection E as <-.
      rewrite Forall_forall in Hx; apply Hx; eapply nth_error_In; eauto.
    + eapply (IH k k'); eauto; lia.
Qed.

(** X3.  The rows of the maximal table stand in the order of the input
    table: on a table sorted by descending radius the voids are numbered
    from the largest maximal sphere to the smallest. *)
Theorem maximal_table_ordered (k k' m m' : nat) :
  descending t -> t <> [] -> (k < k')%nat ->
  nth_error (maximal t frac) k = Some m ->
  nth_error (maximal t frac) k' = Some m' ->
  (m < m' < List.length t)%nat /\ rad t m' <= rad t m.
Proof.
  intros Hsorted Ht Hk E E'.
  assert (Hlt : (m < m')%nat).
  { eapply sorted_nth; eauto; apply maximal_sorted. }
  assert (Hm' : (m' < List.length t)%nat).
  { apply maximal_in_range; trivial; eapply nth_error_In; eauto. }
  split; [lia|].
  apply Hsorted; lia.
Qed.

Lemma combine_rows_nth (l : list nat) (k s m : nat) :
  nth_error l k = Some m ->
  nth_error (combine (map (row t) l)
               (map (fun k0 => (Z.of_nat k0 + 1)%Z) (seq s (List.length l)))) k
  = Some (row t m, (Z.of_nat (s + k) + 1)%Z).
Proof.
  revert k s; induction l as [|x l IH]; intros k s Hk; [destruct k; discriminate|].
  destruct k as [|k]; simpl in *.
  - injection Hk as ->; rewrite Nat.add_0_r; trivial.
  - rewrite IH with (s := S s) by trivial.
    do 3 f_equal; lia.
Qed.

(** X4.  The maximal table of a table that is not empty: one row per
    maximal sphere, the row at position [k] carrying the flag [k + 1], and
    the first row of the input table at its head with flag 1. *)
Theorem maximal_table_flags :
  t <> [] ->
  exists mt ht,
    combine_holes t frac = Some (mt, ht) /\
    List.length mt = List.length (maximal t frac) /\
    nth_error mt 0 = Some (row t 0, 1%Z) /\
    forall k m, nth_error (maximal t frac) k = Some m ->
                nth_error mt k = Some (row t m, (Z.of_nat k + 1)%Z).
Proof.
  intros Ht; destruct (combine_holes_total t frac Ht) as [a [_ E]].
  destruct (select_maximal_ok t frac) as [bound [Hn _]].
  assert (Hflags : maximal_flags (select_maximal t frac)
                   = map (fun k => (Z.of_nat k + 1)%Z)
                         (seq 0 (List.length (maximal t frac)))).
  { unfold maximal_flags, maximal; rewrite Hn; trivial. }
  assert (Hrow : forall k m, nth_error (maximal t frac) k = Some m ->
            nth_error (combine (map (row t) (maximal t frac))
                         (maximal_flags (select_maximal t frac))) k
            = Some (row t m, (Z.of_nat k + 1)%Z)).
  { intros k m Hk; rewrite Hflags; apply (combine_rows_nth _ k 0%nat m Hk). }
  eexists; eexists; split; [exact E|].
  split; [|split].
  - unfold flagged.
    rewrite length_combine, length_map, maximal_flags_length, Hn.
    unfold maximal; apply Nat.min_id.
  - apply (Hrow 0%nat 0%nat).
    pose proof (first_is_maximal t frac) as H0.
    pose proof (proj1 maximal_sorted) as Hs.
    unfold maximal in *; destruct (mx (select_maximal t frac)) as [|x l]; [destruct H0|].
    destruct H0 as [->|H0]; trivial.
    inversion Hs as [|? ? _ Hx]; subst.
    rewrite Forall_forall in Hx; specialize (Hx 0%nat H0); lia.
  - exact Hrow.
Qed.

(** *** Phase 1: which spheres are maximal *)










(** *** Phase 2: the flag column *)

Lemma mask_eqb_absent {A : Type} (l : list nat) (ys : list A) (i : nat) :
  ~ In i l -> mask (map (fun m => Nat.eqb m i) l) ys = [].
Proof.
  revert ys; induction l as [|x l IH]; intros ys Hi; [reflexivity|].
  destruct ys as [|y ys]; [reflexivity|]; simpl.
  destruct (Nat.eqb_spec x i) as [->|Hne]; [exfalso; apply Hi; simpl; auto|].
  apply IH; intros H; apply Hi; simpl; auto.
Qed.

Lemma mask_eqb_nth {A : Type} (l : list nat) (ys : list A) (k i : nat) (d : A) :
  NoDup l -> nth_error l k = Some i -> List.length ys = List.length l ->
  mask (map (fun m => Nat.eqb m i) l) ys = [nth k ys d].
Proof.
  revert ys k; induction l as [|x l IH]; intros ys k Hd Hk Hlen;
    [destruct k; discriminate|].
  destruct ys as [|y ys]; [discriminate|].
  inversion Hd as [|? ? Hx Hd']; subst.
  destruct k as [|k]; simpl in *.
  - injection Hk as ->; rewrite Nat.eqb_refl, mask_eqb_absent; trivial.
  - destruct (Nat.eqb_spec x i) as [->|Hne].
    + exfalso; apply Hx; eapply nth_error_In; eauto.
    + apply IH; trivial; lia.
Qed.

(** A maximal sphere takes the flag of its row of the maximal table. *)
Lemma assign_step_own (bound : nat) (st : selection) (a : assignment) (i k : nat) :
  selection_ok bound st -> nth_error (mx st) k = Some i ->
  assign_step t st a i
  = Some (mkAssignment (set_at i (Z.of_nat k + 1)%Z (flag a)) (N_holes a)
            (holes_indices a)).
Proof.
  intros [Hn [Hd _]] Hk; rewrite assign_step_eval.
  assert (E : existsb (Nat.eqb i) (mx st) = true).
  { apply existsb_exists; exists i; split; [|apply Nat.eqb_refl].
    eapply nth_error_In; eauto. }
  rewrite E, (mask_eqb_nth _ _ k i 0%Z), maximal_flags_nth; trivial.
  - rewrite Hn; eapply nth_error_lt; eauto.
  - rewrite maximal_flags_length; trivial.
Qed.

(** What one turn of the loop of phase 2 can do to the table. *)
Lemma assign_step_shape (st : selection) (a a' : assignment) (i : nat) :
  assign_step t st a i = Some a' ->
  (In i (mx st) /\ holes_indices a' = holes_indices a /\ N_holes a' = N_holes a) \/
  (~ In i (mx st) /\ a' = a) \/
  (~ In i (mx st) /\ holes_indices a' = holes_indices a ++ [i] /\
   N_holes a' = (N_holes a + 1)%nat).
Proof.
  unfold assign_step, set_flag.
  destruct (existsb (Nat.eqb i) (mx st)) eqn:Emax.
  { apply existsb_exists in Emax; destruct Emax as [m [Hm Em]].
    apply Nat.eqb_eq in Em; subst m.
    destruct (mask _ (maximal_flags st)) as [|v [|]]; try discriminate.
    intros E; injection E as <-; simpl; auto. }
  assert (Hnot : ~ In i (mx st)).
  { intros Hin; assert (existsb (Nat.eqb i) (mx st) = true); [|congruence].
    apply existsb_exists; exists i; split; trivial; apply Nat.eqb_refl. }
  destruct (inside_any t (mx st) i); [intros E; injection E as <-; auto|].
  destruct (any (overlap_boolean t (mx st) i));
    [|intros E; injection E as <-; auto].
  destruct (Nat.eqb _ 1); [|intros E; injection E as <-; auto].
  destruct (map _ _) as [|v [|]]; try discriminate.
  intros E; injection E as <-; simpl; auto.
Qed.

Lemma app_neq_self {A : Type} (l : list A) (x : A) : l ++ [x] <> l.
Proof.
  intros E; apply (f_equal (@List.length A)) in E.
  rewrite length_app in E; simpl in E; lia.
Qed.

Lemma assign_loop_flags (bound : nat) (st : selection) (idxs : list nat) :
  selection_ok bound st -> NoDup idxs ->
  forall a, (forall i, In i idxs -> (i < List.length (flag a))%nat) ->
  exists a',
    assign_loop t st idxs a = Some a' /\
    (forall i k, In i idxs -> nth_error (mx st) k = Some i ->
       nth i (flag a') (-1)%Z = (Z.of_nat k + 1)%Z) /\
    (forall i, In i idxs -> ~ In i (mx st) ->
       (forall k, ~ hole_of t (mx st) i k) ->
       nth i (flag a') (-1)%Z = nth i (flag a) (-1)%Z) /\
    (N_holes a' + List.length (holes_indices a)
     = N_holes a + List.length (holes_indices a'))%nat.
Proof.
  intros Hok; induction idxs as [|i idxs IH]; intros Hd a Hlen; simpl.
  - exists a; repeat split; trivial; intros; tauto.
  - inversion Hd as [|? ? Hi Hd']; subst.
    destruct (assign_step_spec t bound st a i Hok (Hlen i (or_introl eq_refl)))
      as [a1 [E1 [L1 [F1 H1]]]].
    rewrite E1.
    assert (Hlen1 : forall j, In j idxs -> (j < List.length (flag a1))%nat).
    { intros j Hj; rewrite L1; apply Hlen; simpl; auto. }
    destruct (IH Hd' a1 Hlen1) as [a' [E' [Hown [Hskip Hcount]]]].
    destruct (assign_loop_spec t bound st idxs Hok Hd' a1 Hlen1)
      as [a'' [E'' [_ [Hrest _]]]].
    rewrite E' in E''; injection E'' as <-.
    exists a'; split; [trivial|].
    pose proof (assign_step_shape st a a1 i E1) as Hshape.
    split; [|split].
    + intros j k [<-|Hj] Hk; [|eauto].
      rewrite Hrest by trivial.
      rewrite (assign_step_own bound st a i k Hok Hk) in E1.
      injection E1 as <-; simpl.
      apply nth_set_at_same; apply Hlen; simpl; auto.
    + intros j [<-|Hj] Hnot Hno.
      * rewrite Hrest by trivial.
        destruct Hshape as [[Hin _]|[[_ ->]|[_ [Hh _]]]]; trivial; [contradiction|].
        destruct H1 as [[k [Hk _]]|[_ Hh']]; [exfalso; eapply Hno; eauto|].
        rewrite Hh' in Hh; symmetry in Hh; apply app_neq_self in Hh; contradiction.
      * rewrite Hskip by trivial.
        apply F1; intros ->; contradiction.
    + destruct Hshape as [[_ [Hh Hc]]|[[_ ->]|[_ [Hh Hc]]]]; trivial.
      * rewrite Hh, Hc in Hcount; trivial.
      * rewrite Hh, Hc, length_app in Hcount; simpl in Hcount; lia.
Qed.

Lemma assign_loop_sorted (st : selection) (n s : nat) (a a' : assignment) :
  StronglySorted lt (holes_indices a) ->
  (forall h, In h (holes_indices a) -> (h < s)%nat) ->
  assign_loop t st (seq s n) a = Some a' ->
  StronglySorted lt (holes_indices a') /\
  forall h, In h (holes_indices a') -> (h < s + n)%nat.
Proof.
  revert s a; induction n as [|n IH]; simpl; intros s a Hs Hlt E.
  - injection E as <-; split; trivial.
    intros h Hh; specialize (Hlt h Hh); lia.
  - destruct (assign_step t st a s) as [a1|] eqn:E1; [|discriminate].
    destruct (IH (S s) a1) as [H1 H2]; trivial.
    + destruct (assign_step_shape st a a1 s E1) as [[_ [Hh _]]|[[_ ->]|[_ [Hh _]]]];
        trivial; rewrite Hh; trivial.
      apply sorted_snoc; trivial.
    + intros h Hh.
      destruct (assign_step_shape st a a1 s E1) as [[_ [Hh' _]]|[[_ ->]|[_ [Hh' _]]]].
      * rewrite Hh' in Hh; specialize (Hlt h Hh); lia.
      * specialize (Hlt h Hh); lia.
      * rewrite Hh' in Hh; apply in_app_or in Hh.
        destruct Hh as [Hh|[<-|[]]]; [specialize (Hlt h Hh)|]; lia.
    + split; trivial; intros h Hh; specialize (H2 h Hh); lia.
Qed.

(** Phase 2 on the maximal spheres of phase 1. *)
Lemma flags_assigned :
  exists a,
    assign_holes t (select_maximal t frac) = Some a /\
    List.length (flag a) = List.length t /\
    (forall i, In i (holes_indices a) <->
       (i < List.length t)%nat /\ exists k, hole_of t (maximal t frac) i k) /\
    (forall i k, (i < List.length t)%nat ->
       nth_error (maximal t frac) k = Some i ->
       nth i (flag a) (-1)%Z = (Z.of_nat k + 1)%Z) /\
    (forall i k, (i < List.length t)%nat -> hole_of t (maximal t frac) i k ->
       nth i (flag a) (-1)%Z = (Z.of_nat k + 1)%Z) /\
    (forall i, (i < List.length t)%nat -> ~ In i (maximal t frac) ->
       (forall k, ~ hole_of t (maximal t frac) i k) ->
       nth i (flag a) (-1)%Z = (-1)%Z) /\
    N_holes a = List.length (holes_indices a) /\
    StronglySorted lt (holes_indices a).
Proof.
  destruct (select_maximal_ok t frac) as [bound Hok].
  destruct (holes_assigned t frac) as [a [E [Hh Hf]]].
  set (a0 := mkAssignment (map (fun _ => (-1)%Z) t) 0 []).
  assert (Hlen : forall i, In i (seq 0 (List.length t)) ->
                           (i < List.length (flag a0))%nat).
  { intros i Hi; apply in_seq in Hi; simpl; rewrite length_map; lia. }
  destruct (assign_loop_flags bound _ _ Hok (seq_NoDup _ _) a0 Hlen)
    as [a1 [E1 [Hown [Hskip Hcount]]]].
  destruct (assign_loop_spec t bound _ _ Hok (seq_NoDup _ _) a0 Hlen)
    as [a2 [E2 [L2 _]]].
  change (assign_loop t (select_maximal t frac) (seq 0 (List.length t)) a0)
    with (assign_holes t (select_maximal t frac)) in E1, E2.
  rewrite E in E1, E2; injection E1 as <-; injection E2 as <-.
  assert (Hseq : forall i, (i < List.length t)%nat -> In i (seq 0 (List.length t))).
  { intros i Hi; apply in_seq; lia. }
  exists a; split; [trivial|].
  split; [rewrite L2; simpl; apply length_map|].
  split; [exact Hh|].
  split; [intros i k Hi Hk; apply Hown; auto|].
  split; [exact Hf|].
  split; [|split].
  - intros i Hi Hnot Hno; unfold maximal in *; rewrite Hskip by auto.
    simpl; clear; revert i; induction t as [|x l IH]; intros [|i]; simpl; trivial.
  - simpl in Hcount; lia.
  - apply (assign_loop_sorted (select_maximal t frac) (List.length t) 0 a0 a);
      [constructor|intros h []|exact E].
Qed.

(** X6.  The flag column that phase 2 leaves on the table it was given.
    It has an entry per sphere; a maximal sphere carries the flag of its
    row of the maximal table; a sphere that is strictly inside no maximal
    sphere and of which the test of the code, [absorbs], holds for exactly
    one maximal sphere carries the flag of that sphere; every other
    sphere keeps the initial [-1]. *)
Theorem flag_column :
  exists a,
    assign_holes t (select_maximal t frac) = Some a /\
    List.length (flag a) = List.length t /\
    forall i, (i < List.length t)%nat ->
      (forall k, nth_error (maximal t frac) k = Some i ->
         nth i (flag a) (-1)%Z = (Z.of_nat k + 1)%Z) /\
      (forall k, hole_of t (maximal t frac) i k ->
         nth i (flag a) (-1)%Z = (Z.of_nat k + 1)%Z) /\
      (~ In i (maximal t frac) ->
       (forall k, ~ hole_of t (maximal t frac) i k) ->
       nth i (flag a) (-1)%Z = (-1)%Z).
Proof.
  destruct flags_assigned as [a [E [L [_ [Hown [Hhole [Hskip _]]]]]]].
  exists a; split; [trivial|split; [trivial|]].
  intros i Hi; split; [|split].
  - intros k Hk; apply Hown; trivial.
  - intros k Hk; apply Hhole; trivial.
  - intros Hnot Hno; apply Hskip; trivial.
Qed.

(** X7.  The table of holes of a table that is not empty.  Its rows stand
    in the order of the input table, [N_holes] counts them, none of them is
    a maximal sphere, and the flag of each is the flag of a row of the
    maximal table. *)
Theorem holes_table_sound :
  t <> [] ->
  exists a mt,
    combine_holes t frac
    = Some (mt, map (fun i => (row t i, nth i (flag a) (-1)%Z)) (holes_indices a)) /\
    N_holes a = List.length (holes_indices a) /\
    StronglySorted lt (holes_indices a) /\
    forall i, In i (holes_indices a) ->
      (i < List.length t)%nat /\ ~ In i (maximal t frac) /\
      exists k m,
        nth i (flag a) (-1)%Z = (Z.of_nat k + 1)%Z /\
        nth_error mt k = Some (row t m, (Z.of_nat k + 1)%Z).
Proof.
  intros Ht.
  destruct (combine_holes_total t frac Ht) as [a [E Ec]].
  destruct flags_assigned as [a' [E' [_ [Hh [_ [Hf [_ [Hc Hs]]]]]]]].
  rewrite E in E'; injection E' as <-.
  destruct (select_maximal_ok t frac) as [bound [Hn _]].
  exists a; eexists; split; [exact Ec|].
  split; [trivial|split; [trivial|]].
  intros i Hi; apply Hh in Hi; destruct Hi as [Hi [k Hk]].
  split; [trivial|].
  split; [apply Hk|].
  pose proof Hk as [_ [_ [[m [Hm _]] _]]].
  exists k, m; split; [apply Hf; trivial|].
  unfold maximal_flags; rewrite Hn.
  apply (combine_rows_nth _ k 0%nat m Hm).
Qed.

(** X8.  A sphere that lies strictly inside a maximal sphere of a table
    sorted by descending radius is dropped: it is no row of the table of
    holes, and its flag stays [-1]. *)
Theorem contained_sphere_dropped (m i : nat) :
  descending t -> (m < List.length t)%nat -> (i < List.length t)%nat ->
  In m (maximal t frac) ->
  separation (row t m) (row t i) + rad t i < rad t m ->
  exists a,
    assign_holes t (select_maximal t frac) = Some a /\
    ~ In i (holes_indices a) /\
    nth i (flag a) (-1)%Z = (-1)%Z.
Proof.
  intros Hsorted Hm Hi Hmax Hin.
  assert (Einside : inside_any t (maximal t frac) i = true).
  { apply inside_any_true; exists m; split; trivial.
    apply Rgtb_true; lra. }
  assert (Hno : forall k, ~ hole_of t (maximal t frac) i k).
  { intros k [_ [H _]]; congruence. }
  assert (Hnot : ~ In i (maximal t frac)).
  { intros Hb.
    pose proof (separation_nonneg (row t m) (row t i)) as Hd.
    assert (Hmi : (m < i)%nat).
    { destruct (Nat.lt_ge_cases m i) as [H|H]; trivial.
      specialize (Hsorted i m (conj H Hm)); lra. }
    assert (E : inside t m i = false).
    { unfold maximal, select_maximal in Hmax, Hb.
      eapply selected_not_inside; eauto; [|lia].
      simpl; intros x [<-|[]]; lia. }
    apply Rgtb_false in E; lra. }
  destruct flags_assigned as [a [E [_ [Hh [_ [_ [Hskip _]]]]]]].
  exists a; split; [trivial|split].
  - intros H; apply Hh in H; destruct H as [_ [k Hk]]; eapply Hno; eauto.
  - apply Hskip; trivial.
Qed.

End Tables.

(** *** The theorems at the tables [nested] and [contained] *)

Lemma maximal_table_ordered_witness :
  (descending nested /\ nested <> [] /\ (0 < 1)%nat /\
   nth_error (maximal nested (/ 10)) 0 = Some 0%nat /\
   nth_error (maximal nested (/ 10)) 1 = Some 2%nat) /\
  (0 < 2 < List.length nested)%nat /\ rad nested 2 <= rad nested 0.
Proof.
  assert (H0 : nth_error (maximal nested (/ 10)) 0 = Some 0%nat)
    by (rewrite nested_maximal; reflexivity).
  assert (H1 : nth_error (maximal nested (/ 10)) 1 = Some 2%nat)
    by (rewrite nested_maximal; reflexivity).
  split.
  - split; [apply nested_descending|].
    split; [discriminate|].
    split; [lia|auto].
  - apply (maximal_table_ordered nested (/ 10) 0 1 0 2); trivial.
    + apply nested_descending.
    + discriminate.
    + lia.
Defined.

Lemma maximal_table_flags_witness :
  nested <> [] /\
  exists mt ht,
    combine_holes nested (/ 10) = Some (mt, ht) /\
    List.length mt = List.length (maximal nested (/ 10)) /\
    nth_error mt 0 = Some (row nested 0, 1%Z) /\
    forall k m, nth_error (maximal nested (/ 10)) k = Some m ->
                nth_error mt k = Some (row nested m, (Z.of_nat k + 1)%Z).
Proof.
  split; [discriminate|].
  apply (maximal_table_flags nested (/ 10)); discriminate.
Defined.

Lemma holes_table_sound_witness :
  absorbed <> [] /\
  combine_holes absorbed (/ 10) = Some ([(big, 1%Z)], [(near, 1%Z)]) /\
  exists a mt,
    combine_holes absorbed (/ 10)
    = Some (mt, map (fun i => (row absorbed i, nth i (flag a) (-1)%Z))
                    (holes_indices a)) /\
    N_holes a = List.length (holes_indices a) /\
    StronglySorted lt (holes_indices a) /\
    forall i, In i (holes_indices a) ->
      (i < List.length absorbed)%nat /\ ~ In i (maximal absorbed (/ 10)) /\
      exists k m,
        nth i (flag a) (-1)%Z = (Z.of_nat k + 1)%Z /\
        nth_error mt k = Some (row absorbed m, (Z.of_nat k + 1)%Z).
Proof.
  split; [discriminate|split; [apply absorbed_holes|]].
  apply (holes_table_sound absorbed (/ 10)); discriminate.
Defined.

Lemma inner_inside_big :
  separation (row contained 0) (row contained 1) + rad contained 1
  < rad contained 0.
Proof.
  unfold rad, row; simpl; unfold big, inner; rewrite separation_line.
  unfold Rabs; destruct (Rcase_abs _); simpl; lra.
Qed.

Lemma contained_sphere_dropped_witness :
  (descending contained /\ (0 < List.length contained)%nat /\
   (1 < List.length contained)%nat /\ In 0%nat (maximal contained (/ 10)) /\
   separation (row contained 0) (row contained 1) + rad contained 1
   < rad contained 0) /\
  exists a,
    assign_holes contained (select_maximal contained (/ 10)) = Some a /\
    ~ In 1%nat (holes_indices a) /\
    nth 1 (flag a) (-1)%Z = (-1)%Z.
Proof.
  split.
  - split; [apply contained_descending|].
    split; [simpl; lia|].
    split; [simpl; lia|].
    split; [apply first_is_maximal|apply inner_inside_big].
  - apply (contained_sphere_dropped contained (/ 10) 0 1).
    + apply contained_descending.
    + simpl; lia.
    + simpl; lia.
    + apply first_is_maximal.
    + apply inner_inside_big.
Defined.

Lemma seeds_above_threshold_witness :
  (descending nested /\ In 2%nat (maximal nested (/ 10))) /\
  (2%nat = 0%nat \/ 10 < rad nested 2).
Proof.
  assert (H : In 2%nat (maximal nested (/ 10)))
    by (rewrite nested_maximal; simpl; auto).
  split.
  - split; [apply nested_descending|exact H].
  - apply (seeds_above_threshold nested (/ 10) 2); [apply nested_descending|exact H].
Defined.

End HoleCombineTables.

(** * [sortVoids]: what a run leaves on the object *)

Module ZobovRuns.

Import Zobov FloatFacts ArrayFacts Shapes VoidTests ZobovSpec.

Local Open Scope string_scope.
Local Open Scope nat_scope.
Local Open Scope list_scope.

#[local] Arguments ltb : simpl never.
#[local] Arguments gtb : simpl never.
#[local] Arguments leb : simpl never.
#[local] Arguments geb : simpl never.

(** ** The zone-void map *)

Lemma foldM_prefix {A B : Type} (f : A -> B -> res A) (I : list B -> A -> Prop)
    (l : list B) :
  (forall pre x post a a',
     l = pre ++ x :: post -> I pre a -> f a x = Ok a' -> I (pre ++ [x]) a') ->
  forall a a', I [] a -> foldM f l a = Ok a' -> I l a'.
Proof.
  intros Hstep.
  assert (G : forall post pre a a',
            l = pre ++ post -> I pre a -> foldM f post a = Ok a' -> I l a').
  { induction post as [|x post IH]; intros pre a a' El Ha E; simpl in E.
    - injection E as <-; rewrite El, app_nil_r; trivial.
    - destruct (f a x) as [a1|] eqn:E1; simpl in E; [|discriminate].
      apply (IH (pre ++ [x]) a1 a'); trivial.
      + rewrite <- app_assoc; trivial.
      + eapply Hstep; eauto. }
  intros a a' Ha E; apply (G l [] a a'); trivial.
Qed.

Lemma foldM_seq {A : Type} (f : A -> nat -> res A) (I : nat -> A -> Prop)
    (n : nat) :
  forall s a a',
    (forall i b b', s <= i < s + n -> I i b -> f b i = Ok b' -> I (S i) b') ->
    I s a -> foldM f (seq s n) a = Ok a' -> I (s + n) a'.
Proof.
  induction n as [|n IH]; intros s a a' Hstep Ha E; simpl in E.
  - injection E as <-; rewrite Nat.add_0_r; trivial.
  - destruct (f a s) as [a1|] eqn:E1; simpl in E; [|discriminate].
    replace (s + S n) with (S s + n) by lia.
    apply (IH (S s) a1 a'); trivial.
    + intros i b b' Hi; apply Hstep; lia.
    + apply (Hstep s a a1); trivial; lia.
Qed.

Lemma indexZ_nat {A : Type} (l : list A) (p : nat) :
  indexZ l (Z.of_nat p) = index l p.
Proof.
  unfold indexZ.
  destruct (Z.ltb_spec (Z.of_nat p) 0) as [H|H]; [lia|].
  rewrite Nat2Z.id; trivial.
Qed.

Lemma size_nth (vds : list (list nat)) (i : nat) (v : list nat) :
  nth_error vds i = Some v -> size vds i = List.length v.
Proof.
  intros H; unfold size; rewrite (nth_error_nth _ _ _ H); trivial.
Qed.

Lemma zvoid_extremes_ext (vds : list (list nat)) (A B : nat -> Prop) (pr : Z * Z) :
  (forall x, A x <-> B x) -> zvoid_extremes vds A pr -> zvoid_extremes vds B pr.
Proof.
  intros Hab [[Hno E]|[p [s [E [[Hp Hmin] [Hs Hmax]]]]]].
  - left; split; trivial; intros i Hi; apply (Hno i), Hab; trivial.
  - right; exists p, s; split; trivial; split; split.
    + apply Hab; trivial.
    + intros i Hi; apply Hmin, Hab; trivial.
    + apply Hab; trivial.
    + intros i Hi; apply Hmax, Hab; trivial.
Qed.

(** One turn of the loop [for j in voids[i]]: candidate [i] joins the
    candidates of zone [j]. *)
Lemma zvoid_zone_extremes (vds : list (list nat)) (i j : nat)
    (zv zv' : list (Z * Z)) (among : nat -> Prop) :
  (forall x, among x -> contains vds j x /\ x <= i) ->
  contains vds j i ->
  (forall pr, nth_error zv j = Some pr -> zvoid_extremes vds among pr) ->
  zvoid_zone vds i zv j = Ok zv' ->
  List.length zv' = List.length zv /\
  (forall k, k <> j -> nth_error zv' k = nth_error zv k) /\
  (forall pr, nth_error zv' j = Some pr ->
     zvoid_extremes vds (fun x => among x \/ x = i) pr).
Proof.
  intros Hamong [vi [Evi Hji]] Hinv; unfold zvoid_zone.
  destruct (index zv j) as [[p0 s0]|] eqn:Ej; simpl; try discriminate.
  apply index_Ok in Ej.
  assert (Hj : j < List.length zv) by (eapply nth_error_lt; eauto).
  pose proof (size_nth _ _ _ Evi) as Si.
  assert (Hset : forall pr', zvoid_extremes vds (fun x => among x \/ x = i) pr' ->
    List.length (set_at j pr' zv) = List.length zv /\
    (forall k, k <> j -> nth_error (set_at j pr' zv) k = nth_error zv k) /\
    (forall pr, nth_error (set_at j pr' zv) j = Some pr ->
       zvoid_extremes vds (fun x => among x \/ x = i) pr)).
  { intros pr' Hpr'; split; [apply set_at_length|split].
    - intros k Hk; apply set_at_other; congruence.
    - intros pr; rewrite set_at_same by trivial; intros [= <-]; trivial. }
  destruct (Hinv _ Ej) as [[Hno E]|[p [s [E [[Hp Hmin] [Hs Hmax]]]]]];
    injection E as -> ->.
  - (* first candidate of the zone *)
    simpl; intros [= <-]; apply Hset.
    right; exists i, i; split; trivial.
    split; split; auto; intros x [Hx| ->]; [destruct (Hno x Hx)| |destruct (Hno x Hx)|];
      right; split; trivial.
  - destruct (Z.leb_spec 0 (Z.of_nat p)) as [_|H]; [|lia].
    apply index_Ok in Evi; rewrite Evi; simpl.
    destruct (Hamong p Hp) as [[vp [Evp _]] Hpi].
    destruct (Hamong s Hs) as [[vs [Evs _]] Hsi].
    pose proof (size_nth _ _ _ Evp) as Sp; pose proof (size_nth _ _ _ Evs) as Ss.
    apply index_Ok in Evp, Evs.
    rewrite indexZ_nat, Evp; simpl.
    destruct (Hmax p Hp) as [Hps|[Hps _]].
    + destruct (Nat.ltb_spec (List.length vi) (List.length vp)) as [Hlt|Hge].
      * intros [= <-]; apply Hset.
        right; exists i, s; split; trivial; split; split; auto.
        -- intros x [Hx| ->]; [|right; split; trivial].
           destruct (Hmin x Hx) as [H|[H _]]; left; lia.
        -- intros x [Hx| ->]; [apply Hmax; trivial|left; lia].
      * rewrite indexZ_nat, Evs; simpl.
        destruct (Nat.ltb_spec (List.length vs) (List.length vi)) as [Hgt|Hngt];
          intros [= <-].
        -- apply Hset.
           right; exists p, i; split; trivial; split; split; auto.
           ++ intros x [Hx| ->]; [apply Hmin; trivial|].
              destruct (Nat.eq_dec (size vds p) (size vds i)); [right|left]; lia.
           ++ intros x [Hx| ->]; [|right; split; trivial].
              destruct (Hmax x Hx) as [H|[H _]]; left; lia.
        -- split; [trivial|split; [trivial|]].
           intros pr Hpr; rewrite Ej in Hpr; injection Hpr as <-.
           right; exists p, s; split; trivial; split; split; auto.
           ++ intros x [Hx| ->]; [apply Hmin; trivial|].
              destruct (Nat.eq_dec (size vds p) (size vds i)); [right|left]; lia.
           ++ intros x [Hx| ->]; [apply Hmax; trivial|].
              destruct (Nat.eq_dec (size vds i) (size vds s)); [right|left]; lia.
    + destruct (Nat.ltb_spec (List.length vi) (List.length vp)) as [Hlt|Hge].
      * intros [= <-]; apply Hset.
        right; exists i, s; split; trivial; split; split; auto.
        -- intros x [Hx| ->]; [|right; split; trivial].
           destruct (Hmin x Hx) as [H|[H _]]; left; lia.
        -- intros x [Hx| ->]; [apply Hmax; trivial|left; lia].
      * rewrite indexZ_nat, Evs; simpl.
        destruct (Nat.ltb_spec (List.length vs) (List.length vi)) as [Hgt|Hngt];
          intros [= <-].
        -- apply Hset.
           right; exists p, i; split; trivial; split; split; auto.
           ++ intros x [Hx| ->]; [apply Hmin; trivial|].
              destruct (Nat.eq_dec (size vds p) (size vds i)); [right|left]; lia.
           ++ intros x [Hx| ->]; [|right; split; trivial].
              destruct (Hmax x Hx) as [H|[H _]]; left; lia.
        -- split; [trivial|split; [trivial|]].
           intros pr Hpr; rewrite Ej in Hpr; injection Hpr as <-.
           right; exists p, s; split; trivial; split; split; auto.
           ++ intros x [Hx| ->]; [apply Hmin; trivial|].
              destruct (Nat.eq_dec (size vds p) (size vds i)); [right|left]; lia.
           ++ intros x [Hx| ->]; [apply Hmax; trivial|].
              destruct (Nat.eq_dec (size vds i) (size vds s)); [right|left]; lia.
Qed.

(** The state of the map when the loop over the candidates is at
    candidate [i] and has gone through the zones [pre] of it. *)
Lemma zvoid_void_extremes (vds : list (list nat)) (nz i : nat)
    (zv zv' : list (Z * Z)) :
  List.length zv = nz ->
  (forall k pr, nth_error zv k = Some pr ->
     zvoid_extremes vds (fun x => contains vds k x /\ x < i) pr) ->
  zvoid_void vds zv i = Ok zv' ->
  List.length zv' = nz /\
  forall k pr, nth_error zv' k = Some pr ->
    zvoid_extremes vds (fun x => contains vds k x /\ x < S i) pr.
Proof.
  intros Hlen Hinv; unfold zvoid_void.
  destruct (index vds i) as [vi|] eqn:Ei; simpl; try discriminate.
  apply index_Ok in Ei.
  intros H.
  assert (G : List.length zv' = nz /\
    forall k pr, nth_error zv' k = Some pr ->
      zvoid_extremes vds
        (fun x => contains vds k x /\ (x < i \/ (x = i /\ In k vi))) pr).
  { revert H.
    apply (foldM_prefix (zvoid_zone vds i)
             (fun pre a => List.length a = nz /\
                forall k pr, nth_error a k = Some pr ->
                  zvoid_extremes vds
                    (fun x => contains vds k x /\ (x < i \/ (x = i /\ In k pre))) pr)).
    - intros pre j post a a' Evi [La Ha] E.
      destruct (zvoid_zone_extremes vds i j a a'
                  (fun x => contains vds j x /\ (x < i \/ (x = i /\ In j pre))))
        as [L' [Hother Hj]]; trivial.
      + intros x [Hc Hx]; split; trivial; lia.
      + exists vi; split; trivial; rewrite Evi; apply in_elt.
      + intros pr Hpr; eauto.
      + split; [congruence|].
        intros k pr Hk.
        destruct (Nat.eq_dec k j) as [->|Hne].
        * eapply zvoid_extremes_ext; [|apply Hj; trivial].
          intros x; simpl; rewrite in_app_iff; simpl; split.
          -- intros [[Hc Hx]| ->]; [split; trivial; tauto|].
             split; [|auto].
             exists vi; split; trivial; rewrite Evi; apply in_elt.
          -- intros [Hc [Hx|[-> _]]]; auto.
        * rewrite Hother in Hk by trivial.
          eapply zvoid_extremes_ext; [|apply Ha; eauto].
          intros x; simpl; rewrite in_app_iff; simpl; split.
          -- intros [Hc Hx]; split; trivial; tauto.
          -- intros [Hc [Hx|[-> [Hx|[Hx|[]]]]]]; split; trivial; try tauto.
             congruence.
    - split; trivial.
      intros k pr Hk; eapply zvoid_extremes_ext; [|apply Hinv; eauto].
      intros x; simpl; tauto. }
  destruct G as [L' G]; split; trivial.
  intros k pr Hk; eapply zvoid_extremes_ext; [|apply G; eauto].
  intros x; simpl; split.
  - intros [Hc [Hx|[-> _]]]; split; trivial; lia.
  - intros [Hc Hx]; split; trivial.
    destruct (Nat.eq_dec x i) as [->|Hne]; [|left; lia].
    right; split; trivial.
    destruct Hc as [v [Ev Hv]]; congruence.
Qed.

Lemma build_zvoid_extremes (nz : nat) (vds : list (list nat)) (zv : list (Z * Z)) :
  build_zvoid nz vds = Ok zv ->
  List.length zv = nz /\
  forall j pr, nth_error zv j = Some pr -> zvoid_extremes vds (contains vds j) pr.
Proof.
  unfold build_zvoid; intros H.
  assert (G : List.length zv = nz /\
    forall k pr, nth_error zv k = Some pr ->
      zvoid_extremes vds (fun x => contains vds k x /\ x < 0 + List.length vds) pr).
  { revert H.
    apply (foldM_seq (zvoid_void vds)
             (fun i a => List.length a = nz /\
                forall k pr, nth_error a k = Some pr ->
                  zvoid_extremes vds (fun x => contains vds k x /\ x < i) pr)).
    - intros i b b' _ [Lb Hb] E; eapply zvoid_void_extremes; eauto.
    - split; [apply repeat_length|].
      intros k pr Hk; left; split; [intros x [_ Hx]; lia|].
      apply nth_error_In in Hk; apply repeat_spec in Hk; trivial. }
  destruct G as [L G]; split; trivial.
  intros j pr Hj; eapply zvoid_extremes_ext; [|apply G; eauto].
  intros x; simpl; split; [tauto|].
  intros Hc; split; trivial.
  destruct Hc as [v [Ev _]]; eapply nth_error_lt; eauto.
Qed.

(** X10.  The zone-void map the loop builds: a zone that no candidate
    holds keeps [(-1,-1)]; for any other zone the first index is the
    smallest of the candidates that hold the zone and the second index the
    largest of them, in each case the first one of those of that size. *)
Theorem zvoid_smallest_largest (nz : nat) (vds : list (list nat))
    (zv : list (Z * Z)) (j : nat) (pr : Z * Z) :
  build_zvoid nz vds = Ok zv -> nth_error zv j = Some pr ->
  ((forall i, ~ contains vds j i) /\ pr = ((-1)%Z, (-1)%Z)) \/
  exists p s vp vs,
    pr = (Z.of_nat p, Z.of_nat s) /\
    nth_error vds p = Some vp /\ In j vp /\
    nth_error vds s = Some vs /\ In j vs /\
    forall i v, nth_error vds i = Some v -> In j v ->
      (List.length vp <= List.length v <= List.length vs) /\
      (List.length v = List.length vp -> p <= i) /\
      (List.length v = List.length vs -> s <= i).
Proof.
  intros H Hj.
  destruct (build_zvoid_extremes nz vds zv H) as [_ G].
  destruct (G j pr Hj) as [Hno|[p [s [E [[Hp Hmin] [Hs Hmax]]]]]]; [left; trivial|].
  right.
  destruct Hp as [vp [Evp Hjp]], Hs as [vs [Evs Hjs]].
  exists p, s, vp, vs; repeat (split; trivial).
  - assert (Hi : contains vds j i) by (exists v; auto).
    pose proof (size_nth _ _ _ H0); pose proof (size_nth _ _ _ Evp).
    destruct (Hmin i Hi) as [Hlt|[Heq _]]; lia.
  - assert (Hi : contains vds j i) by (exists v; auto).
    pose proof (size_nth _ _ _ H0); pose proof (size_nth _ _ _ Evs).
    destruct (Hmax i Hi) as [Hlt|[Heq _]]; lia.
  - assert (Hi : contains vds j i) by (exists v; auto).
    pose proof (size_nth _ _ _ H0); pose proof (size_nth _ _ _ Evp).
    destruct (Hmin i Hi) as [Hlt|[Heq Hle]]; lia.
  - assert (Hi : contains vds j i) by (exists v; auto).
    pose proof (size_nth _ _ _ H0); pose proof (size_nth _ _ _ Evs).
    destruct (Hmax i Hi) as [Hlt|[Heq Hle]]; lia.
Qed.

Lemma zvoid_smallest_largest_witness :
  (build_zvoid 3 [[0; 1]; [1]] = Ok [(0, 0); (1, 0); (-1, -1)]%Z /\
   nth_error [(0, 0); (1, 0); (-1, -1)]%Z 1 = Some (1, 0)%Z) /\
  (((forall i, ~ contains [[0; 1]; [1]] 1 i) /\ (1, 0)%Z = ((-1)%Z, (-1)%Z)) \/
   exists p s vp vs,
     (1, 0)%Z = (Z.of_nat p, Z.of_nat s) /\
     nth_error [[0; 1]; [1]] p = Some vp /\ In 1 vp /\
     nth_error [[0; 1]; [1]] s = Some vs /\ In 1 vs /\
     forall i v, nth_error [[0; 1]; [1]] i = Some v -> In 1 v ->
       (List.length vp <= List.length v <= List.length vs) /\
       (List.length v = List.length vp -> p <= i) /\
       (List.length v = List.length vs -> s <= i)).
Proof.
  split; [split; reflexivity|].
  apply (zvoid_smallest_largest 3 [[0; 1]; [1]] [(0, 0); (1, 0); (-1, -1)]%Z 1 (1, 0)%Z);
    reflexivity.
Defined.

(** ** The median of the radii *)

Lemma gtb_NaN_r (a : fl) : gtb a NaN = false.
Proof. destruct a; reflexivity. Qed.

Lemma gtb_not_nan (a b : fl) : gtb a b = true -> is_nan a = false /\ is_nan b = false.
Proof. destruct a, b; simpl; auto; discriminate. Qed.

Lemma filter_gtb_NaN (l : list fl) : filter (fun r => gtb r NaN) l = [].
Proof.
  induction l as [|r l IH]; simpl; rewrite ?gtb_NaN_r; trivial.
Qed.

Lemma effective_radius_cases (v : R) :
  effective_radius v = NaN \/ exists x, effective_radius v = Fin x.
Proof.
  unfold effective_radius, pow_third.
  destruct (Rltb _ 0); eauto.
Qed.

Lemma insert_sorted_Fin (x : R) (ys : list R) :
  StronglySorted Rle ys ->
  exists zs, insert_sorted (Fin x) (map Fin ys) = map Fin zs /\
             Permutation (x :: ys) zs /\ StronglySorted Rle zs.
Proof.
  induction 1 as [|y ys Hs IH Hy]; simpl.
  - exists [x]; repeat split; trivial; repeat constructor.
  - destruct (leb (Fin x) (Fin y)) eqn:E.
    + apply leb_Fin in E.
      exists (x :: y :: ys); repeat split; trivial.
      constructor; [constructor; trivial|].
      constructor; trivial.
      rewrite Forall_forall in *; intros z Hz; specialize (Hy z Hz); lra.
    + destruct IH as [zs [Ez [Hp Hz]]].
      assert (Hyx : (y <= x)%R).
      { destruct (Rle_lt_dec y x); trivial.
        assert (leb (Fin x) (Fin y) = true) by (apply leb_Fin; lra); congruence. }
      exists (y :: zs); rewrite Ez; repeat split; trivial.
      * rewrite perm_swap; constructor; trivial.
      * constructor; trivial.
        rewrite Forall_forall in *; intros z Hzz.
        apply Permutation_sym in Hp.
        apply (Permutation_in _ Hp) in Hzz; destruct Hzz as [<-|Hzz]; auto.
Qed.

Lemma sort_Fin (xs : list R) :
  exists ys, sort (map Fin xs) = map Fin ys /\
             Permutation xs ys /\ StronglySorted Rle ys.
Proof.
  induction xs as [|x xs [ys [E [Hp Hs]]]]; simpl.
  - exists []; repeat split; trivial; constructor.
  - unfold sort in *; simpl; rewrite E.
    destruct (insert_sorted_Fin x ys Hs) as [zs [Ez [Hpz Hz]]].
    exists zs; repeat split; trivial.
    rewrite <- Hpz; constructor; trivial.
Qed.

Lemma filter_length_perm {A : Type} (f : A -> bool) (l l' : list A) :
  Permutation l l' -> List.length (filter f l) = List.length (filter f l').
Proof.
  induction 1 as [|x l l' _ IH|x y l|l l' l'' _ IH1 _ IH2]; simpl; trivial.
  - destruct (f x); simpl; congruence.
  - destruct (f x), (f y); simpl; trivial.
  - congruence.
Qed.

Lemma filter_length_mono {A : Type} (f g : A -> bool) (l : list A) :
  (forall x, f x = true -> g x = true) ->
  List.length (filter f l) <= List.length (filter g l).
Proof.
  intros H; induction l as [|x l IH]; simpl; trivial.
  destruct (f x) eqn:Ef; [rewrite (H x Ef); simpl; lia|].
  destruct (g x); simpl; lia.
Qed.

(** In a sorted list the entries above the entry at position [k] stand
    after it. *)
Lemma sorted_above (ys : list R) :
  StronglySorted Rle ys ->
  forall k, k < List.length ys ->
    List.length (filter (fun y => Rgtb y (nth k ys 0%R)) ys) + k + 1
    <= List.length ys.
Proof.
  induction 1 as [|y ys Hs IH Hy]; intros k Hk; simpl in *; [lia|].
  rewrite Forall_forall in Hy.
  destruct k as [|k].
  - rewrite (proj2 (Rgtb_false y y)) by lra.
    pose proof (filter_length_le (fun z => Rgtb z y) ys); lia.
  - assert (Hle : (y <= nth k ys 0)%R) by (apply Hy, nth_In; lia).
    rewrite (proj2 (Rgtb_false y _)) by trivial.
    specialize (IH k); lia.
Qed.

Lemma sorted_nth_le (ys : list R) :
  StronglySorted Rle ys ->
  forall k k', k <= k' < List.length ys -> (nth k ys 0 <= nth k' ys 0)%R.
Proof.
  induction 1 as [|y ys Hs IH Hy]; intros k k' Hk; simpl in *; [lia|].
  rewrite Forall_forall in Hy.
  destruct k as [|k], k' as [|k']; try lia; try lra.
  - apply Hy, nth_In; lia.
  - apply IH; lia.
Qed.

Lemma nth_map_Fin (ys : list R) (k : nat) :
  k < List.length ys -> nth k (map Fin ys) NaN = Fin (nth k ys 0%R).
Proof.
  intros Hk; rewrite (nth_indep _ NaN (Fin 0)) by (rewrite length_map; trivial).
  apply (map_nth Fin).
Qed.

Lemma filter_map_length {A B : Type} (f : B -> bool) (g : A -> B) (l : list A) :
  List.length (filter f (map g l)) = List.length (filter (fun x => f (g x)) l).
Proof.
  induction l as [|x l IH]; simpl; trivial.
  destruct (f (g x)); simpl; congruence.
Qed.

(** At most half of the entries of a list are above its median. *)
Lemma above_median_Fin (xs : list R) :
  2 * List.length (filter (fun r => gtb r (median (map Fin xs))) (map Fin xs))
  <= List.length xs.
Proof.
  unfold median; rewrite length_map.
  destruct (Nat.eqb_spec (List.length xs) 0) as [E0|E0]; cbn [orb].
  { destruct xs; [simpl; lia|discriminate]. }
  assert (Enan : existsb is_nan (map Fin xs) = false).
  { clear; induction xs; simpl; trivial. }
  rewrite Enan.
  destruct (sort_Fin xs) as [ys [Es [Hp Hs]]]; rewrite Es.
  pose proof (Permutation_length Hp) as Hlen.
  set (n := List.length xs) in *.
  pose proof (Nat.div_mod_eq n 2) as Hdiv.
  assert (Hmod : n mod 2 < 2) by (apply Nat.mod_upper_bound; lia).
  destruct (Nat.even n) eqn:Ev.
  - apply Nat.even_spec in Ev; destruct Ev as [q Eq].
    rewrite !nth_map_Fin by lia; cbn [add div].
    rewrite (proj2 (Reqb_false 2 0)) by lra.
    rewrite filter_map_length.
    set (a := nth (n / 2 - 1) ys 0%R); set (b := nth (n / 2) ys 0%R).
    assert (Hab : (a <= b)%R) by (apply sorted_nth_le; trivial; lia).
    pose proof (sorted_above ys Hs (n / 2 - 1)) as Hc; fold a in Hc.
    rewrite <- (filter_length_perm _ _ _ Hp) in Hc.
    pose proof (filter_length_mono (fun x => gtb (Fin x) (Fin ((a + b) / 2)))
                  (fun x => Rgtb x a) xs) as Hm.
    assert (List.length (filter (fun x => gtb (Fin x) (Fin ((a + b) / 2))) xs)
            <= List.length (filter (fun x => Rgtb x a) xs)).
    { apply Hm; intros x Hx; apply gtb_Fin in Hx; apply Rgtb_true; lra. }
    lia.
  - rewrite nth_map_Fin by lia.
    rewrite filter_map_length.
    pose proof (sorted_above ys Hs (n / 2)) as Hc.
    rewrite <- (filter_length_perm _ _ _ Hp) in Hc.
    assert (List.length (filter (fun x => gtb (Fin x) (Fin (nth (n / 2) ys 0%R))) xs)
            <= List.length (filter (fun x => Rgtb x (nth (n / 2) ys 0%R)) xs)).
    { apply filter_length_mono; intros x Hx; apply gtb_Fin in Hx;
        apply Rgtb_true; lra. }
    lia.
Qed.

Lemma above_median_radii (vvols : list R) :
  2 * List.length (filter (fun r => gtb r (median (map effective_radius vvols)))
                     (map effective_radius vvols))
  <= List.length vvols.
Proof.
  set (rs := map effective_radius vvols).
  destruct (existsb is_nan rs) eqn:Enan.
  - assert (E : median rs = NaN).
    { unfold median; rewrite Enan, orb_true_r; trivial. }
    rewrite E.
    rewrite filter_gtb_NaN; simpl; lia.
  - assert (H : exists xs, rs = map Fin xs).
    { unfold rs in *; clear rs; induction vvols as [|v l IH]; simpl in *.
      - exists []; trivial.
      - apply orb_false_elim in Enan; destruct Enan as [Ev El].
        destruct (IH El) as [xs Exs].
        destruct (effective_radius_cases v) as [E|[x E]]; rewrite E in *;
          [discriminate|].
        exists (x :: xs); simpl; congruence. }
    destruct H as [xs Exs].
    assert (L : List.length vvols = List.length xs).
    { apply (f_equal (@List.length fl)) in Exs; unfold rs in Exs.
      rewrite !length_map in Exs; trivial. }
    rewrite Exs, L; apply above_median_Fin.
Qed.

(** ** A run of [sortVoids] *)

Section WithUtil.

Context `{U : Util}.

(** [sortVoids] reads five attributes of the object, and [minrad] only
    when the method is not 4. *)
Lemma finish_ext (self1 self2 : Zobov) (method : Z) (dc : R) (minvol : fl)
    (vds : list (list nat)) :
  catalog self1 = catalog self2 -> tesselation self1 = tesselation self2 ->
  zones self1 = zones self2 -> prevoids self1 = prevoids self2 ->
  (method <> 4%Z -> minrad self1 = minrad self2) ->
  finish self1 method dc minvol vds = finish self2 method dc minvol vds.
Proof.
  intros Hc Ht Hz Hp Hm; unfold finish; rewrite Hc, Ht, Hz, Hp.
  destruct (Z.eqb_spec method 4) as [->|Hne]; [reflexivity|].
  rewrite Hm by trivial; reflexivity.
Qed.

Lemma candidates_ext (self1 self2 : Zobov) (method : Z) (minsig dc : R) :
  tesselation self1 = tesselation self2 ->
  zones self1 = zones self2 -> prevoids self1 = prevoids self2 ->
  candidates self1 method minsig dc = candidates self2 method minsig dc.
Proof.
  intros Ht Hz Hp; unfold candidates; rewrite Ht, Hz, Hp; reflexivity.
Qed.

Lemma early_not_completed (s1 s2 : string) :
  ~ completed [Msg s1; Msg s2].
Proof.
  intros [mr [H|[H|[]]]]; discriminate.
Qed.

(** A call either returns early, the object untouched, or runs the
    selection of its method and the part after it. *)
Lemma sortVoids_cases (self self' : Zobov) (method : Z) (minsig dc : R)
    (out : list message) :
  sortVoids self method minsig dc = Returned self' out ->
  (self' = self /\ ~ completed out) \/
  (exists c,
     candidates self method minsig dc = Ok c /\
     finish self method dc (fst c) (snd c) = Ok (self', out)).
Proof.
  unfold sortVoids.
  destruct (negb (hasattr (prevoids self)) && negb (method =? 4)%Z).
  { intros [= <- <-]; left; split; trivial.
    intros [mr [H|[]]]; discriminate. }
  destruct (negb (hasattr (prevoids self)) && negb (hasattr (zones self))).
  { intros [= <- <-]; left; split; trivial.
    intros [mr [H|[]]]; discriminate. }
  destruct (method =? 3)%Z.
  { intros [= <- <-]; left; split; trivial; apply early_not_completed. }
  destruct (negb _).
  { intros [= <- <-]; left; split; trivial; apply early_not_completed. }
  destruct (candidates self method minsig dc) as [c|] eqn:Ec; simpl;
    [|discriminate].
  destruct (finish self method dc (fst c) (snd c)) as [[s o]|] eqn:Ef;
    [|discriminate].
  intros [= <- <-]; right; exists c; auto.
Qed.

(** What the part of [sortVoids] after the selection leaves. *)
Lemma finish_facts (self self' : Zobov) (method : Z) (dc : R) (minvol : fl)
    (vds : list (list nat)) (out : list message) :
  finish self method dc minvol vds = Ok (self', out) ->
  exists zn mr rs cs axs zv vds2,
    zones self = Some zn /\
    (catalog self' = catalog self /\ tesselation self' = tesselation self /\
     zones self' = zones self /\ prevoids self' = prevoids self) /\
    minrad self' = Some mr /\ (method <> 4%Z -> minrad self = Some mr) /\
    In (Removed mr) out /\
    (vrads self' = Some rs /\ vcens self' = Some cs /\ vaxes self' = Some axs /\
     zvoid self' = Some zv) /\
    (List.length cs = List.length rs /\ List.length axs = List.length rs /\
     List.length vds2 = List.length rs) /\
    (forall v, In v vds2 -> In v vds) /\
    (forall r, In r rs -> gtb r mr = true) /\
    build_zvoid (List.length (zvols zn)) vds2 = Ok zv.
Proof.
  unfold finish.
  destruct (zones self) as [zn|] eqn:Hzn; simpl; try discriminate.
  destruct (mapM _ vds) as [vcuts|] eqn:E1; simpl; try discriminate.
  destruct (getattr (catalog self)) as [ct|]; simpl; try discriminate.
  destruct (gcut ct) as [g|]; simpl; try discriminate.
  destruct (take (coord ct) g) as [cutco|]; simpl; try discriminate.
  destruct (getattr (tesselation self)) as [ts|]; simpl; try discriminate.
  destruct (mapM _ vcuts) as [vvols|] eqn:E2; simpl; try discriminate.
  destruct (getattr _) as [mr|] eqn:Emr; simpl; try discriminate.
  destruct (mapM _ (mask _ vcuts)) as [vcens1|] eqn:E3; simpl; try discriminate.
  destruct (mapM _ (seq 0 _)) as [vaxes2|] eqn:E4; simpl; try discriminate.
  destruct (build_zvoid _ _) as [zv|] eqn:Ezv; simpl; try discriminate.
  intros [= <- <-]; simpl.
  apply mapM_length in E1, E2, E3, E4; rewrite length_seq in E4.
  set (vrads0 := map effective_radius vvols) in *.
  set (rcut := map (fun r => gtb r mr) vrads0) in *.
  assert (L0 : List.length vrads0 = List.length vds)
    by (unfold vrads0; rewrite length_map; congruence).
  assert (L1 : List.length (mask rcut vrads0) = List.length (mask rcut vds))
    by (apply mask_length_eq; trivial).
  assert (L2 : List.length vcens1 = List.length (mask rcut vrads0)).
  { rewrite E3; apply mask_length_eq; unfold vrads0; rewrite length_map; congruence. }
  assert (Hr : forall r, In r (mask rcut vrads0) -> gtb r mr = true).
  { intros r Hr; unfold rcut in Hr; rewrite mask_map_filter in Hr.
    apply filter_In in Hr; tauto. }
  exists zn, mr; do 5 eexists.
  split; [reflexivity|].
  split; [auto|].
  split.
  { revert Emr; destruct (if (method =? 4)%Z then _ else _); simpl; congruence. }
  split.
  { intros Hne; destruct (Z.eqb_spec method 4) as [->|_]; [contradiction|].
    destruct (minrad self); simpl in Emr; congruence. }
  split; [simpl; auto|].
  split; [repeat split; reflexivity|].
  split; [|split; [|split; [|exact Ezv]]].
  - split; [|split; trivial]; unfold density_recheck;
      destruct (method =? 0)%Z; simpl; trivial;
      repeat apply mask_length_eq; congruence.
  - intros v; unfold density_recheck; destruct (method =? 0)%Z; simpl; intros Hv.
    + do 3 apply mask_In in Hv; trivial.
    + apply mask_In in Hv; trivial.
  - intros r; unfold density_recheck; destruct (method =? 0)%Z; simpl; intros Hv.
    + do 2 apply mask_In in Hv; auto.
    + auto.
Qed.

(** X11.  A call of [sortVoids] that returns leaves the four stages of the
    object as they were, and [self.minrad] as well unless the method is 4;
    a call that returns before the cut on the radius changes nothing at
    all. *)
Theorem sortVoids_frame (self self' : Zobov) (method : Z) (minsig dc : R)
    (out : list message) :
  sortVoids self method minsig dc = Returned self' out ->
  catalog self' = catalog self /\ tesselation self' = tesselation self /\
  zones self' = zones self /\ prevoids self' = prevoids self /\
  (method <> 4%Z -> minrad self' = minrad self) /\
  (~ completed out -> self' = self).
Proof.
  intros H; apply sortVoids_cases in H.
  destruct H as [[-> Hout]|[c [_ Ef]]]; [repeat split; trivial|].
  destruct (finish_facts _ _ _ _ _ _ _ Ef)
    as (zn & mr & rs & cs & axs & zv' & vds2 & Hzn & (Hc & Ht & Hz & Hp) & Hm & Hm' &
        Hlog & (Hr & Hcs & Ha & Hv) & (L1 & L2 & L3) & Hsub & Hgt & Ezv).
  repeat split; trivial.
  - intros Hne; rewrite Hm, Hm'; trivial.
  - intros Hno; exfalso; apply Hno; exists mr; trivial.
Qed.

(** X12.  Running [sortVoids] again with the same arguments on the object
    it has left gives the same object and prints the same. *)
Theorem sortVoids_idempotent (self self' : Zobov) (method : Z) (minsig dc : R)
    (out : list message) :
  sortVoids self method minsig dc = Returned self' out ->
  sortVoids self' method minsig dc = Returned self' out.
Proof.
  intros H; pose proof H as H0; apply sortVoids_cases in H.
  destruct H as [[-> Hout]|[c [Ec Ef]]]; trivial.
  destruct (finish_facts _ _ _ _ _ _ _ Ef)
    as (zn & mr & rs & cs & axs & zv' & vds2 & Hzn & (Hc & Ht & Hz & Hp) & Hm & Hm' &
        Hlog & (Hr & Hcs & Ha & Hv) & (L1 & L2 & L3) & Hsub & Hgt & Ezv).
  assert (Ec' : candidates self' method minsig dc = Ok c)
    by (rewrite <- Ec; apply candidates_ext; trivial).
  assert (Ef' : finish self' method dc (fst c) (snd c) = Ok (self', out)).
  { rewrite (finish_ext self' self); trivial.
    intros Hne; rewrite Hm, Hm'; trivial. }
  revert H0; unfold sortVoids; rewrite Hp, Hz, Ec, Ec'; simpl.
  rewrite Ef, Ef'.
  destruct (negb (hasattr (prevoids self)) && negb (method =? 4)%Z);
    [intros [= <- <-]; reflexivity|].
  destruct (negb (hasattr (prevoids self)) && negb (hasattr (zones self)));
    [intros [= <- <-]; reflexivity|].
  destruct (method =? 3)%Z; [intros [= <- <-]; reflexivity|].
  destruct (negb _); [intros [= <- <-]; reflexivity|trivial].
Qed.

Lemma completed_finish (self self' : Zobov) (method : Z) (minsig dc : R)
    (out : list message) :
  sortVoids self method minsig dc = Returned self' out -> completed out ->
  exists c,
    candidates self method minsig dc = Ok c /\
    finish self method dc (fst c) (snd c) = Ok (self', out).
Proof.
  intros H Hout; apply sortVoids_cases in H.
  destruct H as [[_ Hno]|H]; [contradiction|trivial].
Qed.

(** X13.  The arrays of a run that went through: [vcens] and [vaxes] have
    an entry per radius of [vrads], [zvoid] has a row per zone, and each
    index of a row of [zvoid] is [-1] or the index of a void, a row of the
    three arrays. *)
Theorem sorted_voids_shapes (self self' : Zobov) (method : Z) (minsig dc : R)
    (out : list message) :
  sortVoids self method minsig dc = Returned self' out -> completed out ->
  exists zn rs cs axs zv,
    zones self' = Some zn /\ vrads self' = Some rs /\ vcens self' = Some cs /\
    vaxes self' = Some axs /\ zvoid self' = Some zv /\
    List.length cs = List.length rs /\ List.length axs = List.length rs /\
    List.length zv = List.length (zvols zn) /\
    forall j p s, nth_error zv j = Some (p, s) ->
      (p = (-1)%Z /\ s = (-1)%Z) \/
      ((0 <= p < Z.of_nat (List.length rs))%Z /\
       (0 <= s < Z.of_nat (List.length rs))%Z).
Proof.
  intros H Hout; destruct (completed_finish _ _ _ _ _ _ H Hout) as [c [_ Ef]].
  destruct (finish_facts _ _ _ _ _ _ _ Ef)
    as (zn & mr & rs & cs & axs & zv' & vds2 & Hzn & (Hc & Ht & Hz & Hp) & Hm & Hm' &
        Hlog & (Hr & Hcs & Ha & Hv) & (L1 & L2 & L3) & Hsub & Hgt & Ezv).
  destruct (build_zvoid_extremes _ _ _ Ezv) as [Lz G].
  exists zn, rs, cs, axs, zv'; rewrite Hz.
  repeat (split; trivial).
  intros j p s Hj.
  destruct (G j _ Hj) as [[_ E]|[p' [s' [E [[Hp' _] [Hs' _]]]]]];
    injection E as -> ->; [left; auto|right].
  destruct Hp' as [vp [Hp' _]], Hs' as [vs [Hs' _]].
  apply nth_error_lt in Hp', Hs'; lia.
Qed.

(** X14.  The cut on the radius: every radius a run leaves in [vrads] is
    strictly above [self.minrad] as the run printed it, which is the value
    the object had before for every method but 4; neither is a NaN. *)
Theorem emitted_radii_above_minrad (self self' : Zobov) (method : Z)
    (minsig dc : R) (out : list message) :
  sortVoids self method minsig dc = Returned self' out -> completed out ->
  exists mr rs,
    minrad self' = Some mr /\ vrads self' = Some rs /\ In (Removed mr) out /\
    (method <> 4%Z -> minrad self = Some mr) /\
    forall r, In r rs ->
      gtb r mr = true /\ is_nan r = false /\ is_nan mr = false.
Proof.
  intros H Hout; destruct (completed_finish _ _ _ _ _ _ H Hout) as [c [_ Ef]].
  destruct (finish_facts _ _ _ _ _ _ _ Ef)
    as (zn & mr & rs & cs & axs & zv' & vds2 & Hzn & (Hc & Ht & Hz & Hp) & Hm & Hm' &
        Hlog & (Hr & Hcs & Ha & Hv) & (L1 & L2 & L3) & Hsub & Hgt & Ezv).
  exists mr, rs; repeat (split; trivial); try (apply Hgt; trivial);
    apply (gtb_not_nan r mr); apply Hgt; trivial.
Qed.

Lemma candidates4 (self : Zobov) (minsig dc : R) (c : fl * list (list nat)) :
  candidates self 4 minsig dc = Ok c ->
  exists zn, zones self = Some zn /\ snd c = select_zones zn.
Proof.
  unfold candidates; simpl.
  destruct (zones self) as [zn|]; simpl; [|discriminate].
  intros [= <-]; eauto.
Qed.

(** X15.  With method 4 a void is one zone: in every row of [zvoid] the
    two indices are the same, and two zones never share a void. *)
Theorem method4_one_void_per_zone (self self' : Zobov) (minsig dc : R)
    (out : list message) (zv : list (Z * Z)) :
  sortVoids self 4 minsig dc = Returned self' out -> completed out ->
  zvoid self' = Some zv ->
  (forall j p s, nth_error zv j = Some (p, s) -> p = s) /\
  (forall j j' p, nth_error zv j = Some (p, p) -> nth_error zv j' = Some (p, p) ->
     p <> (-1)%Z -> j = j').
Proof.
  intros H Hout Hzv; destruct (completed_finish _ _ _ _ _ _ H Hout) as [c [Ec Ef]].
  destruct (candidates4 _ _ _ _ Ec) as [zn0 [_ Esel]].
  destruct (finish_facts _ _ _ _ _ _ _ Ef)
    as (zn & mr & rs & cs & axs & zv' & vds2 & Hzn & (Hc & Ht & Hz & Hp) & Hm & Hm' &
        Hlog & (Hr & Hcs & Ha & Hv) & (L1 & L2 & L3) & Hsub & Hgt & Ezv).
  rewrite Hzv in Hv; injection Hv as <-.
  destruct (build_zvoid_extremes _ _ _ Ezv) as [_ G].
  assert (Hone : forall i v, nth_error vds2 i = Some v -> exists z, v = [z]).
  { intros i v Hi; apply nth_error_In, Hsub in Hi.
    rewrite Esel in Hi; unfold select_zones in Hi.
    apply in_map_iff in Hi; destruct Hi as [z [<- _]]; eauto. }
  assert (Hsize : forall j i, contains vds2 j i -> size vds2 i = 1 /\
                                nth_error vds2 i = Some [j]).
  { intros j i [v [Hi Hj]]; rewrite (size_nth _ _ _ Hi).
    destruct (Hone i v Hi) as [z ->]; destruct Hj as [->|[]]; auto. }
  split.
  - intros j p s Hj.
    destruct (G j _ Hj) as [[_ E]|[p' [s' [E [[Hp' Hmin] [Hs' Hmax]]]]]];
      injection E as -> ->; trivial.
    destruct (Hsize _ _ Hp') as [Sp _], (Hsize _ _ Hs') as [Ss _].
    destruct (Hmin s' Hs') as [Hlt|[_ Hle]]; [lia|].
    destruct (Hmax p' Hp') as [Hlt|[_ Hle']]; [lia|].
    f_equal; lia.
  - intros j j' p Hj Hj' Hpne.
    destruct (G j _ Hj) as [[_ E]|[p1 [s1 [E [[Hp1 _] _]]]]];
      [congruence|injection E as -> _].
    destruct (G j' _ Hj') as [[_ E]|[p2 [s2 [E [[Hp2 _] _]]]]];
      [congruence|injection E as E _].
    apply Nat2Z.inj in E; subst p2.
    destruct (Hsize _ _ Hp1) as [_ E1], (Hsize _ _ Hp2) as [_ E2].
    congruence.
Qed.

Lemma finish4_radii (self self' : Zobov) (dc : R) (minvol : fl)
    (vds : list (list nat)) (out : list message) :
  finish self 4 dc minvol vds = Ok (self', out) ->
  exists vvols,
    List.length vvols = List.length vds /\
    vrads self' =
      Some (filter (fun r => gtb r (median (map effective_radius vvols)))
                   (map effective_radius vvols)).
Proof.
  unfold finish.
  destruct (getattr (zones self)) as [zn|]; simpl; try discriminate.
  destruct (mapM _ vds) as [vcuts|] eqn:E1; simpl; try discriminate.
  destruct (getattr (catalog self)) as [ct|]; simpl; try discriminate.
  destruct (gcut ct) as [g|]; simpl; try discriminate.
  destruct (take (coord ct) g) as [cutco|]; simpl; try discriminate.
  destruct (getattr (tesselation self)) as [ts|]; simpl; try discriminate.
  destruct (mapM _ vcuts) as [vvols|] eqn:E2; simpl; try discriminate.
  destruct (mapM _ (mask _ vcuts)) as [vcens1|]; simpl; try discriminate.
  destruct (mapM _ (seq 0 _)) as [vaxes2|]; simpl; try discriminate.
  destruct (build_zvoid _ _) as [zv|]; simpl; try discriminate.
  intros [= <- <-]; simpl.
  apply mapM_length in E1, E2.
  exists vvols; split; [congruence|].
  rewrite mask_map_filter; trivial.
Qed.

(** X16.  Method 4 keeps the zones whose radius is above the median of
    the radii of all zones: at most half of the zones become voids. *)
Theorem method4_at_most_half (self self' : Zobov) (minsig dc : R)
    (out : list message) :
  sortVoids self 4 minsig dc = Returned self' out -> completed out ->
  exists zn rs,
    zones self = Some zn /\ vrads self' = Some rs /\
    2 * List.length rs <= List.length (zvols zn).
Proof.
  intros H Hout; destruct (completed_finish _ _ _ _ _ _ H Hout) as [c [Ec Ef]].
  destruct (candidates4 _ _ _ _ Ec) as [zn [Hzn Esel]].
  destruct (finish4_radii _ _ _ _ _ _ Ef) as [vvols [L Hr]].
  exists zn; eexists; split; [trivial|split; [exact Hr|]].
  etransitivity; [apply above_median_radii|].
  rewrite L, Esel; unfold select_zones; rewrite length_map, length_seq; trivial.
Qed.

End WithUtil.

(** ** The theorems at the survey of one zone *)

Lemma zones_only_run :
  exists self' out zv,
    sortVoids (U := plain_util) zones_only 4 2 (/ 5) = Returned self' out /\
    completed out /\ zvoid self' = Some zv.
Proof.
  destruct (method4_run (U := plain_util) zones_only one_galaxy one_cell one_zone
              2 (/ 5) eq_refl eq_refl eq_refl one_zone_ok)
    as [self' [out [radii [E [_ [_ [Ev [_ [_ [_ Hz]]]]]]]]]].
  destruct (zvoid self') as [zv|] eqn:Ezv; [|discriminate].
  exists self', out, zv; split; [trivial|split; [|trivial]].
  destruct (sortVoids_cases _ _ _ _ _ _ E) as [[-> _]|[c [_ Ef]]]; [discriminate|].
  destruct (finish_facts _ _ _ _ _ _ _ Ef)
    as (zn & mr & rs & cs & axs & zv' & vds2 & Hzn & _ & _ & _ & Hlog & _).
  exists mr; trivial.
Qed.

(** ** The theorems at the survey of four zones *)

Lemma cbrt_cube (k : R) : (0 < k)%R -> cbrt (k ^ 3) = k.
Proof.
  intros Hk; unfold cbrt.
  assert (H3 : (0 < k ^ 3)%R) by (apply pow_lt; trivial).
  rewrite (proj2 (Reqb_false (k ^ 3) 0)) by lra.
  replace (k ^ 3)%R with (Rpower k (INR 3)) by (apply Rpower_pow; trivial).
  rewrite Rpower_mult.
  replace (INR 3 * / 3)%R with 1%R by (simpl; field).
  apply Rpower_1; trivial.
Qed.

(** The effective radius of a cell with the volume of a ball. *)
Lemma ball_radius (k : R) : (0 < k)%R -> effective_radius (ball k + 0) = Fin k.
Proof.
  intros Hk; pose proof PI_RGT_0.
  assert (H3 : (0 < k ^ 3)%R) by (apply pow_lt; trivial).
  rewrite effective_radius_nonneg by (unfold ball; nra).
  f_equal; rewrite <- (cbrt_cube k Hk) at 2; f_equal.
  unfold ball; field; lra.
Qed.

Lemma gtb_Fin_true (x y : R) : (y < x)%R -> gtb (Fin x) (Fin y) = true.
Proof. intros H; apply gtb_Fin; trivial. Qed.

Lemma gtb_Fin_false (x y : R) : (x <= y)%R -> gtb (Fin x) (Fin y) = false.
Proof.
  intros H; destruct (gtb (Fin x) (Fin y)) eqn:E; trivial.
  apply gtb_Fin in E; lra.
Qed.

Lemma leb_Fin_true (x y : R) : (x <= y)%R -> leb (Fin x) (Fin y) = true.
Proof. intros H; apply leb_Fin; trivial. Qed.

Lemma median_1234 : median [Fin 1; Fin 2; Fin 3; Fin 4] = Fin ((2 + 3) / 2).
Proof.
  unfold median, sort;
    cbn [List.length Nat.eqb existsb is_nan orb Nat.even fold_right insert_sorted].
  rewrite (leb_Fin_true 3 4) by lra; cbn [insert_sorted].
  rewrite (leb_Fin_true 2 3) by lra; cbn [insert_sorted].
  rewrite (leb_Fin_true 1 2) by lra.
  cbn [Nat.div Nat.divmod fst Nat.sub nth add div].
  rewrite (proj2 (Reqb_false 2 0)) by lra; reflexivity.
Qed.

(** Method 4 on the survey of four zones: the radii are 1, 2, 3 and 4,
    the median is 2.5, and the zones 2 and 3 are the voids 0 and 1. *)
Lemma four_zones_run :
  exists self' out cs axs,
    sortVoids (U := plain_util) four_zones_only 4 2 (/ 5) = Returned self' out /\
    completed out /\ minrad self' = Some (Fin ((2 + 3) / 2)) /\
    vrads self' = Some [Fin 3; Fin 4] /\
    vcens self' = Some cs /\ vaxes self' = Some axs /\
    zvoid self' =
      Some [((-1)%Z, (-1)%Z); ((-1)%Z, (-1)%Z); (0%Z, 0%Z); (1%Z, 1%Z)].
Proof.
  unfold sortVoids;
    cbn [four_zones_only initialised hasattr prevoids zones Z.ltb Z.compare negb
         andb Z.eqb orb Pos.eqb].
  unfold candidates;
    cbn [Z.eqb Pos.eqb zones four_zones_only initialised getattr bind fst snd
         Z.ltb Z.compare].
  unfold finish.
  cbn -[effective_radius median gtb ball PI].
  rewrite !ball_radius by lra.
  rewrite median_1234.
  rewrite (gtb_Fin_false 1), (gtb_Fin_false 2), (gtb_Fin_true 3), (gtb_Fin_true 4)
    by lra.
  cbn -[ball PI].
  do 4 eexists; split; [reflexivity|]; cbn.
  split; [eexists; right; right; right; left; reflexivity|].
  repeat split.
Qed.

Lemma sortVoids_frame_witness :
  exists self' out,
    sortVoids (U := plain_util) zones_only 4 2 (/ 5) = Returned self' out /\
    (catalog self' = catalog zones_only /\
     tesselation self' = tesselation zones_only /\
     zones self' = zones zones_only /\ prevoids self' = prevoids zones_only /\
     (4%Z <> 4%Z -> minrad self' = minrad zones_only) /\
     (~ completed out -> self' = zones_only)).
Proof.
  destruct zones_only_run as [self' [out [zv [E _]]]].
  exists self', out; split; [exact E|].
  apply (sortVoids_frame (U := plain_util) zones_only self' 4 2 (/ 5) out E).
Defined.

Lemma sortVoids_idempotent_witness :
  exists self' out,
    sortVoids (U := plain_util) zones_only 4 2 (/ 5) = Returned self' out /\
    sortVoids (U := plain_util) self' 4 2 (/ 5) = Returned self' out.
Proof.
  destruct zones_only_run as [self' [out [zv [E _]]]].
  exists self', out; split; [exact E|].
  apply (sortVoids_idempotent (U := plain_util) zones_only self' 4 2 (/ 5) out E).
Defined.

Lemma sorted_voids_shapes_witness :
  exists self' out,
    (sortVoids (U := plain_util) four_zones_only 4 2 (/ 5) = Returned self' out /\
     completed out) /\
    (vrads self' = Some [Fin 3; Fin 4] /\
     zvoid self' =
       Some [((-1)%Z, (-1)%Z); ((-1)%Z, (-1)%Z); (0%Z, 0%Z); (1%Z, 1%Z)]) /\
    exists zn rs cs axs zv,
      zones self' = Some zn /\ vrads self' = Some rs /\ vcens self' = Some cs /\
      vaxes self' = Some axs /\ zvoid self' = Some zv /\
      List.length cs = List.length rs /\ List.length axs = List.length rs /\
      List.length zv = List.length (zvols zn) /\
      forall j p s, nth_error zv j = Some (p, s) ->
        (p = (-1)%Z /\ s = (-1)%Z) \/
        ((0 <= p < Z.of_nat (List.length rs))%Z /\
         (0 <= s < Z.of_nat (List.length rs))%Z).
Proof.
  destruct four_zones_run as (self' & out & cs & axs & E & Hout & _ & Hr & _ & _ & Hz).
  exists self', out; split; [split; trivial|split; [split; trivial|]].
  apply (sorted_voids_shapes (U := plain_util) four_zones_only self' 4 2 (/ 5)
           out E Hout).
Defined.

Lemma emitted_radii_above_minrad_witness :
  exists self' out,
    (sortVoids (U := plain_util) four_zones_only 4 2 (/ 5) = Returned self' out /\
     completed out) /\
    (minrad self' = Some (Fin ((2 + 3) / 2)) /\ vrads self' = Some [Fin 3; Fin 4]) /\
    exists mr rs,
      minrad self' = Some mr /\ vrads self' = Some rs /\ In (Removed mr) out /\
      (4%Z <> 4%Z -> minrad four_zones_only = Some mr) /\
      forall r, In r rs ->
        gtb r mr = true /\ is_nan r = false /\ is_nan mr = false.
Proof.
  destruct four_zones_run as (self' & out & cs & axs & E & Hout & Hm & Hr & _).
  exists self', out; split; [split; trivial|split; [split; trivial|]].
  apply (emitted_radii_above_minrad (U := plain_util) four_zones_only self' 4 2
           (/ 5) out E Hout).
Defined.

Lemma method4_one_void_per_zone_witness :
  exists self' out,
    (sortVoids (U := plain_util) four_zones_only 4 2 (/ 5) = Returned self' out /\
     completed out /\
     zvoid self' =
       Some [((-1)%Z, (-1)%Z); ((-1)%Z, (-1)%Z); (0%Z, 0%Z); (1%Z, 1%Z)]) /\
    (forall j p s,
       nth_error [((-1)%Z, (-1)%Z); ((-1)%Z, (-1)%Z); (0%Z, 0%Z); (1%Z, 1%Z)] j =
         Some (p, s) -> p = s) /\
    (forall j j' p,
       nth_error [((-1)%Z, (-1)%Z); ((-1)%Z, (-1)%Z); (0%Z, 0%Z); (1%Z, 1%Z)] j =
         Some (p, p) ->
       nth_error [((-1)%Z, (-1)%Z); ((-1)%Z, (-1)%Z); (0%Z, 0%Z); (1%Z, 1%Z)] j' =
         Some (p, p) ->
       p <> (-1)%Z -> j = j').
Proof.
  destruct four_zones_run as (self' & out & cs & axs & E & Hout & _ & _ & _ & _ & Hz).
  exists self', out; split; [auto|].
  apply (method4_one_void_per_zone (U := plain_util) four_zones_only self' 2 (/ 5)
           out _ E Hout Hz).
Defined.

Lemma method4_at_most_half_witness :
  exists self' out,
    (sortVoids (U := plain_util) zones_only 4 2 (/ 5) = Returned self' out /\
     completed out) /\
    exists zn rs,
      zones zones_only = Some zn /\ vrads self' = Some rs /\
      2 * List.length rs <= List.length (zvols zn).
Proof.
  destruct zones_only_run as [self' [out [zv [E [Hout _]]]]].
  exists self', out; split; [split; trivial|].
  apply (method4_at_most_half (U := plain_util) zones_only self' 2 (/ 5) out E Hout).
Defined.

End ZobovRuns.

(** * [Zobov.__init__] and [Zobov.saveVoids] *)

Module ZobovIOSpec.

Import Zobov FloatFacts ArrayFacts Shapes VoidTests ZobovSpec ZobovRuns ZobovIO.

Local Open Scope string_scope.
Local Open Scope nat_scope.
Local Open Scope list_scope.

#[local] Arguments ltb : simpl never.
#[local] Arguments gtb : simpl never.
#[local] Arguments leb : simpl never.
#[local] Arguments geb : simpl never.
#[local] Arguments String.append : simpl never.
#[local] Arguments String.eqb : simpl never.
#[local] Arguments intloc : simpl never.

Ltac run_io :=
  unfold init, stage_voids, stage_zones, stage_tesselation, assign_if, when, var,
    load, dump_ctlg, dump_tess, dump_zones, dump_voids, print, bind_io, ret,
    raise, self_visualize;
  cbn.

(** ** The stages of [__init__] *)

Lemma valid_stages_cases (start end_ : Z) :
  valid_stages start end_ = true ->
  In (start, end_)
     [(0, 0); (0, 1); (0, 2); (0, 3); (0, 4); (1, 1); (1, 2); (1, 3); (1, 4);
      (2, 2); (2, 3); (2, 4); (3, 3); (3, 4); (4, 4)]%Z.
Proof.
  unfold valid_stages; intros H.
  apply andb_prop in H; destruct H as [H Hle].
  apply andb_prop in H; destruct H as [Hs He].
  simpl in Hs, He.
  repeat (apply orb_prop in Hs; destruct Hs as [Hs|Hs]); try discriminate;
    apply Z.eqb_eq in Hs; subst start;
    repeat (apply orb_prop in He; destruct He as [He|He]); try discriminate;
    apply Z.eqb_eq in He; subst end_;
    simpl in Hle; try discriminate; simpl; tauto.
Qed.

Ltac stage_cases H :=
  apply valid_stages_cases in H; simpl in H;
  repeat (destruct H as [H|H]); try contradiction; injection H as <- <-.

Ltac io_cases w :=
  repeat (cbn;
          match goal with
          | |- context [match ?pkl w ?p with Some _ => _ | None => _ end] =>
              destruct (pkl w p) eqn:?
          | |- context [if dirs w ?p then _ else _] => destruct (dirs w p) eqn:?
          end).

Section WithClasses.

Context `{C : Classes}.

Variable cfg : Settings.

(** What a call of [__init__] with a valid range of stages leaves on the
    object. *)
Lemma init_attrs (start end_ : Z) (save viz per : bool) (w w' : World) (s : Session) :
  valid_stages start end_ = true ->
  init cfg start end_ save viz per w = (inl s, w') ->
  hasattr (catalog (core s)) = true /\
  hasattr (tesselation (core s)) = (0 <? end_)%Z /\
  hasattr (zones (core s)) = (1 <? end_)%Z /\
  hasattr (prevoids (core s)) = (2 <? end_)%Z /\
  minrad (core s) = Some (radius_min cfg) /\
  (vrads (core s) = None /\ vcens (core s) = None /\ vaxes (core s) = None /\
   zvoid (core s) = None) /\
  visualize s = Some (self_visualize viz per) /\ periodic s = Some per /\
  settings s = Some cfg.
Proof.
  intros Hv; stage_cases Hv; destruct save, viz, per; run_io; io_cases w;
    cbn; intros E; try discriminate; injection E as <- <-; cbn; repeat split.
Qed.

(** The object and the world after a call of [__init__] that finds the
    checkpoints it reads and, when it is to write one, the directory of
    the checkpoints. *)
Lemma init_run (start end_ : Z) (save viz per : bool) (w : World)
    (c0 : Catalog) (t0 : Tesselation) (z0 : Zones) (v0 : Voids) :
  valid_stages start end_ = true ->
  checkpoints cfg start w c0 t0 z0 v0 ->
  (save && (start <? 4)%Z = true -> dirs w (intloc cfg) = true) ->
  init cfg start end_ save viz per w =
    (inl (mkSession
            (initialised end_ (radius_min cfg)
               (run_catalog cfg start per c0)
               (run_tesselation cfg start viz per c0 t0)
               (run_zones cfg start viz per c0 t0 z0)
               (run_voids cfg start viz per c0 t0 z0 v0))
            (Some (self_visualize viz per)) (Some per) (Some cfg)),
     mkWorld (dirs w)
       (if save && (start <? 1)%Z
        then update (ctlg_pkl w) (intloc cfg ++ "_ctlg.pkl")
               (run_catalog cfg start per c0)
        else ctlg_pkl w)
       (if save && (start <? 2)%Z && (0 <? end_)%Z
        then update (tess_pkl w) (intloc cfg ++ "_tess.pkl")
               (run_tesselation cfg start viz per c0 t0)
        else tess_pkl w)
       (if save && (start <? 3)%Z && (1 <? end_)%Z
        then update (zones_pkl w) (intloc cfg ++ "_zones.pkl")
               (run_zones cfg start viz per c0 t0 z0)
        else zones_pkl w)
       (if save && (start <? 4)%Z && (2 <? end_)%Z
        then update (voids_pkl w) (intloc cfg ++ "_voids.pkl")
               (run_voids cfg start viz per c0 t0 z0 v0)
        else voids_pkl w)
       (files w)
       (if viz && per
        then stdout w ++
             ["Visualization not implemented for periodic boundary conditions: changing to false"]
        else stdout w)).
Proof.
  intros Hv (Hc & Ht & Hz & Hp) Hd; stage_cases Hv;
    repeat match goal with
           | H : (_ <= _)%Z -> _ |- _ =>
               first [specialize (H ltac:(lia)) | clear H]
           end;
    destruct save, viz, per;
    first [specialize (Hd eq_refl) | clear Hd];
    run_io;
    unfold run_voids, run_zones, run_tesselation, run_catalog, initialised,
      self_visualize;
    repeat (cbn; first [rewrite Hc | rewrite Ht | rewrite Hz | rewrite Hp
                       | rewrite Hd]);
    cbn; destruct w; reflexivity.
Qed.

(** A call of [__init__] that misses one of the checkpoints it reads:
    every checkpoint is read before the first one is written. *)
Lemma init_missing (start end_ : Z) (save viz per : bool) (w : World) :
  valid_stages start end_ = true ->
  checkpoint_missing cfg start w ->
  init cfg start end_ save viz per w =
    (inr FileNotFoundError,
     mkWorld (dirs w) (ctlg_pkl w) (tess_pkl w) (zones_pkl w) (voids_pkl w)
       (files w)
       (if viz && per
        then stdout w ++
             ["Visualization not implemented for periodic boundary conditions: changing to false"]
        else stdout w)).
Proof.
  intros Hv Hm; stage_cases Hv; unfold checkpoint_missing in Hm;
    destruct save, viz, per; run_io; io_cases w;
    cbn; try (destruct w; reflexivity); exfalso;
    destruct Hm as [[H1 H2]|[[H1 H2]|[[H1 H2]|[H1 H2]]]]; try lia; congruence.
Qed.

(** A call of [__init__] that finds its checkpoints and is to write one
    without the directory for it: the first [open] for writing raises. *)
Lemma init_no_directory (start end_ : Z) (save viz per : bool) (w : World)
    (c0 : Catalog) (t0 : Tesselation) (z0 : Zones) (v0 : Voids) :
  valid_stages start end_ = true ->
  checkpoints cfg start w c0 t0 z0 v0 ->
  directory_missing cfg start save w ->
  init cfg start end_ save viz per w =
    (inr FileNotFoundError,
     mkWorld (dirs w) (ctlg_pkl w) (tess_pkl w) (zones_pkl w) (voids_pkl w)
       (files w)
       (if viz && per
        then stdout w ++
             ["Visualization not implemented for periodic boundary conditions: changing to false"]
        else stdout w)).
Proof.
  intros Hv (Hc & Ht & Hz & Hp) (-> & Hlt & Hd); stage_cases Hv;
    repeat match goal with
           | H : (_ <= _)%Z -> _ |- _ =>
               first [specialize (H ltac:(lia)) | clear H]
           end;
    try lia; destruct viz, per; run_io;
    repeat (cbn; first [rewrite Hc | rewrite Ht | rewrite Hz | rewrite Hp
                       | rewrite Hd]);
    cbn; destruct w; reflexivity.
Qed.

Lemma checkpoint_cases {A : Type} (d : A) (P : Prop) (o : option A) :
  {P} + {~ P} -> (P /\ o = None) \/ exists a, P -> o = Some a.
Proof.
  intros [H|H]; destruct o as [a|];
    [right; exists a; trivial | left; auto | right; exists d; tauto
    | right; exists d; tauto].
Qed.

Lemma checkpoints_cases (start : Z) (w : World) :
  checkpoint_missing cfg start w \/
  exists c0 t0 z0 v0, checkpoints cfg start w c0 t0 z0 v0.
Proof.
  unfold checkpoint_missing, checkpoints.
  destruct (checkpoint_cases (mkCatalog [] []) _
              (ctlg_pkl w (intloc cfg ++ "_ctlg.pkl")) (Z_le_dec 1 start))
    as [H1|[c0 H1]]; [tauto|].
  destruct (checkpoint_cases (mkTesselation []) _
              (tess_pkl w (intloc cfg ++ "_tess.pkl")) (Z_le_dec 2 start))
    as [H2|[t0 H2]]; [tauto|].
  destruct (checkpoint_cases (mkZones [] []) _
              (zones_pkl w (intloc cfg ++ "_zones.pkl")) (Z_le_dec 3 start))
    as [H3|[z0 H3]]; [tauto|].
  destruct (checkpoint_cases (mkVoids [] [] []) _
              (voids_pkl w (intloc cfg ++ "_voids.pkl")) (Z_le_dec 4 start))
    as [H4|[v0 H4]]; [tauto|].
  right; exists c0, t0, z0, v0; auto.
Qed.

Lemma directory_cases (start : Z) (save : bool) (w : World) :
  directory_missing cfg start save w \/
  (save && (start <? 4)%Z = true -> dirs w (intloc cfg) = true).
Proof.
  unfold directory_missing.
  destruct save; [|right; discriminate].
  destruct (Z.ltb_spec start 4); [|right; discriminate].
  destruct (dirs w (intloc cfg)); auto.
Qed.

(** A call that returns found its checkpoints, and the directory if it
    wrote one. *)
Lemma init_returned (start end_ : Z) (save viz per : bool) (w w' : World)
    (s : Session) :
  valid_stages start end_ = true ->
  init cfg start end_ save viz per w = (inl s, w') ->
  (exists c0 t0 z0 v0, checkpoints cfg start w c0 t0 z0 v0) /\
  (save && (start <? 4)%Z = true -> dirs w (intloc cfg) = true).
Proof.
  intros Hv E; destruct (checkpoints_cases start w)
    as [Hm|(c0 & t0 & z0 & v0 & Hc)].
  { rewrite (init_missing _ _ _ _ _ _ Hv Hm) in E; discriminate. }
  split; [eauto|].
  destruct (directory_cases start save w) as [Hd|Hd]; trivial.
  rewrite (init_no_directory _ _ _ _ _ _ _ _ _ _ Hv Hc Hd) in E; discriminate.
Qed.

Lemma valid_stages_range (start end_ : Z) :
  valid_stages start end_ = true -> (0 <= start <= end_ /\ end_ <= 4)%Z.
Proof.
  intros Hv; stage_cases Hv; lia.
Qed.


(** X18.  The checkpoints of a call of [__init__] that returns: with
    [save_intermediate], the file of each stage the call made holds the
    object of that stage; no other file is written, and none at all
    without [save_intermediate]. *)
Theorem init_checkpoints (start end_ : Z) (save viz per : bool) (w w' : World)
    (s : Session) :
  valid_stages start end_ = true ->
  init cfg start end_ save viz per w = (inl s, w') ->
  files w' = files w /\
  (forall p,
     ctlg_pkl w' p =
     if save && (start <? 1)%Z && String.eqb p (intloc cfg ++ "_ctlg.pkl")
     then catalog (core s) else ctlg_pkl w p) /\
  (forall p,
     tess_pkl w' p =
     if save && (start <? 2)%Z && (0 <? end_)%Z &&
        String.eqb p (intloc cfg ++ "_tess.pkl")
     then tesselation (core s) else tess_pkl w p) /\
  (forall p,
     zones_pkl w' p =
     if save && (start <? 3)%Z && (1 <? end_)%Z &&
        String.eqb p (intloc cfg ++ "_zones.pkl")
     then zones (core s) else zones_pkl w p) /\
  (forall p,
     voids_pkl w' p =
     if save && (start <? 4)%Z && (2 <? end_)%Z &&
        String.eqb p (intloc cfg ++ "_voids.pkl")
     then prevoids (core s) else voids_pkl w p).
Proof.
  intros Hv E; destruct (init_returned _ _ _ _ _ _ _ _ Hv E)
    as ((c0 & t0 & z0 & v0 & Hc) & Hd).
  rewrite (init_run _ _ save viz per _ _ _ _ _ Hv Hc Hd) in E.
  clear Hd; injection E as <- <-; cbn.
  split; [reflexivity|].
  repeat split; intros p; unfold update;
    destruct save; cbn; trivial;
    destruct (start <? _)%Z; cbn; trivial;
    destruct (_ <? end_)%Z; cbn; trivial.
Qed.

(** X19.  Stopping and resuming: after a run from stage 0 to stage [e0]
    with [save_intermediate], a run from any stage up to [e0 + 1] with the
    same [visualize] and [periodic] returns, with the object a single run
    from stage 0 to [end] gives (in any world in which that run can write
    its checkpoints). *)
Theorem init_resume (e0 start end_ : Z) (save viz per : bool) (w w0 : World)
    (s0 : Session) :
  valid_stages 0 e0 = true -> valid_stages start end_ = true ->
  (start <= e0 + 1)%Z ->
  init cfg 0 e0 true viz per w = (inl s0, w0) ->
  exists s1 w1,
    init cfg start end_ save viz per w0 = (inl s1, w1) /\
    forall save' w2,
      (save' = true -> dirs w2 (intloc cfg) = true) ->
      exists w3, init cfg 0 end_ save' viz per w2 = (inl s1, w3).
Proof.
  intros H0 Hv Hle E.
  set (c := run_catalog cfg 0 per (mkCatalog [] [])).
  set (t := run_tesselation cfg 0 viz per c (mkTesselation [])).
  set (z := run_zones cfg 0 viz per c t (mkZones [] [])).
  set (v := run_voids cfg 0 viz per c t z (mkVoids [] [] [])).
  assert (Hfresh : forall w2, checkpoints cfg 0 w2 c t z v)
    by (intros w2; repeat split; intros; lia).
  destruct (init_returned _ _ _ _ _ _ _ _ H0 E) as [_ Hd].
  rewrite (init_run _ _ true viz per _ _ _ _ _ H0 (Hfresh w) Hd) in E.
  injection E as <- <-.
  destruct (valid_stages_range _ _ H0) as [_ He0].
  destruct (valid_stages_range _ _ Hv) as [Hs He].
  match goal with
  | |- context [init cfg start end_ save viz per ?W] =>
      assert (Hck : checkpoints cfg start W c t z v)
  end.
  { unfold checkpoints; cbn; unfold update.
    repeat split; intros Hk.
    - rewrite String.eqb_refl; reflexivity.
    - destruct (Z.ltb_spec 0 e0); [|lia]; rewrite String.eqb_refl; reflexivity.
    - destruct (Z.ltb_spec 1 e0); [|lia]; rewrite String.eqb_refl; reflexivity.
    - destruct (Z.ltb_spec 2 e0); [|lia]; rewrite String.eqb_refl; reflexivity. }
  rewrite (init_run _ _ save viz per _ _ _ _ _ Hv Hck)
    by (intros _; cbn; apply Hd; reflexivity).
  do 2 eexists; split; [reflexivity|].
  intros save' w2 Hd2.
  assert (H0' : valid_stages 0 end_ = true).
  { clear - Hv; stage_cases Hv; reflexivity. }
  rewrite (init_run _ _ save' viz per _ _ _ _ _ H0' (Hfresh w2))
    by (intros Hs'; apply Hd2; destruct save'; [trivial|discriminate]).
  eexists; f_equal; f_equal; f_equal.
  unfold run_voids, run_zones, run_tesselation, run_catalog in *; subst c t z v;
    clear - Hv; stage_cases Hv; reflexivity.
Qed.


End WithClasses.

(** ** [__init__], [sortVoids] and [saveVoids] in a row *)

Lemma append_inj_l (a b c : string) : (a ++ b = a ++ c)%string -> b = c.
Proof.
  induction a as [|x a IH]; simpl; [trivial|].
  intros [= H]; auto.
Qed.

Lemma table_paths_differ (cfg : Settings) :
  String.eqb (outdir cfg ++ catname cfg ++ "_zobovoids.dat")
             (outdir cfg ++ catname cfg ++ "_zonevoids.dat") = false.
Proof.
  apply String.eqb_neq; intros H.
  do 2 apply append_inj_l in H; discriminate.
Qed.

Lemma bind_io_frame {A B : Type} (m : io A) (k : A -> io B) (w : World) :
  (forall w0, snd (m w0) = w0) -> (forall a w0, snd (k a w0) = w0) ->
  snd (bind_io m k w) = w.
Proof.
  intros Hm Hk; unfold bind_io.
  specialize (Hm w); destruct (m w) as [[a|e] w1]; simpl in Hm; subst w1;
    [apply Hk|reflexivity].
Qed.

Lemma attr_frame {A : Type} (x : option A) (w : World) : snd (attr x w) = w.
Proof. destruct x; reflexivity. Qed.

Lemma column3_frame {A : Type} (proj : A -> R) (a : list A) (w : World) :
  snd (column3 proj a w) = w.
Proof. destruct a; reflexivity. Qed.

Lemma zvoid_column_frame (proj : Z * Z -> Z) (zv : list (Z * Z)) (w : World) :
  snd (zvoid_column proj zv w) = w.
Proof. destruct zv; reflexivity. Qed.

Lemma Table_init_frame (data : list column) (names : list string) (w : World) :
  snd (Table_init data names w) = w.
Proof.
  unfold Table_init; destruct data; [reflexivity|].
  destruct (_ && _); reflexivity.
Qed.

Ltac frame :=
  repeat first
    [ apply attr_frame | apply column3_frame | apply zvoid_column_frame
    | apply Table_init_frame | reflexivity
    | apply bind_io_frame; intros ];
  trivial.

Lemma axes_columns_frame (vaxs : list axes) (w : World) :
  snd (axes_columns vaxs w) = w.
Proof. unfold axes_columns; frame. Qed.

Lemma zone_table_frame (self : Session) (w : World) : snd (zone_table self w) = w.
Proof. unfold zone_table; frame. Qed.

Section WithSky.

Context `{C : Classes} `{U : Util} `{S : Sky}.

Lemma void_table_frame (self : Session) (cens : list vec3) (w : World) :
  snd (void_table self cens w) = w.
Proof.
  unfold void_table.
  apply bind_io_frame; intros; [apply attr_frame|].
  apply bind_io_frame; intros; [apply attr_frame|].
  destruct a0.
  - repeat (apply bind_io_frame; intros;
            [first [apply attr_frame | apply column3_frame
                   | apply axes_columns_frame]|]).
    apply Table_init_frame.
  - apply bind_io_frame; intros; [apply attr_frame|].
    apply bind_io_frame; intros; [destruct (toSky _ _ _ _); reflexivity|].
    repeat (apply bind_io_frame; intros;
            [first [apply attr_frame | apply column3_frame
                   | apply axes_columns_frame]|]).
    apply Table_init_frame.
Qed.

(** X21.  With a range of stages that is not valid, [__init__] prints its
    advice and returns an object without any attribute, no file read or
    written; on that object every method of [sortVoids] and [saveVoids]
    print theirs and return. *)
Theorem invalid_stages_bare (cfg : Settings) (start end_ : Z)
    (save viz per : bool) (w : World) :
  valid_stages start end_ = false ->
  exists s w',
    init cfg start end_ save viz per w = (inl s, w') /\
    s = bare /\ stdout w' = stdout w ++ ["Choose valid stages"] /\
    same_files w w' /\
    (forall method minsig dc,
       sortVoids (core s) method minsig dc = Returned (core s) run_all_stages) /\
    (forall w1,
       saveVoids s w1 =
       (inl tt, mkWorld (dirs w1) (ctlg_pkl w1) (tess_pkl w1) (zones_pkl w1) (voids_pkl w1)
                  (files w1) (stdout w1 ++ ["Sort voids first"]))).
Proof.
  intros Hv; unfold init; rewrite Hv; cbn.
  do 2 eexists; split; [reflexivity|]; cbn.
  repeat split.
  intros method minsig dc; unfold sortVoids; cbn.
  destruct (method =? 4)%Z; reflexivity.
Qed.

(** X22.  After [__init__] with a valid range of stages, [sortVoids] asks
    for all stages and leaves the object as it is exactly when the run
    ended before stage 2, or at stage 2 with a method other than 4. *)
Theorem sortVoids_after_init (cfg : Settings) (start end_ : Z)
    (save viz per : bool) (w w' : World) (s : Session)
    (method : Z) (minsig dc : R) :
  valid_stages start end_ = true ->
  init cfg start end_ save viz per w = (inl s, w') ->
  sortVoids (core s) method minsig dc = Returned (core s) run_all_stages <->
  (end_ <= 1 \/ (end_ = 2 /\ method <> 4))%Z.
Proof.
  intros Hv E.
  destruct (init_attrs cfg _ _ _ _ _ _ _ _ Hv E)
    as (_ & _ & Hz & Hp & _).
  destruct (valid_stages_range _ _ Hv) as [_ He].
  unfold sortVoids; rewrite Hz, Hp.
  destruct (Z.ltb_spec 2 end_) as [H2|H2]; cbn [negb andb].
  - split; [|lia].
    destruct (method =? 3)%Z; [discriminate|].
    destruct (negb _); [discriminate|].
    destruct (candidates _ _ _ _) as [c|]; simpl; [|discriminate].
    destruct (finish _ _ _ _ _) as [[s1 o]|] eqn:Ef; [|discriminate].
    intros [= _ ->].
    destruct (finish_facts _ _ _ _ _ _ _ Ef)
      as (zn & mr & rs & cs & axs & zv' & vds2 & _ & _ & _ & _ & Hlog & _).
    destruct Hlog as [Hlog|[]]; discriminate.
  - destruct (Z.eqb_spec method 4) as [->|Hm]; cbn [negb andb].
    + destruct (Z.ltb_spec 1 end_) as [H1|H1]; cbn [negb].
      * split; [|lia].
        destruct (candidates _ _ _ _) as [c|]; simpl; [|discriminate].
        destruct (finish _ _ _ _ _) as [[s1 o]|] eqn:Ef; [|discriminate].
        intros [= _ ->].
        destruct (finish_facts _ _ _ _ _ _ _ Ef)
          as (zn & mr & rs & cs & axs & zv' & vds2 & _ & _ & _ & _ & Hlog & _).
        destruct Hlog as [Hlog|[]]; discriminate.
      * split; [lia|reflexivity].
    + split; [lia|reflexivity].
Qed.

(** X23.  [saveVoids] before the voids are sorted: on the object
    [__init__] returns, and on that object after a call of [sortVoids]
    that returned before the cut on the radius, [saveVoids] prints its
    advice and writes nothing. *)
Theorem saveVoids_before_sortVoids (cfg : Settings) (start end_ : Z)
    (save viz per : bool) (w w' : World) (s : Session)
    (method : Z) (minsig dc : R) (self' : Zobov) (out : list message)
    (w1 : World) :
  valid_stages start end_ = true ->
  init cfg start end_ save viz per w = (inl s, w') ->
  sortVoids (core s) method minsig dc = Returned self' out ->
  ~ completed out ->
  saveVoids s w1 =
    (inl tt, mkWorld (dirs w1) (ctlg_pkl w1) (tess_pkl w1) (zones_pkl w1) (voids_pkl w1)
               (files w1) (stdout w1 ++ ["Sort voids first"])) /\
  saveVoids (with_core s self') w1 = saveVoids s w1.
Proof.
  intros Hv E Es Hout.
  destruct (init_attrs cfg _ _ _ _ _ _ _ _ Hv E)
    as (_ & _ & _ & _ & _ & (_ & Hc & _ & _) & _).
  destruct (sortVoids_cases _ _ _ _ _ _ Es) as [[-> _]|[c [Ec Ef]]].
  - unfold saveVoids, with_core; cbn; rewrite Hc; split; reflexivity.
  - exfalso; apply Hout.
    destruct (finish_facts _ _ _ _ _ _ _ Ef)
      as (zn & mr & rs & cs & axs & zv' & vds2 & _ & _ & _ & _ & Hlog & _).
    exists mr; trivial.
Qed.

(** X24.  A run of [sortVoids] that left no void: [saveVoids] raises and
    writes nothing, an [IndexError] when it takes the columns of the table
    with periodic boundaries, and otherwise as well unless [toSky] raises
    before. *)
Theorem saveVoids_no_voids (s : Session) (method : Z) (minsig dc : R)
    (self' : Zobov) (out : list message) (w : World) :
  sortVoids (core s) method minsig dc = Returned self' out -> completed out ->
  vrads self' = Some [] ->
  exists e,
    saveVoids (with_core s self') w = (inr e, w) /\
    (periodic s = Some true -> e = Core IndexError) /\
    (periodic s = Some false -> settings s <> None ->
     e = Core IndexError \/ e = ToSkyError).
Proof.
  intros Es Hout Hr0.
  destruct (completed_finish _ _ _ _ _ _ Es Hout) as [c [_ Ef]].
  destruct (finish_facts _ _ _ _ _ _ _ Ef)
    as (zn & mr & rs & cs & axs & zv' & vds2 & Hzn & _ & _ & _ & _ &
        (Hr & Hcs & Ha & Hv) & (L1 & L2 & L3) & _).
  rewrite Hr in Hr0; injection Hr0 as ->.
  destruct cs; [|discriminate]. destruct axs; [|discriminate].
  unfold saveVoids, with_core; cbn; rewrite Hcs.
  unfold void_table, bind_io; cbn; rewrite Ha; cbn.
  destruct (periodic s) as [[|]|]; cbn.
  - eexists; split; [reflexivity|]; split; [trivial|discriminate].
  - destruct (settings s) as [cfg'|]; cbn.
    + destruct (toSky _ _ _ _); cbn;
        (eexists; split; [reflexivity|]; split; [discriminate|auto]).
    + eexists; split; [reflexivity|]; split; [discriminate|].
      intros _ H; contradiction.
  - eexists; split; [reflexivity|]; split; discriminate.
Qed.

(** The nine columns of the axes of [n] voids, [n] positive. *)
Lemma axes_columns_run (vaxs : list axes) (w : World) :
  vaxs <> [] ->
  exists ax,
    axes_columns vaxs w = (inl ax, w) /\ List.length ax = 9 /\
    Forall (fun c => col_length c = List.length vaxs) ax.
Proof.
  intros Hne; destruct vaxs as [|a vaxs]; [contradiction|].
  eexists; split; [reflexivity|]; split; [reflexivity|].
  repeat constructor; cbn; rewrite !length_map; reflexivity.
Qed.

Lemma forallb_col_length (n : nat) (data : list column) :
  Forall (fun c => col_length c = n) data ->
  forallb (fun c' => Nat.eqb (col_length c') n) data = true.
Proof.
  induction 1 as [|c data Hc _ IH]; simpl; [trivial|].
  rewrite Hc, Nat.eqb_refl; trivial.
Qed.

Lemma Table_init_run (n : nat) (data : list column) (names : list string)
    (w : World) :
  Forall (fun c => col_length c = n) data ->
  List.length names = List.length data ->
  Table_init data names w = (inl (mkTable names data), w).
Proof.
  intros Hd Hn; unfold Table_init; destruct data as [|c data]; [reflexivity|].
  pose proof (Forall_inv Hd) as Hc; simpl in Hc.
  rewrite Hc, (forallb_col_length _ _ Hd), Hn, Nat.eqb_refl; reflexivity.
Qed.

(** The table of the voids, when there is a void. *)
Lemma void_table_run (self : Session) (cfg : Settings) (per : bool)
    (rs : list fl) (cs : list vec3) (axs : list axes) (w : World) :
  vrads (core self) = Some rs -> vaxes (core self) = Some axs ->
  periodic self = Some per -> settings self = Some cfg ->
  cs <> [] -> List.length cs = List.length rs ->
  List.length axs = List.length rs ->
  (per = false ->
   exists vz vra vdec,
     toSky cs (H_0 cfg) (Om_m cfg) (zstep cfg) = Some (vz, vra, vdec) /\
     List.length vz = List.length rs /\ List.length vra = List.length rs /\
     List.length vdec = List.length rs) ->
  exists vT,
    void_table self cs w = (inl vT, w) /\
    colnames vT = (if per then void_names_periodic else void_names_sky) /\
    List.length (columns vT) = List.length (colnames vT) /\
    Forall (fun c => col_length c = List.length rs) (columns vT) /\
    In (FloatCol rs) (columns vT).
Proof.
  intros Hr Ha Hp Hs Hne Lc La Hsky.
  assert (Hax : axs <> []).
  { destruct cs; [contradiction|]; destruct axs; [|discriminate].
    simpl in Lc, La; congruence. }
  unfold void_table, bind_io at 1 2; rewrite Ha, Hp; cbn [attr ret].
  destruct per.
  - destruct cs as [|c cs]; [contradiction|].
    unfold bind_io; cbn [column3 ret]; rewrite Hr; cbn [attr ret].
    destruct (axes_columns_run axs w Hax) as (ax & -> & Lax & Hcol).
    rewrite (Table_init_run (List.length rs)).
    + eexists; split; [reflexivity|]; cbn [colnames columns].
      split; [trivial|]; split.
      * simpl; rewrite Lax; reflexivity.
      * split.
        -- repeat constructor; cbn [col_length]; rewrite ?length_map; trivial.
           rewrite <- La; trivial.
        -- simpl; auto.
    + repeat constructor; cbn [col_length]; rewrite ?length_map; trivial.
      rewrite <- La; trivial.
    + simpl; rewrite Lax; reflexivity.
  - destruct (Hsky eq_refl) as (vz & vra & vdec & Esky & Lz & Lra & Ldec).
    unfold bind_io at 1; rewrite Hs; cbn [attr ret].
    unfold bind_io at 1; rewrite Esky; cbn [ret].
    destruct cs as [|c cs]; [contradiction|].
    unfold bind_io; cbn [column3 ret]; rewrite Hr; cbn [attr ret].
    destruct (axes_columns_run axs w Hax) as (ax & -> & Lax & Hcol).
    rewrite (Table_init_run (List.length rs)).
    + eexists; split; [reflexivity|]; cbn [colnames columns].
      split; [trivial|]; split.
      * simpl; rewrite Lax; reflexivity.
      * split.
        -- repeat constructor; cbn [col_length fst snd]; rewrite ?length_map; trivial.
           rewrite <- La; trivial.
        -- simpl; auto 10.
    + repeat constructor; cbn [col_length fst snd]; rewrite ?length_map; trivial.
      rewrite <- La; trivial.
    + simpl; rewrite Lax; reflexivity.
Qed.

(** The table of the zones, when there is a zone. *)
Lemma zone_table_run (self : Session) (zv : list (Z * Z)) (w : World) :
  zvoid (core self) = Some zv -> zv <> [] ->
  zone_table self w =
    (inl (mkTable ["zone"; "void0"; "void1"]
            [IntCol (map Z.of_nat (seq 0 (List.length zv)));
             IntCol (map fst zv); IntCol (map snd zv)]), w).
Proof.
  intros Hz Hne; unfold zone_table, bind_io at 1; rewrite Hz; cbn [attr ret].
  destruct zv as [|p zv]; [contradiction|].
  unfold bind_io; cbn [zvoid_column ret].
  rewrite (Table_init_run (List.length (p :: zv))); trivial.
  repeat constructor; cbn [col_length]; rewrite ?length_map, ?length_seq; trivial.
Qed.

(** X25.  With at least one void and one zone, the arrays of one length,
    and, without periodic boundaries, [toSky] returning three columns of
    that length, [saveVoids] writes its two tables and nothing else: the
    table of the voids has 13 columns with periodic boundaries and 16
    without, a row per void, the radii among them; the table of the zones
    has the index of each zone and the two columns of [zvoid]. *)
Theorem saveVoids_tables (self : Session) (cfg : Settings) (per : bool)
    (rs : list fl) (cs : list vec3) (axs : list axes) (zv : list (Z * Z))
    (w : World) :
  vrads (core self) = Some rs -> vcens (core self) = Some cs ->
  vaxes (core self) = Some axs -> zvoid (core self) = Some zv ->
  periodic self = Some per -> settings self = Some cfg ->
  cs <> [] -> List.length cs = List.length rs ->
  List.length axs = List.length rs -> zv <> [] ->
  (per = false ->
   exists vz vra vdec,
     toSky cs (H_0 cfg) (Om_m cfg) (zstep cfg) = Some (vz, vra, vdec) /\
     List.length vz = List.length rs /\ List.length vra = List.length rs /\
     List.length vdec = List.length rs) ->
  exists vT w',
    saveVoids self w = (inl tt, w') /\
    files w' (outdir cfg ++ catname cfg ++ "_zobovoids.dat") = Some vT /\
    files w' (outdir cfg ++ catname cfg ++ "_zonevoids.dat") =
      Some (mkTable ["zone"; "void0"; "void1"]
              [IntCol (map Z.of_nat (seq 0 (List.length zv)));
               IntCol (map fst zv); IntCol (map snd zv)]) /\
    (forall p,
       p <> (outdir cfg ++ catname cfg ++ "_zobovoids.dat")%string ->
       p <> (outdir cfg ++ catname cfg ++ "_zonevoids.dat")%string ->
       files w' p = files w p) /\
    colnames vT = (if per then void_names_periodic else void_names_sky) /\
    List.length (columns vT) = (if per then 13 else 16) /\
    Forall (fun c => col_length c = List.length rs) (columns vT) /\
    In (FloatCol rs) (columns vT) /\
    stdout w' = stdout w /\
    ctlg_pkl w' = ctlg_pkl w /\ tess_pkl w' = tess_pkl w /\
    zones_pkl w' = zones_pkl w /\ voids_pkl w' = voids_pkl w.
Proof.
  intros Hr Hc Ha Hz Hp Hs Hne Lc La Hzne Hsky.
  destruct (void_table_run self cfg per rs cs axs w Hr Ha Hp Hs Hne Lc La Hsky)
    as (vT & Ev & Hn & Ln & Hcol & Hrad).
  unfold saveVoids; rewrite Hc.
  unfold bind_io at 1; rewrite Ev.
  unfold bind_io at 1; rewrite Hs; cbn [attr ret].
  unfold bind_io at 1; cbn [write].
  unfold bind_io; rewrite (zone_table_run self zv _ Hz Hzne); cbn [write].
  exists vT; eexists; split; [reflexivity|]; cbn.
  unfold update; rewrite table_paths_differ, !String.eqb_refl.
  repeat split; trivial.
  - intros p H1 H2.
    apply String.eqb_neq in H1, H2; rewrite H1, H2; trivial.
  - rewrite Ln, Hn; destruct per; reflexivity.
Qed.

(** X26.  What [saveVoids] never does: it changes no checkpoint, it writes
    no file other than its two tables, it prints only when the voids are
    not sorted, and when it raises the table of the zones is as it
    was. *)
Theorem saveVoids_frame (self : Session) (w w' : World) (r : unit + exn) :
  saveVoids self w = (r, w') ->
  (ctlg_pkl w' = ctlg_pkl w /\ tess_pkl w' = tess_pkl w /\
   zones_pkl w' = zones_pkl w /\ voids_pkl w' = voids_pkl w) /\
  (stdout w' <> stdout w -> vcens (core self) = None) /\
  (forall p, files w' p <> files w p ->
     exists cfg, settings self = Some cfg /\
       (p = (outdir cfg ++ catname cfg ++ "_zobovoids.dat")%string \/
        p = (outdir cfg ++ catname cfg ++ "_zonevoids.dat")%string)) /\
  (forall e cfg, r = inr e -> settings self = Some cfg ->
     files w' (outdir cfg ++ catname cfg ++ "_zonevoids.dat") =
     files w (outdir cfg ++ catname cfg ++ "_zonevoids.dat")).
Proof.
  unfold saveVoids.
  destruct (vcens (core self)) as [cens|].
  2:{ intros [= <- <-]; cbn; repeat split; trivial; intros;
        congruence. }
  unfold bind_io at 1.
  pose proof (void_table_frame self cens w) as Hf.
  destruct (void_table self cens w) as [[vT|e] w1]; simpl in Hf; subst w1.
  2:{ intros [= <- <-]; repeat split; trivial; intros; congruence. }
  unfold bind_io at 1.
  destruct (settings self) as [cfg|]; cbn [attr ret raise].
  2:{ intros [= <- <-]; repeat split; trivial; intros; congruence. }
  unfold bind_io at 1; cbn [write].
  unfold bind_io.
  match goal with
  | |- context [zone_table self ?W] =>
      pose proof (zone_table_frame self W) as Hf;
      destruct (zone_table self W) as [[vZ|e] w1]
  end; simpl in Hf; subst w1;
    cbn [write files ctlg_pkl tess_pkl zones_pkl voids_pkl stdout];
    intros [= <- <-]; cbn [files ctlg_pkl tess_pkl zones_pkl voids_pkl stdout];
    (split; [repeat split|]); (split; [intros H; congruence|]); split.
  - intros p; unfold update; exists cfg; split; trivial.
    destruct (String.eqb_spec p (outdir cfg ++ catname cfg ++ "_zonevoids.dat"));
      [auto|].
    destruct (String.eqb_spec p (outdir cfg ++ catname cfg ++ "_zobovoids.dat"));
      [auto|congruence].
  - intros e cfg' H; discriminate.
  - intros p; unfold update; exists cfg; split; trivial.
    destruct (String.eqb_spec p (outdir cfg ++ catname cfg ++ "_zobovoids.dat"));
      [auto|congruence].
  - intros e0 cfg' _ [= <-]; unfold update.
    rewrite String.eqb_sym, table_paths_differ; trivial.
Qed.

End WithSky.

(** ** The theorems at the survey [demo] *)


Lemma init_checkpoints_witness :
  exists s w',
    valid_stages 2 3 = true /\
    init (C := demo_classes) demo_settings 2 3 true false false checkpointed_world =
      (inl s, w') /\
    files w' = files checkpointed_world /\
    (forall p,
       ctlg_pkl w' p =
       if true && (2 <? 1)%Z && String.eqb p (intloc demo_settings ++ "_ctlg.pkl")
       then catalog (core s) else ctlg_pkl checkpointed_world p) /\
    (forall p,
       tess_pkl w' p =
       if true && (2 <? 2)%Z && (0 <? 3)%Z &&
          String.eqb p (intloc demo_settings ++ "_tess.pkl")
       then tesselation (core s) else tess_pkl checkpointed_world p) /\
    (forall p,
       zones_pkl w' p =
       if true && (2 <? 3)%Z && (1 <? 3)%Z &&
          String.eqb p (intloc demo_settings ++ "_zones.pkl")
       then zones (core s) else zones_pkl checkpointed_world p) /\
    (forall p,
       voids_pkl w' p =
       if true && (2 <? 4)%Z && (2 <? 3)%Z &&
          String.eqb p (intloc demo_settings ++ "_voids.pkl")
       then prevoids (core s) else voids_pkl checkpointed_world p).
Proof.
  do 2 eexists; split; [reflexivity|split; [reflexivity|]].
  apply (init_checkpoints (C := demo_classes) demo_settings 2 3 true false false
           checkpointed_world); reflexivity.
Defined.

Lemma init_resume_witness :
  exists s0 w0,
    valid_stages 0 1 = true /\ valid_stages 2 3 = true /\ (2 <= 1 + 1)%Z /\
    init (C := demo_classes) demo_settings 0 1 true false false empty_world =
      (inl s0, w0) /\
    exists s1 w1,
      init (C := demo_classes) demo_settings 2 3 false false false w0 =
        (inl s1, w1) /\
      forall save' w2,
        (save' = true -> dirs w2 (intloc demo_settings) = true) ->
        exists w3,
          init (C := demo_classes) demo_settings 0 3 save' false false w2 =
            (inl s1, w3).
Proof.
  do 2 eexists; split; [reflexivity|split; [reflexivity|split; [lia|]]].
  split; [reflexivity|].
  eapply (init_resume (C := demo_classes) demo_settings 1 2 3 false false false
            empty_world); [reflexivity|reflexivity|lia|reflexivity].
Defined.


Lemma invalid_stages_bare_witness :
  valid_stages 3 1 = false /\
  exists s w',
    init (C := demo_classes) demo_settings 3 1 true false false empty_world =
      (inl s, w') /\
    s = bare /\ stdout w' = stdout empty_world ++ ["Choose valid stages"] /\
    same_files empty_world w' /\
    (forall method minsig dc,
       sortVoids (U := plain_util) (core s) method minsig dc =
       Returned (core s) run_all_stages) /\
    (forall w1,
       saveVoids (S := demo_sky) s w1 =
       (inl tt, mkWorld (dirs w1) (ctlg_pkl w1) (tess_pkl w1) (zones_pkl w1) (voids_pkl w1)
                  (files w1) (stdout w1 ++ ["Sort voids first"]))).
Proof.
  split; [reflexivity|].
  apply (invalid_stages_bare (C := demo_classes) (U := plain_util) (S := demo_sky)
           demo_settings 3 1 true false false empty_world); reflexivity.
Defined.

Lemma sortVoids_after_init_witness :
  exists s w',
    valid_stages 0 2 = true /\
    init (C := demo_classes) demo_settings 0 2 false false false empty_world =
      (inl s, w') /\
    (sortVoids (U := plain_util) (core s) 1 2 (/ 5) =
       Returned (core s) run_all_stages <->
     (2 <= 1 \/ (2 = 2 /\ 1 <> 4))%Z).
Proof.
  do 2 eexists; split; [reflexivity|split; [reflexivity|]].
  eapply (sortVoids_after_init (C := demo_classes) (U := plain_util) demo_settings
            0 2 false false false empty_world); reflexivity.
Defined.

Lemma saveVoids_before_sortVoids_witness :
  exists s w' self' out,
    valid_stages 0 2 = true /\
    init (C := demo_classes) demo_settings 0 2 false false false empty_world =
      (inl s, w') /\
    sortVoids (U := plain_util) (core s) 1 2 (/ 5) = Returned self' out /\
    ~ completed out /\
    saveVoids (S := demo_sky) s empty_world =
      (inl tt, mkWorld (dirs empty_world) (ctlg_pkl empty_world) (tess_pkl empty_world)
                 (zones_pkl empty_world) (voids_pkl empty_world)
                 (files empty_world) (stdout empty_world ++ ["Sort voids first"])) /\
    saveVoids (S := demo_sky) (with_core s self') empty_world =
      saveVoids (S := demo_sky) s empty_world.
Proof.
  assert (Hout : ~ completed run_all_stages)
    by (intros [mr [H|[]]]; discriminate).
  do 4 eexists; split; [reflexivity|split; [reflexivity|]].
  split; [reflexivity|split; [exact Hout|]].
  apply (saveVoids_before_sortVoids (C := demo_classes) (U := plain_util)
           (S := demo_sky) demo_settings 0 2 false false false empty_world
           empty_world _ 1 2 (/ 5) _ run_all_stages empty_world);
    [reflexivity|reflexivity|reflexivity|exact Hout].
Defined.

(** Method 4 on the survey of one zone leaves no void. *)
Lemma zones_only_no_voids :
  exists self' out,
    sortVoids (U := plain_util) zones_only 4 2 (/ 5) = Returned self' out /\
    completed out /\ vrads self' = Some [].
Proof.
  destruct zones_only_run as (self' & out & zv & E & Hout & _).
  exists self', out; split; [trivial|split; [trivial|]].
  destruct (completed_finish (U := plain_util) _ _ _ _ _ _ E Hout) as [c [Ec Ef]].
  destruct (candidates4 (U := plain_util) _ _ _ _ Ec) as [zn [Hzn Esel]].
  injection Hzn as <-.
  destruct (finish4_radii (U := plain_util) _ _ _ _ _ _ Ef) as [vvols [L Hr]].
  pose proof (above_median_radii vvols) as Hhalf.
  rewrite L, Esel in Hhalf; simpl in Hhalf.
  rewrite Hr; f_equal.
  destruct (filter _ _); [trivial|simpl in Hhalf; lia].
Qed.

Lemma saveVoids_no_voids_witness :
  exists self' out e,
    sortVoids (U := plain_util) (core zones_session) 4 2 (/ 5) =
      Returned self' out /\
    completed out /\ vrads self' = Some [] /\
    saveVoids (S := demo_sky) (with_core zones_session self') empty_world =
      (inr e, empty_world) /\
    e = Core IndexError.
Proof.
  destruct zones_only_no_voids as (self' & out & E & Hout & Hr).
  destruct (saveVoids_no_voids (U := plain_util) (S := demo_sky) zones_session
              4 2 (/ 5) self' out empty_world E Hout Hr) as (e & Es & He & _).
  exists self', out, e; repeat split; trivial.
  apply He; reflexivity.
Defined.

Lemma saveVoids_tables_witness :
  exists vT w',
    saveVoids (S := demo_sky) sorted_session empty_world = (inl tt, w') /\
    files w' "out/demo_zobovoids.dat" = Some vT /\
    files w' "out/demo_zonevoids.dat" =
      Some (mkTable ["zone"; "void0"; "void1"]
              [IntCol [0%Z]; IntCol [0%Z]; IntCol [0%Z]]) /\
    (forall p,
       p <> "out/demo_zobovoids.dat" -> p <> "out/demo_zonevoids.dat" ->
       files w' p = files empty_world p) /\
    colnames vT = void_names_sky /\
    List.length (columns vT) = 16 /\
    Forall (fun c => col_length c = 1) (columns vT) /\
    In (FloatCol [Fin 1]) (columns vT) /\
    stdout w' = stdout empty_world /\
    ctlg_pkl w' = ctlg_pkl empty_world /\ tess_pkl w' = tess_pkl empty_world /\
    zones_pkl w' = zones_pkl empty_world /\ voids_pkl w' = voids_pkl empty_world.
Proof.
  apply (saveVoids_tables (S := demo_sky) sorted_session demo_settings false
           [Fin 1] [(0, 0, 0)%R] [((1, 0, 0), (0, 1, 0), (0, 0, 1))%R]
           [(0%Z, 0%Z)]
           empty_world);
    try reflexivity; try discriminate.
  intros _; do 3 eexists; split; [reflexivity|repeat split].
Defined.

Lemma saveVoids_frame_witness :
  exists r w',
    saveVoids (S := demo_sky) sorted_session empty_world = (r, w') /\
    (ctlg_pkl w' = ctlg_pkl empty_world /\ tess_pkl w' = tess_pkl empty_world /\
     zones_pkl w' = zones_pkl empty_world /\ voids_pkl w' = voids_pkl empty_world) /\
    (stdout w' <> stdout empty_world -> vcens (core sorted_session) = None) /\
    (forall p, files w' p <> files empty_world p ->
       exists cfg, settings sorted_session = Some cfg /\
         (p = (outdir cfg ++ catname cfg ++ "_zobovoids.dat")%string \/
          p = (outdir cfg ++ catname cfg ++ "_zonevoids.dat")%string)) /\
    (forall e cfg, r = inr e -> settings sorted_session = Some cfg ->
       files w' (outdir cfg ++ catname cfg ++ "_zonevoids.dat") =
       files empty_world (outdir cfg ++ catname cfg ++ "_zonevoids.dat")).
Proof.
  do 2 eexists; split; [reflexivity|].
  apply (saveVoids_frame (S := demo_sky) sorted_session empty_world);
    reflexivity.
Defined.

End ZobovIOSpec.

(** * [Zobov.saveZones] *)

Module ZoneTableSpec.

Import Array Zobov FloatFacts ArrayFacts Shapes ZobovSpec HoleCombineSpec ZobovRuns.
Import ZobovIO ZobovIOSpec ZoneTable.

Local Open Scope string_scope.
Local Open Scope nat_scope.
Local Open Scope list_scope.

#[local] Arguments String.append : simpl never.
#[local] Arguments String.eqb : simpl never.

(** ** Assignment to a list of indices *)

Lemma fold_set_at_length {A : Type} (l : list nat) (v : A) (a : list A) :
  List.length (fold_left (fun a' g => set_at g v a') l a) = List.length a.
Proof.
  revert a; induction l as [|x l IH]; intros a; simpl; trivial.
  rewrite IH; apply set_at_length.
Qed.

Lemma fold_set_at_other {A : Type} (l : list nat) (v d : A) (a : list A) (g : nat) :
  ~ In g l -> nth g (fold_left (fun a' g => set_at g v a') l a) d = nth g a d.
Proof.
  revert a; induction l as [|x l IH]; intros a Hg; simpl; trivial.
  rewrite IH by (simpl in Hg; tauto).
  apply nth_set_at_other; simpl in Hg; intros ->; tauto.
Qed.

Lemma fold_set_at_same {A : Type} (l : list nat) (v d : A) (a : list A) (g : nat) :
  In g l -> g < List.length a ->
  nth g (fold_left (fun a' g => set_at g v a') l a) d = v.
Proof.
  revert a; induction l as [|x l IH]; intros a Hg Hlt; simpl; [contradiction|].
  destruct (in_dec Nat.eq_dec g l) as [Hin|Hout].
  - apply IH; trivial; rewrite set_at_length; trivial.
  - destruct Hg as [->|Hg]; [|contradiction].
    rewrite fold_set_at_other by trivial.
    apply nth_set_at_same; trivial.
Qed.

Lemma assign_total {A : Type} (l : list nat) (v : A) (a : list A) :
  (forall g, In g l -> g < List.length a) ->
  assign l v a = Ok (fold_left (fun a' g => set_at g v a') l a).
Proof.
  intros H; unfold assign.
  replace (forallb _ l) with true; trivial.
  symmetry; apply forallb_forall; intros g Hg; apply Nat.ltb_lt; auto.
Qed.

Lemma assign_spec {A : Type} (l : list nat) (v d : A) (a a' : list A) :
  assign l v a = Ok a' ->
  List.length a' = List.length a /\
  (forall g, In g l -> nth g a' d = v) /\
  (forall g, ~ In g l -> nth g a' d = nth g a d).
Proof.
  unfold assign; destruct (forallb _ l) eqn:E; [|discriminate].
  intros [= <-]; split; [apply fold_set_at_length|split].
  - intros g Hg; apply fold_set_at_same; trivial.
    rewrite forallb_forall in E; apply Nat.ltb_lt; auto.
  - intros g Hg; apply fold_set_at_other; trivial.
Qed.

(** ** The cells of the catalog *)

Lemma same_cell_In (ct : Catalog) (k g : nat) :
  List.length (nnls ct) = List.length (coord ct) ->
  In g (same_cell ct k) <-> nth_error (nnls ct) g = Some (Z.of_nat k).
Proof.
  intros L; unfold same_cell; rewrite <- L, mask_seq_In, Nat.sub_0_r.
  split.
  - intros [_ [x [Hx Hk]]]; apply Z.eqb_eq in Hk; congruence.
  - intros H; split; [lia|]; exists (Z.of_nat k); split; trivial.
    apply Z.eqb_refl.
Qed.

Lemma same_cell_bound (ct : Catalog) (k g : nat) :
  In g (same_cell ct k) -> g < List.length (coord ct).
Proof.
  unfold same_cell; intros H; apply mask_In in H; apply in_seq in H; lia.
Qed.

Lemma canonical_NoDup (ct : Catalog) : NoDup (canonical ct).
Proof. unfold canonical; apply mask_NoDup, seq_NoDup. Qed.

Lemma in_cell_nth (ct : Catalog) (g c : nat) :
  List.length (nnls ct) = List.length (coord ct) ->
  c < List.length (canonical ct) ->
  In g (nth c (map (same_cell ct) (canonical ct)) []) <-> in_cell ct g c.
Proof.
  intros L Hc; unfold in_cell.
  destruct (nth_error (canonical ct) c) as [k|] eqn:Ek.
  2:{ apply nth_error_None in Ek; lia. }
  rewrite (nth_indep _ [] (same_cell ct 0)) by (rewrite length_map; trivial).
  rewrite map_nth, (nth_error_nth _ _ _ Ek), (same_cell_In _ _ _ L).
  split; [eauto|].
  intros [k' [[= <-] H]]; trivial.
Qed.

Lemma in_cell_cases (ct : Catalog) (g c : nat) :
  in_cell ct g c \/ ~ in_cell ct g c.
Proof.
  unfold in_cell.
  destruct (nth_error (canonical ct) c) as [k|];
    [|right; intros [k [H _]]; discriminate].
  destruct (nth_error (nnls ct) g) as [n|];
    [|right; intros [k' [_ H]]; discriminate].
  destruct (Z.eq_dec n (Z.of_nat k)) as [->|Hne]; [left; eauto|].
  right; intros [k' [[= <-] [= H]]]; contradiction.
Qed.

(** ** Nested loops *)

Lemma foldM_app {A B : Type} (f : A -> B -> res A) (l1 l2 : list B) (a : A) :
  foldM f (l1 ++ l2) a = (a' <- foldM f l1 a ;; foldM f l2 a').
Proof.
  revert a; induction l1 as [|x l1 IH]; intros a; simpl; trivial.
  destruct (f a x); simpl; trivial.
Qed.

Lemma foldM_nested {A B I : Type} (f : I -> A -> B -> res A)
    (l : list (I * list B)) (a : A) :
  foldM (fun st '(i, cl) => foldM (f i) cl st) l a =
  foldM (fun st '(i, c) => f i st c)
        (flat_map (fun '(i, cl) => map (pair i) cl) l) a.
Proof.
  revert a; induction l as [|[i cl] l IH]; intros a; simpl; trivial.
  rewrite foldM_app.
  assert (E : foldM (fun st '(i0, c) => f i0 st c) (map (pair i) cl) a =
              foldM (f i) cl a).
  { clear; revert a; induction cl as [|c cl IH]; intros a; simpl; trivial.
    destruct (f i a c); simpl; trivial. }
  rewrite E; destruct (foldM (f i) cl a); simpl; trivial.
Qed.

Lemma enumerate_In {A : Type} (l : list A) (i : nat) (x : A) :
  In (i, x) (combine (seq 0 (List.length l)) l) <-> nth_error l i = Some x.
Proof.
  assert (G : forall s, In (i, x) (combine (seq s (List.length l)) l) <->
                        s <= i /\ nth_error l (i - s) = Some x).
  { induction l as [|y l IH]; intros s; simpl.
    - split; [tauto|]; intros [_ H]; destruct (i - s); discriminate.
    - rewrite IH; split.
      + intros [[= <- <-]|[H1 H2]].
        * rewrite Nat.sub_diag; auto.
        * split; [lia|]; replace (i - s) with (S (i - S s)) by lia; trivial.
      + intros [H1 H2]; destruct (Nat.eq_dec s i) as [->|Hne].
        * rewrite Nat.sub_diag in H2; injection H2 as <-; auto.
        * right; split; [lia|].
          replace (i - s) with (S (i - S s)) in H2 by lia; trivial. }
  rewrite G, Nat.sub_0_r; split; [tauto|]; intros H; split; [lia|trivial].
Qed.

Lemma zone_pairs_In (zc : list (list nat)) (i c : nat) :
  In (i, c) (flat_map (fun '(i, cl) => map (pair i) cl)
               (combine (seq 0 (List.length zc)) zc)) <->
  exists cl, nth_error zc i = Some cl /\ In c cl.
Proof.
  rewrite in_flat_map; split.
  - intros [[j cl] [H1 H2]]; apply in_map_iff in H2.
    destruct H2 as [c' [[= <- <-] Hc]].
    apply enumerate_In in H1; eauto.
  - intros [cl [H1 H2]]; exists (i, cl); split.
    + apply enumerate_In; trivial.
    + apply in_map; trivial.
Qed.

(** ** The first loop: the depths *)

Lemma depth_loop_spec (ct : Catalog) (depth dl : list Z) :
  List.length (nnls ct) = List.length (coord ct) ->
  foldM (depth_step ct depth (canonical ct))
    (seq 0 (List.length (canonical ct)))
    (repeat (-1)%Z (List.length (coord ct))) = Ok dl ->
  List.length dl = List.length (coord ct) /\
  forall g, g < List.length (coord ct) ->
    (exists c, in_cell ct g c /\ nth_error depth c = Some (nth g dl (-1)%Z)) \/
    ((forall c, ~ in_cell ct g c) /\ nth g dl (-1)%Z = (-1)%Z).
Proof.
  intros L E.
  pose proof (foldM_seq (depth_step ct depth (canonical ct))
    (fun i dl =>
       List.length dl = List.length (coord ct) /\
       forall g, g < List.length (coord ct) ->
         (exists c, c < i /\ in_cell ct g c /\
                    nth_error depth c = Some (nth g dl (-1)%Z)) \/
         ((forall c, c < i -> ~ in_cell ct g c) /\ nth g dl (-1)%Z = (-1)%Z))
    (List.length (canonical ct)) 0 (repeat (-1)%Z (List.length (coord ct))) dl)
    as G.
  destruct G as [Ldl G]; trivial.
  - intros i b b' Hi [Lb Hb]; unfold depth_step.
    destruct (index (canonical ct) i) as [k|] eqn:Ek; simpl; [|discriminate].
    destruct (index depth i) as [d|] eqn:Ed; simpl; [|discriminate].
    apply index_Ok in Ek, Ed; intros Ha.
    destruct (assign_spec _ _ (-1)%Z _ _ Ha) as (Lb' & Hin & Hout).
    split; [congruence|].
    intros g Hg; destruct (in_dec Nat.eq_dec g (same_cell ct k)) as [Hc|Hc].
    + left; exists i; split; [lia|]; split.
      * exists k; split; trivial; apply same_cell_In; trivial.
      * rewrite Hin; trivial.
    + rewrite Hout by trivial.
      destruct (Hb g Hg) as [(c & Hci & Hcell & Hd)|(Hno & Hd)].
      * left; exists c; split; [lia|auto].
      * right; split; trivial.
        intros c Hci (k' & Hk' & Hn).
        destruct (Nat.eq_dec c i) as [->|Hne].
        -- apply Hc, same_cell_In; trivial; congruence.
        -- apply (Hno c); [lia|]; exists k'; auto.
  - split; [apply repeat_length|].
    intros g Hg; right; split; [intros c Hc; lia|].
    apply nth_repeat.
  - split; trivial.
    intros g Hg; destruct (G g Hg) as [(c & _ & H)|(Hno & Hd)]; [left; eauto|].
    right; split; trivial.
    intros c Hc; apply (Hno c); trivial.
    destruct Hc as (k & Hk & _); apply nth_error_lt in Hk; simpl; lia.
Qed.

Lemma depth_loop_total (ct : Catalog) (depth : list Z) :
  List.length (canonical ct) <= List.length depth ->
  exists dl,
    foldM (depth_step ct depth (canonical ct))
      (seq 0 (List.length (canonical ct)))
      (repeat (-1)%Z (List.length (coord ct))) = Ok dl.
Proof.
  intros Hd.
  destruct (foldM_total (depth_step ct depth (canonical ct))
              (fun dl => List.length dl = List.length (coord ct))
              (seq 0 (List.length (canonical ct)))) with
    (a := repeat (-1)%Z (List.length (coord ct))) as [dl [E _]]; eauto.
  - intros a i Hi La; apply in_seq in Hi; unfold depth_step.
    destruct (index_total (canonical ct) i) as [k Ek]; [lia|].
    destruct (index_total depth i) as [d Ed]; [lia|].
    rewrite Ek, Ed; simpl.
    rewrite assign_total.
    + eexists; split; [reflexivity|]; rewrite fold_set_at_length; trivial.
    + intros g Hg; rewrite La; apply (same_cell_bound _ _ _ Hg).
  - apply repeat_length.
Qed.

(** ** The second loop: the zones and the edge *)

Lemma olist_nth (imsk : list bool) (g : nat) :
  nth_error (map (fun b : bool => if b then 0%Z else 1%Z) imsk) g = Some 0%Z <->
  nth_error imsk g = Some true.
Proof.
  rewrite nth_error_map; destruct (nth_error imsk g) as [[|]|]; simpl;
    split; congruence.
Qed.

Lemma take_all_nonzero (olist : list Z) (cell : list nat) (os : list Z) :
  take olist cell = Ok os ->
  forallb (fun o => negb (o =? 0)%Z) os = false <->
  exists g, In g cell /\ nth_error olist g = Some 0%Z.
Proof.
  intros H; apply mapM_Forall2 in H.
  induction H as [|g o cell os Hgo _ IH]; simpl.
  - split; [discriminate|]; intros [g [[] _]].
  - apply index_Ok in Hgo.
    destruct (Z.eqb_spec o 0) as [->|Hne]; simpl.
    + split; trivial; intros _; exists g; auto.
    + rewrite IH; split.
      * intros [g' [H1 H2]]; eauto.
      * intros [g' [[<-|H1] H2]]; [congruence|eauto].
Qed.

Lemma zone_step_spec (self : Zobov) (ct : Catalog) (ts : Tesselation)
    (imsk : list bool) (i c : nat) (zl el zl' el' : list Z) :
  List.length (nnls ct) = List.length (coord ct) ->
  tesselation self = Some ts ->
  zone_step self (map (same_cell ct) (canonical ct))
    (map (fun b : bool => if b then 0%Z else 1%Z) imsk) i (zl, el) c =
    Ok (zl', el') ->
  List.length zl' = List.length zl /\ List.length el' = List.length el /\
  (forall g, in_cell ct g c -> nth g zl' (-1)%Z = Z.of_nat i) /\
  (forall g, ~ in_cell ct g c -> nth g zl' (-1)%Z = nth g zl (-1)%Z) /\
  ((nth_error (volumes ts) c = Some 0%R /\
    (exists g', in_cell ct g' c /\ nth_error imsk g' = Some true) /\
    (forall g, in_cell ct g c -> nth g el' 0%Z = 1%Z) /\
    (forall g, ~ in_cell ct g c -> nth g el' 0%Z = nth g el 0%Z)) \/
   (el' = el /\
    (nth_error (volumes ts) c = Some 0%R ->
     forall g', in_cell ct g' c -> nth_error imsk g' <> Some true))).
Proof.
  intros L Hts; unfold zone_step; rewrite Hts; cbn [getattr fst snd].
  destruct (index _ c) as [cell|] eqn:Ec; simpl; [|discriminate].
  apply index_Ok in Ec.
  assert (Hc : c < List.length (canonical ct)).
  { apply nth_error_lt in Ec; rewrite length_map in Ec; trivial. }
  assert (Hcell : forall g, In g cell <-> in_cell ct g c).
  { intros g; rewrite <- (in_cell_nth ct g c L Hc).
    rewrite (nth_error_nth _ _ _ Ec); tauto. }
  destruct (assign cell (Z.of_nat i) zl) as [zl1|] eqn:Ez; simpl; [|discriminate].
  destruct (assign_spec _ _ (-1)%Z _ _ Ez) as (Lz & Zin & Zout).
  destruct (index (volumes ts) c) as [v|] eqn:Ev; simpl; [|discriminate].
  apply index_Ok in Ev.
  assert (Zin' : forall g, in_cell ct g c -> nth g zl1 (-1)%Z = Z.of_nat i)
    by (intros g Hg; apply Zin, Hcell; trivial).
  assert (Zout' : forall g, ~ in_cell ct g c -> nth g zl1 (-1)%Z = nth g zl (-1)%Z)
    by (intros g Hg; apply Zout; rewrite Hcell; trivial).
  destruct (Reqb v 0) eqn:Ev0.
  - apply Reqb_true in Ev0; subst v.
    destruct (take _ cell) as [os|] eqn:Eo; simpl; [|discriminate].
    pose proof (take_all_nonzero _ _ _ Eo) as Hall.
    destruct (forallb _ os); simpl.
    + intros [= <- <-]; repeat split; trivial.
      right; split; trivial.
      intros _ g' Hg' Hm; destruct Hall as [_ Hall].
      assert (E : true = false); [|discriminate].
      apply Hall; exists g'; split; [apply Hcell; trivial|].
      apply olist_nth; trivial.
    + destruct (assign cell 1%Z el) as [el1|] eqn:Ee; simpl; [|discriminate].
      destruct (assign_spec _ _ 0%Z _ _ Ee) as (Le & Ein & Eout).
      intros [= <- <-]; repeat split; trivial.
      left; split; trivial; split; [|split].
      * destruct Hall as [Hall _]; destruct (Hall eq_refl) as [g' [H1 H2]].
        exists g'; split; [apply Hcell; trivial|apply olist_nth; trivial].
      * intros g Hg; apply Ein, Hcell; trivial.
      * intros g Hg; apply Eout; rewrite Hcell; trivial.
  - apply Reqb_false in Ev0.
    intros [= <- <-]; repeat split; trivial.
    right; split; trivial.
    intros Hv; congruence.
Qed.

Lemma zone_loop_spec (self : Zobov) (ct : Catalog) (ts : Tesselation) (zn : Zones)
    (imsk : list bool) (zl el : list Z) :
  List.length (nnls ct) = List.length (coord ct) ->
  tesselation self = Some ts ->
  foldM (fun st '(i, cl) =>
           foldM (zone_step self (map (same_cell ct) (canonical ct))
                    (map (fun b : bool => if b then 0%Z else 1%Z) imsk) i) cl st)
    (combine (seq 0 (List.length (zcell zn))) (zcell zn))
    (repeat (-1)%Z (List.length (coord ct)), repeat 0%Z (List.length (coord ct)))
  = Ok (zl, el) ->
  List.length zl = List.length (coord ct) /\
  List.length el = List.length (coord ct) /\
  forall g,
    ((nth g zl (-1)%Z = (-1)%Z /\ forall i, ~ in_zone ct zn g i) \/
     (exists i, in_zone ct zn g i /\ nth g zl (-1)%Z = Z.of_nat i)) /\
    ((nth g el 0%Z = 1%Z /\
      exists i cl c, nth_error (zcell zn) i = Some cl /\ In c cl /\
        in_cell ct g c /\ nth_error (volumes ts) c = Some 0%R /\
        exists g', in_cell ct g' c /\ nth_error imsk g' = Some true) \/
     (nth g el 0%Z = 0%Z /\
      forall i cl c, nth_error (zcell zn) i = Some cl -> In c cl ->
        in_cell ct g c -> nth_error (volumes ts) c = Some 0%R ->
        forall g', in_cell ct g' c -> nth_error imsk g' <> Some true)).
Proof.
  intros L Hts; rewrite foldM_nested; intros E.
  set (pairs := flat_map (fun '(i, cl) => map (pair i) cl)
                  (combine (seq 0 (List.length (zcell zn))) (zcell zn))) in *.
  pose proof (foldM_prefix
    (fun st '(i, c) =>
       zone_step self (map (same_cell ct) (canonical ct))
         (map (fun b : bool => if b then 0%Z else 1%Z) imsk) i st c)
    (fun P st =>
       List.length (fst st) = List.length (coord ct) /\
       List.length (snd st) = List.length (coord ct) /\
       forall g,
         ((nth g (fst st) (-1)%Z = (-1)%Z /\
           forall i c, In (i, c) P -> ~ in_cell ct g c) \/
          (exists i c, In (i, c) P /\ in_cell ct g c /\
                       nth g (fst st) (-1)%Z = Z.of_nat i)) /\
         ((nth g (snd st) 0%Z = 1%Z /\
           exists i c, In (i, c) P /\ in_cell ct g c /\
             nth_error (volumes ts) c = Some 0%R /\
             exists g', in_cell ct g' c /\ nth_error imsk g' = Some true) \/
          (nth g (snd st) 0%Z = 0%Z /\
           forall i c, In (i, c) P -> in_cell ct g c ->
             nth_error (volumes ts) c = Some 0%R ->
             forall g', in_cell ct g' c -> nth_error imsk g' <> Some true)))
    pairs) as G.
  destruct (G) with (a := (repeat (-1)%Z (List.length (coord ct)),
                           repeat 0%Z (List.length (coord ct))))
                    (a' := (zl, el)) as (Lz & Le & H); trivial.
  - clear G E; intros pre [i c] post [zl0 el0] [zl1 el1] _ (Lz & Le & H) Es.
    simpl in Lz, Le.
    destruct (zone_step_spec _ _ _ _ _ _ _ _ _ _ L Hts Es)
      as (Lz' & Le' & Zin & Zout & HE).
    simpl; split; [congruence|split; [congruence|]].
    intros g; destruct (H g) as [HZ HEg]; simpl in HZ, HEg; split.
    + destruct (in_cell_cases ct g c) as [Hc|Hc].
      * right; exists i, c; split; [apply in_or_app; simpl; auto|auto].
      * rewrite (Zout g Hc).
        destruct HZ as [[Hz Hno]|(i' & c' & Hin & Hc' & Hz)].
        -- left; split; trivial.
           intros i' c' Hin; apply in_app_or in Hin.
           destruct Hin as [Hin|[[= <- <-]|[]]]; eauto.
        -- right; exists i', c'; split; [apply in_or_app; auto|auto].
    + destruct HE as [(Hv & Hm & Ein & Eout)|[-> Hno']].
      * destruct (in_cell_cases ct g c) as [Hc|Hc].
        -- left; split; [auto|].
           exists i, c; split; [apply in_or_app; simpl; auto|auto].
        -- rewrite (Eout g Hc).
           destruct HEg as [[He (i' & c' & Hin & Hrest)]|[He Hno]].
           ++ left; split; trivial.
              exists i', c'; split; [apply in_or_app; auto|auto].
           ++ right; split; trivial.
              intros i' c' Hin; apply in_app_or in Hin.
              destruct Hin as [Hin|[[= <- <-]|[]]]; [eauto|].
              intros Hc'; contradiction.
      * destruct HEg as [[He (i' & c' & Hin & Hrest)]|[He Hno]].
        -- left; split; trivial.
           exists i', c'; split; [apply in_or_app; auto|auto].
        -- right; split; trivial.
           intros i' c' Hin; apply in_app_or in Hin.
           destruct Hin as [Hin|[[= <- <-]|[]]]; [eauto|].
           intros _; apply Hno'.
  - simpl; split; [apply repeat_length|split; [apply repeat_length|]].
    intros g; split.
    + left; split; [|intros i c []].
      destruct (Nat.lt_ge_cases g (List.length (coord ct)));
        [apply nth_repeat|apply nth_overflow; rewrite repeat_length; trivial].
    + right; split; [|intros i c []].
      destruct (Nat.lt_ge_cases g (List.length (coord ct)));
        [apply nth_repeat|apply nth_overflow; rewrite repeat_length; trivial].
  - simpl in Lz, Le, H; split; [trivial|split; [trivial|]].
    intros g; destruct (H g) as [HZ HEg]; split.
    + destruct HZ as [[Hz Hno]|(i & c & Hin & Hc & Hz)].
      * left; split; trivial.
        intros i (cl & c & Hcl & Hc & Hg).
        apply (Hno i c); trivial; apply zone_pairs_In; eauto.
      * right; exists i; split; trivial.
        apply zone_pairs_In in Hin; destruct Hin as (cl & Hcl & Hin).
        exists cl, c; auto.
    + destruct HEg as [[He (i & c & Hin & Hrest)]|[He Hno]].
      * left; split; trivial.
        apply zone_pairs_In in Hin; destruct Hin as (cl & Hcl & Hin).
        exists i, cl, c; auto.
      * right; split; trivial.
        intros i cl c Hcl Hc; apply (Hno i c); apply zone_pairs_In; eauto.
Qed.

Lemma zone_loop_total (self : Zobov) (ct : Catalog) (ts : Tesselation) (zn : Zones)
    (imsk : list bool) :
  tesselation self = Some ts ->
  List.length imsk = List.length (coord ct) ->
  (forall cl c, In cl (zcell zn) -> In c cl ->
     c < List.length (canonical ct) /\ c < List.length (volumes ts)) ->
  exists st,
    foldM (fun st '(i, cl) =>
             foldM (zone_step self (map (same_cell ct) (canonical ct))
                      (map (fun b : bool => if b then 0%Z else 1%Z) imsk) i) cl st)
      (combine (seq 0 (List.length (zcell zn))) (zcell zn))
      (repeat (-1)%Z (List.length (coord ct)), repeat 0%Z (List.length (coord ct)))
    = Ok st.
Proof.
  intros Hts Li Hcells; rewrite foldM_nested.
  match goal with
  | |- exists st, foldM ?f ?l ?init = Ok st =>
      destruct (foldM_total f
                  (fun st => List.length (fst st) = List.length (coord ct) /\
                             List.length (snd st) = List.length (coord ct)) l)
        with (a := init) as [st [E _]]; eauto
  end.
  - intros [zl el] [i c] Hin [Lz Le]; simpl in Lz, Le.
    apply zone_pairs_In in Hin; destruct Hin as (cl & Hcl & Hc).
    apply nth_error_In in Hcl.
    destruct (Hcells cl c Hcl Hc) as [Hc1 Hc2].
    unfold zone_step; rewrite Hts; cbn [getattr fst snd].
    destruct (index_total (map (same_cell ct) (canonical ct)) c) as [cell Ec];
      [rewrite length_map; trivial|].
    rewrite Ec; simpl.
    assert (Hb : forall g, In g cell -> g < List.length (coord ct)).
    { apply index_Ok in Ec; rewrite nth_error_map in Ec.
      destruct (nth_error (canonical ct) c) as [k|]; [|discriminate].
      injection Ec as <-; intros g; apply same_cell_bound. }
    rewrite assign_total by (intros g Hg; rewrite Lz; auto); simpl.
    destruct (index_total (volumes ts) c) as [v Ev]; trivial.
    rewrite Ev; simpl.
    destruct (Reqb v 0).
    + destruct (take_total (map (fun b : bool => if b then 0%Z else 1%Z) imsk) cell)
        as [os Eo].
      { intros g Hg; rewrite length_map, Li; auto. }
      rewrite Eo; simpl.
      destruct (forallb _ os); simpl.
      * eexists; split; [reflexivity|]; simpl.
        rewrite fold_set_at_length; auto.
      * rewrite assign_total by (intros g Hg; rewrite Le; auto); simpl.
        eexists; split; [reflexivity|]; simpl.
        rewrite !fold_set_at_length; auto.
    + eexists; split; [reflexivity|]; simpl.
      rewrite fold_set_at_length; auto.
  - simpl; rewrite !repeat_length; auto.
Qed.

Lemma clear_outside_spec (ol el ec : list Z) :
  clear_outside ol el = Ok ec ->
  List.length ol = List.length el /\ List.length ec = List.length el /\
  forall g,
    nth g ec 0%Z = if (nth g ol 0 =? 0)%Z then nth g el 0%Z else 0%Z.
Proof.
  unfold clear_outside; destruct (Nat.eqb_spec (List.length ol) (List.length el))
    as [L|L]; [|discriminate].
  intros [= <-]; split; [trivial|split].
  - rewrite length_map, length_combine; lia.
  - revert el L; induction ol as [|o ol IH]; intros [|e el] L g;
      try discriminate; [destruct g; reflexivity|].
    destruct g as [|g]; simpl; [reflexivity|].
    apply IH; simpl in L; lia.
Qed.

(** ** The call *)

Lemma Table_init_Ok (data : list column) (names : list string) (w w' : World)
    (t : Table) :
  Table_init data names w = (inl t, w') -> t = mkTable names data /\ w' = w.
Proof.
  unfold Table_init; destruct data as [|c data].
  - intros [= <- <-]; auto.
  - destruct (_ && _); [intros [= <- <-]; auto|discriminate].
Qed.

Lemma Table_init_Err (data : list column) (names : list string) (w w' : World)
    (e : exn) :
  Table_init data names w = (inr e, w') -> e = ValueError.
Proof.
  unfold Table_init; destruct data as [|c data]; [discriminate|].
  destruct (_ && _); [discriminate|intros [= <- _]; trivial].
Qed.

Lemma in_cell_unique (ct : Catalog) (g c c' : nat) :
  in_cell ct g c -> in_cell ct g c' -> c = c'.
Proof.
  intros (k & Hk & Hn) (k' & Hk' & Hn').
  assert (k' = k) by (rewrite Hn in Hn'; injection Hn' as H; lia); subst k'.
  apply (proj1 (NoDup_nth_error (canonical ct)) (canonical_NoDup ct));
    [apply nth_error_lt in Hk; trivial|congruence].
Qed.

(** What a call of [saveZones] that returns has written. *)
Lemma saveZones_facts (self : Session) (ct : Catalog) (ts : Tesselation)
    (zn : Zones) (cfg : Settings) (imsk : list bool) (depth : list Z)
    (w w' : World) :
  catalog (core self) = Some ct -> tesselation (core self) = Some ts ->
  zones (core self) = Some zn -> settings self = Some cfg ->
  List.length (nnls ct) = List.length (coord ct) ->
  saveZones self imsk depth w = (inl tt, w') ->
  exists zone dep edge,
    w' = mkWorld (dirs w) (ctlg_pkl w) (tess_pkl w) (zones_pkl w) (voids_pkl w)
           (update (files w) (outdir cfg ++ catname cfg ++ "_galzones.dat")
              (mkTable ["gal"; "zone"; "depth"; "edge"; "out"]
                 [IntCol (map Z.of_nat (seq 0 (List.length (coord ct))));
                  IntCol zone; IntCol dep; IntCol edge;
                  IntCol (map (fun b : bool => if b then 0%Z else 1%Z) imsk)]))
           (stdout w) /\
    List.length imsk = List.length (coord ct) /\
    List.length zone = List.length (coord ct) /\
    List.length dep = List.length (coord ct) /\
    List.length edge = List.length (coord ct) /\
    (forall g, g < List.length (coord ct) ->
       (exists c, in_cell ct g c /\ nth_error depth c = Some (nth g dep (-1)%Z)) \/
       ((forall c, ~ in_cell ct g c) /\ nth g dep (-1)%Z = (-1)%Z)) /\
    (forall g,
       (nth g zone (-1)%Z = (-1)%Z /\ forall i, ~ in_zone ct zn g i) \/
       (exists i, in_zone ct zn g i /\ nth g zone (-1)%Z = Z.of_nat i)) /\
    (forall g, g < List.length (coord ct) ->
       (nth g edge 0%Z = 1%Z /\ nth_error imsk g = Some true /\
        in_flat_cell ct ts zn g) \/
       (nth g edge 0%Z = 0%Z /\
        ~ (nth_error imsk g = Some true /\ in_flat_cell ct ts zn g))).
Proof.
  intros Hct Hts Hzn Hcfg L; unfold saveZones; rewrite Hzn.
  unfold bind_io at 1; rewrite Hct; cbn [attr ret].
  rewrite L, Nat.eqb_refl; cbn [negb].
  unfold bind_io at 1.
  destruct (zone_columns (core self) ct zn imsk depth) as [cols|e] eqn:Ecols;
    cbn [lift ret raise]; [|discriminate].
  unfold bind_io at 1.
  destruct (Table_init cols _ w) as [[zT|e] w1] eqn:Et; [|discriminate].
  apply Table_init_Ok in Et; destruct Et as [-> ->].
  unfold bind_io; rewrite Hcfg; cbn [attr ret write].
  intros [= <-].
  revert Ecols; unfold zone_columns.
  destruct (foldM (depth_step _ _ _) _ _) as [dl|] eqn:Ed; simpl; [|discriminate].
  destruct (foldM _ (combine _ _) _) as [[zl el]|] eqn:Ez; simpl; [|discriminate].
  destruct (clear_outside _ el) as [ec|] eqn:Ec; simpl; [|discriminate].
  intros [= <-].
  destruct (depth_loop_spec _ _ _ L Ed) as [Ld Hd].
  destruct (zone_loop_spec _ _ _ _ _ _ _ L Hts Ez) as (Lz & Le & Hz).
  destruct (clear_outside_spec _ _ _ Ec) as (Lo & Lec & Hec).
  rewrite length_map in Lo.
  exists zl, dl, ec; split; [reflexivity|].
  split; [congruence|]; split; [trivial|]; split; [trivial|];
    split; [congruence|]; split; [trivial|]; split; [intros g; apply Hz|].
  intros g Hg; rewrite Hec.
  assert (Hg' : g < List.length imsk) by lia.
  destruct (nth_error imsk g) as [b|] eqn:Eb;
    [|apply nth_error_None in Eb; lia].
  assert (Eo : nth_error (map (fun b : bool => if b then 0%Z else 1%Z) imsk) g =
               Some (if b then 0%Z else 1%Z))
    by (rewrite nth_error_map, Eb; reflexivity).
  rewrite (nth_error_nth _ _ _ Eo).
  destruct b; cbn [Z.eqb].
  - destruct (proj2 (Hz g)) as [[He (i & cl & c & H1 & H2 & H3 & H4 & _)]|[He Hno]].
    + left; split; [trivial|split; [trivial|]]; exists i, cl, c; auto.
    + right; split; trivial.
      intros [_ (i & cl & c & H1 & H2 & H3 & H4)].
      apply (Hno i cl c H1 H2 H3 H4 g H3); trivial.
  - right; split; trivial; intros [H _]; discriminate.
Qed.

Lemma zone_columns_total (self : Zobov) (ct : Catalog) (ts : Tesselation)
    (zn : Zones) (imsk : list bool) (depth : list Z) :
  tesselation self = Some ts -> zones_ok ct ts zn imsk depth ->
  exists zl dl el,
    zone_columns self ct zn imsk depth =
      Ok [IntCol (map Z.of_nat (seq 0 (List.length (coord ct)))); IntCol zl;
          IntCol dl; IntCol el;
          IntCol (map (fun b : bool => if b then 0%Z else 1%Z) imsk)] /\
    List.length zl = List.length (coord ct) /\
    List.length dl = List.length (coord ct) /\
    List.length el = List.length (coord ct).
Proof.
  intros Hts [L Li Ld Hcells]; unfold zone_columns.
  destruct (depth_loop_total ct depth Ld) as [dl Ed].
  destruct (depth_loop_spec _ _ _ L Ed) as [Ldl _].
  destruct (zone_loop_total self ct ts zn imsk Hts Li Hcells) as [[zl el] Ez].
  destruct (zone_loop_spec _ _ _ _ _ _ _ L Hts Ez) as (Lz & Le & _).
  rewrite Ed; simpl; rewrite Ez; simpl.
  unfold clear_outside; rewrite length_map, Li, Le, Nat.eqb_refl; simpl.
  do 3 eexists; split; [reflexivity|].
  rewrite length_map, length_combine, length_map; repeat split; trivial; lia.
Qed.

Lemma update_same {A : Type} (m : string -> option A) (p : string) (a : A) :
  update m p a p = Some a.
Proof. unfold update; rewrite String.eqb_refl; trivial. Qed.

Lemma update_other {A : Type} (m : string -> option A) (p q : string) (a : A) :
  q <> p -> update m p a q = m q.
Proof.
  intros H; unfold update; apply String.eqb_neq in H; rewrite H; trivial.
Qed.

(** X27.  With an entry of [nnls] and of [imsk] per galaxy, a depth per
    cell and the cells of the zones in range, [saveZones] returns and
    writes one table and nothing else: five columns with a row per galaxy,
    the first the index of the galaxy and the last [1 - imsk]. *)
Theorem saveZones_table (self : Session) (ct : Catalog) (ts : Tesselation)
    (zn : Zones) (cfg : Settings) (imsk : list bool) (depth : list Z)
    (w : World) :
  catalog (core self) = Some ct -> tesselation (core self) = Some ts ->
  zones (core self) = Some zn -> settings self = Some cfg ->
  zones_ok ct ts zn imsk depth ->
  exists zone dep edge w',
    saveZones self imsk depth w = (inl tt, w') /\
    files w' (outdir cfg ++ catname cfg ++ "_galzones.dat") =
      Some (mkTable ["gal"; "zone"; "depth"; "edge"; "out"]
              [IntCol (map Z.of_nat (seq 0 (List.length (coord ct))));
               IntCol zone; IntCol dep; IntCol edge;
               IntCol (map (fun b : bool => if b then 0%Z else 1%Z) imsk)]) /\
    List.length zone = List.length (coord ct) /\
    List.length dep = List.length (coord ct) /\
    List.length edge = List.length (coord ct) /\
    (forall p, p <> (outdir cfg ++ catname cfg ++ "_galzones.dat")%string ->
               files w' p = files w p) /\
    stdout w' = stdout w /\
    ctlg_pkl w' = ctlg_pkl w /\ tess_pkl w' = tess_pkl w /\
    zones_pkl w' = zones_pkl w /\ voids_pkl w' = voids_pkl w.
Proof.
  intros Hct Hts Hzn Hcfg Hok.
  destruct (zone_columns_total (core self) ct ts zn imsk depth Hts Hok)
    as (zl & dl & el & Ecols & Lz & Ld & Le).
  destruct Hok as [L Li _ _].
  exists zl, dl, el; eexists.
  unfold saveZones; rewrite Hzn.
  unfold bind_io at 1; rewrite Hct; cbn [attr ret].
  rewrite L, Nat.eqb_refl; cbn [negb].
  unfold bind_io at 1; rewrite Ecols; cbn [lift ret].
  unfold bind_io at 1.
  rewrite (Table_init_run (List.length (coord ct))).
  - unfold bind_io; rewrite Hcfg; cbn [attr ret write].
    split; [reflexivity|]; cbn [files stdout ctlg_pkl tess_pkl zones_pkl voids_pkl].
    rewrite update_same; repeat split; trivial.
    intros p Hp; apply update_other; trivial.
  - repeat constructor; cbn [col_length];
      rewrite ?length_map, ?length_seq; trivial.
  - reflexivity.
Qed.

(** X28.  The columns [zone] and [depth] of the table of [saveZones]: a
    galaxy in a cell of a zone has the index of such a zone, and a galaxy
    in no cell of a zone has [-1]; a galaxy has the depth of its cell, and
    [-1] if it is in no cell. *)
Theorem galaxy_zone_depth (self : Session) (ct : Catalog) (ts : Tesselation)
    (zn : Zones) (cfg : Settings) (imsk : list bool) (depth : list Z)
    (w w' : World) :
  catalog (core self) = Some ct -> tesselation (core self) = Some ts ->
  zones (core self) = Some zn -> settings self = Some cfg ->
  List.length (nnls ct) = List.length (coord ct) ->
  saveZones self imsk depth w = (inl tt, w') ->
  exists gal zone dep edge out,
    files w' (outdir cfg ++ catname cfg ++ "_galzones.dat") =
      Some (mkTable ["gal"; "zone"; "depth"; "edge"; "out"]
              [IntCol gal; IntCol zone; IntCol dep; IntCol edge; IntCol out]) /\
    forall g, g < List.length (coord ct) ->
      ((nth g zone (-1)%Z = (-1)%Z /\ forall i, ~ in_zone ct zn g i) \/
       (exists i, in_zone ct zn g i /\ nth g zone (-1)%Z = Z.of_nat i)) /\
      (forall c, in_cell ct g c -> nth_error depth c = Some (nth g dep (-1)%Z)) /\
      ((forall c, ~ in_cell ct g c) -> nth g dep (-1)%Z = (-1)%Z).
Proof.
  intros Hct Hts Hzn Hcfg L E.
  destruct (saveZones_facts _ _ _ _ _ _ _ _ _ Hct Hts Hzn Hcfg L E)
    as (zone & dep & edge & -> & Li & Lz & Ld & Le & Hd & Hz & He).
  do 5 eexists; split; [cbn [files]; apply update_same|].
  intros g Hg; split; [apply Hz|].
  destruct (Hd g Hg) as [(c & Hc & Hdc)|[Hno Hdc]]; split.
  - intros c' Hc'; rewrite (in_cell_unique _ _ _ _ Hc' Hc); trivial.
  - intros Hno; destruct (Hno c Hc).
  - intros c Hc; destruct (Hno c Hc).
  - trivial.
Qed.

(** X29.  The columns [edge] and [out] of the table of [saveZones]: [out]
    is 1 for the galaxies outside of the mask and 0 inside; [edge] is 1
    exactly for the galaxies inside of the mask in a cell of a zone whose
    volume is 0, and 0 for all others. *)
Theorem galaxy_edge_out (self : Session) (ct : Catalog) (ts : Tesselation)
    (zn : Zones) (cfg : Settings) (imsk : list bool) (depth : list Z)
    (w w' : World) :
  catalog (core self) = Some ct -> tesselation (core self) = Some ts ->
  zones (core self) = Some zn -> settings self = Some cfg ->
  List.length (nnls ct) = List.length (coord ct) ->
  saveZones self imsk depth w = (inl tt, w') ->
  exists gal zone dep edge out,
    files w' (outdir cfg ++ catname cfg ++ "_galzones.dat") =
      Some (mkTable ["gal"; "zone"; "depth"; "edge"; "out"]
              [IntCol gal; IntCol zone; IntCol dep; IntCol edge; IntCol out]) /\
    List.length imsk = List.length (coord ct) /\
    forall g, g < List.length (coord ct) ->
      nth_error out g =
        option_map (fun b : bool => if b then 0%Z else 1%Z) (nth_error imsk g) /\
      ((nth g edge 0%Z = 1%Z /\ nth_error imsk g = Some true /\
        in_flat_cell ct ts zn g) \/
       (nth g edge 0%Z = 0%Z /\
        ~ (nth_error imsk g = Some true /\ in_flat_cell ct ts zn g))).
Proof.
  intros Hct Hts Hzn Hcfg L E.
  destruct (saveZones_facts _ _ _ _ _ _ _ _ _ Hct Hts Hzn Hcfg L E)
    as (zone & dep & edge & -> & Li & Lz & Ld & Le & Hd & Hz & He).
  do 5 eexists; split; [cbn [files]; apply update_same|].
  split; [trivial|].
  intros g Hg; split; [apply nth_error_map|apply He; trivial].
Qed.

(** X30.  What [saveZones] never does, for a catalog with an entry of
    [nnls] per galaxy: it changes no checkpoint; it prints only when the
    zones are missing, and then it writes nothing and returns; it writes
    no file other than its table, and none when it raises. *)
Theorem saveZones_frame (self : Session) (imsk : list bool) (depth : list Z)
    (w w' : World) (r : unit + exn) :
  (forall ct, catalog (core self) = Some ct ->
              List.length (nnls ct) = List.length (coord ct)) ->
  saveZones self imsk depth w = (r, w') ->
  (ctlg_pkl w' = ctlg_pkl w /\ tess_pkl w' = tess_pkl w /\
   zones_pkl w' = zones_pkl w /\ voids_pkl w' = voids_pkl w) /\
  (zones (core self) = None ->
   r = inl tt /\ files w' = files w /\
   stdout w' = stdout w ++ ["Build zones first"]) /\
  (zones (core self) <> None -> stdout w' = stdout w) /\
  (forall e, r = inr e -> files w' = files w /\ e <> ShapeMismatch) /\
  (forall p, files w' p <> files w p ->
     exists cfg, settings self = Some cfg /\
       p = (outdir cfg ++ catname cfg ++ "_galzones.dat")%string).
Proof.
  intros HL; unfold saveZones.
  destruct (zones (core self)) as [zn|].
  2:{ intros [= <- <-]; cbn; repeat split; trivial; intros; congruence. }
  unfold bind_io at 1.
  destruct (catalog (core self)) as [ct|]; cbn [attr ret raise].
  2:{ intros [= <- <-]; repeat split; trivial; intros; congruence. }
  rewrite (HL ct eq_refl), Nat.eqb_refl; cbn [negb].
  unfold bind_io at 1.
  destruct (zone_columns _ _ _ _ _) as [cols|e]; cbn [lift ret raise].
  2:{ intros [= <- <-]; repeat split; trivial; intros; congruence. }
  unfold bind_io at 1.
  pose proof (Table_init_frame cols ["gal"; "zone"; "depth"; "edge"; "out"] w) as Hf.
  destruct (Table_init cols _ w) as [[zT|e] w1] eqn:Et; simpl in Hf; subst w1.
  2:{ apply Table_init_Err in Et; subst e.
      intros [= <- <-]; repeat split; trivial; intros; congruence. }
  unfold bind_io.
  destruct (settings self) as [cfg|]; cbn [attr ret raise write].
  2:{ intros [= <- <-]; repeat split; trivial; intros; congruence. }
  intros [= <- <-]; cbn [files stdout ctlg_pkl tess_pkl zones_pkl voids_pkl].
  repeat split; trivial; try (intros; congruence).
  intros p Hp; exists cfg; split; trivial.
  destruct (string_dec p (outdir cfg ++ catname cfg ++ "_galzones.dat"))
    as [->|Hne]; trivial.
  rewrite update_other in Hp by trivial; congruence.
Qed.

(** ** The theorems at the survey of one galaxy *)

Lemma one_galaxy_zones_ok : zones_ok one_galaxy one_cell one_zone [true] [3%Z].
Proof.
  split; try reflexivity.
  simpl; intros cl c [<-|[]] [<-|[]]; split; vm_compute; lia.
Qed.

Lemma one_galaxy_saved :
  exists w',
    saveZones sorted_session [true] [3%Z] empty_world = (inl tt, w').
Proof.
  destruct (saveZones_table sorted_session one_galaxy one_cell one_zone
              demo_settings [true] [3%Z] empty_world eq_refl eq_refl eq_refl
              eq_refl one_galaxy_zones_ok) as (zone & dep & edge & w' & E & _).
  eauto.
Qed.

Lemma saveZones_table_witness :
  zones_ok one_galaxy one_cell one_zone [true] [3%Z] /\
  exists zone dep edge w',
    saveZones sorted_session [true] [3%Z] empty_world = (inl tt, w') /\
    files w' (outdir demo_settings ++ catname demo_settings ++ "_galzones.dat") =
      Some (mkTable ["gal"; "zone"; "depth"; "edge"; "out"]
              [IntCol (map Z.of_nat (seq 0 (List.length (coord one_galaxy))));
               IntCol zone; IntCol dep; IntCol edge;
               IntCol (map (fun b : bool => if b then 0%Z else 1%Z) [true])]) /\
    List.length zone = List.length (coord one_galaxy) /\
    List.length dep = List.length (coord one_galaxy) /\
    List.length edge = List.length (coord one_galaxy) /\
    (forall p,
       p <> (outdir demo_settings ++ catname demo_settings ++ "_galzones.dat")%string ->
       files w' p = files empty_world p) /\
    stdout w' = stdout empty_world /\
    ctlg_pkl w' = ctlg_pkl empty_world /\ tess_pkl w' = tess_pkl empty_world /\
    zones_pkl w' = zones_pkl empty_world /\ voids_pkl w' = voids_pkl empty_world.
Proof.
  split; [exact one_galaxy_zones_ok|].
  exact (saveZones_table sorted_session one_galaxy one_cell one_zone demo_settings
           [true] [3%Z] empty_world eq_refl eq_refl eq_refl eq_refl
           one_galaxy_zones_ok).
Defined.

Lemma galaxy_zone_depth_witness :
  exists w',
    saveZones sorted_session [true] [3%Z] empty_world = (inl tt, w') /\
    List.length (nnls one_galaxy) = List.length (coord one_galaxy) /\
    exists gal zone dep edge out,
      files w' (outdir demo_settings ++ catname demo_settings ++ "_galzones.dat") =
        Some (mkTable ["gal"; "zone"; "depth"; "edge"; "out"]
                [IntCol gal; IntCol zone; IntCol dep; IntCol edge; IntCol out]) /\
      forall g, g < List.length (coord one_galaxy) ->
        ((nth g zone (-1)%Z = (-1)%Z /\
          forall i, ~ in_zone one_galaxy one_zone g i) \/
         (exists i, in_zone one_galaxy one_zone g i /\
                    nth g zone (-1)%Z = Z.of_nat i)) /\
        (forall c, in_cell one_galaxy g c ->
                   nth_error [3%Z] c = Some (nth g dep (-1)%Z)) /\
        ((forall c, ~ in_cell one_galaxy g c) -> nth g dep (-1)%Z = (-1)%Z).
Proof.
  destruct one_galaxy_saved as [w' E].
  exists w'; split; [exact E|split; [reflexivity|]].
  exact (galaxy_zone_depth sorted_session one_galaxy one_cell one_zone
           demo_settings [true] [3%Z] empty_world w' eq_refl eq_refl eq_refl
           eq_refl eq_refl E).
Defined.

Lemma galaxy_edge_out_witness :
  exists w',
    saveZones sorted_session [true] [3%Z] empty_world = (inl tt, w') /\
    List.length (nnls one_galaxy) = List.length (coord one_galaxy) /\
    exists gal zone dep edge out,
      files w' (outdir demo_settings ++ catname demo_settings ++ "_galzones.dat") =
        Some (mkTable ["gal"; "zone"; "depth"; "edge"; "out"]
                [IntCol gal; IntCol zone; IntCol dep; IntCol edge; IntCol out]) /\
      List.length [true] = List.length (coord one_galaxy) /\
      forall g, g < List.length (coord one_galaxy) ->
        nth_error out g =
          option_map (fun b : bool => if b then 0%Z else 1%Z)
            (nth_error [true] g) /\
        ((nth g edge 0%Z = 1%Z /\ nth_error [true] g = Some true /\
          in_flat_cell one_galaxy one_cell one_zone g) \/
         (nth g edge 0%Z = 0%Z /\
          ~ (nth_error [true] g = Some true /\
             in_flat_cell one_galaxy one_cell one_zone g))).
Proof.
  destruct one_galaxy_saved as [w' E].
  exists w'; split; [exact E|split; [reflexivity|]].
  exact (galaxy_edge_out sorted_session one_galaxy one_cell one_zone
           demo_settings [true] [3%Z] empty_world w' eq_refl eq_refl eq_refl
           eq_refl eq_refl E).
Defined.

Lemma saveZones_frame_witness :
  exists w',
    (forall ct, catalog (core sorted_session) = Some ct ->
                List.length (nnls ct) = List.length (coord ct)) /\
    saveZones sorted_session [true] [3%Z] empty_world = (inl tt, w') /\
    (ctlg_pkl w' = ctlg_pkl empty_world /\ tess_pkl w' = tess_pkl empty_world /\
     zones_pkl w' = zones_pkl empty_world /\ voids_pkl w' = voids_pkl empty_world) /\
    (zones (core sorted_session) = None ->
     inl tt = inl tt :> unit + exn /\ files w' = files empty_world /\
     stdout w' = stdout empty_world ++ ["Build zones first"]) /\
    (zones (core sorted_session) <> None -> stdout w' = stdout empty_world) /\
    (forall e, inl tt = inr e -> files w' = files empty_world /\ e <> ShapeMismatch) /\
    (forall p, files w' p <> files empty_world p ->
       exists cfg, settings sorted_session = Some cfg /\
         p = (outdir cfg ++ catname cfg ++ "_galzones.dat")%string).
Proof.
  assert (HL : forall ct, catalog (core sorted_session) = Some ct ->
                          List.length (nnls ct) = List.length (coord ct))
    by (intros ct [= <-]; reflexivity).
  destruct one_galaxy_saved as [w' E].
  exists w'; split; [exact HL|split; [exact E|]].
  exact (saveZones_frame sorted_session [true] [3%Z] empty_world w' (inl tt) HL E).
Defined.

End ZoneTableSpec.
